(** * The export compiler and job registry of [server/server.js]

    A shallow embedding of the rendering server of the video editor:
    the job registry with the handlers that mutate it, the two
    server-sent-event progress streams, the audio tempo selection of
    [POST /process-video], and the filter-graph builder of
    [POST /export].

    Numbers.  JavaScript numbers are modelled as rationals [Q] and
    rounding is outside the model.  The progress that the registry
    stores is computed from text the encoder reports, so there the
    values that are not rationals matter ([NaN], the infinities, the
    negative zero): it is a [JsNumber.number].  The textual form of a number inside a filter string
    ([`${x}`] and [x.toFixed(k)]) is left abstract: the filter graph is
    kept as a typed structure and a renderer, parametrised by these two
    printers, gives back the strings the server pushes. *)

From Stdlib Require Import QArith Qminmax Qabs Qround Lqa String Ascii List Bool Lia Sorted.
From stdpp Require Import base option list strings gmap pretty.

Local Open Scope Q_scope.

(** ** Comparisons on JavaScript numbers *)

(** [a < b] *)
Definition Qltb (a b : Q) : bool := negb (Qle_bool b a).

(** [a > b] *)
Definition Qgtb (a b : Q) : bool := Qltb b a.

(** ** Numbers that need not be finite *)

Module JsNumber.

(** A JavaScript number: a finite value ([Num 0] is the positive zero),
    the negative zero, an infinity, or [NaN].  Finite results are exact:
    rounding, overflow and underflow are outside the model. *)
Inductive number :=
  | Num (q : Q)
  | NegZero
  | PosInf
  | NegInf
  | NaN.

Coercion Num : Q >-> number.

Definition num_finite (x : number) : bool :=
  match x with Num _ | NegZero => true | _ => false end.

(** The value of a finite number. *)
Definition num_value (x : number) : Q :=
  match x with Num q => q | _ => 0 end.

Definition num_zero (x : number) : bool :=
  match x with Num q => Qeq_bool q 0 | NegZero => true | _ => false end.

(** The sign bit. *)
Definition num_negative (x : number) : bool :=
  match x with
  | Num q => Qltb q 0
  | NegZero | NegInf => true
  | PosInf | NaN => false
  end.

Definition signed_zero (neg : bool) : number := if neg then NegZero else Num 0.

Definition signed_inf (neg : bool) : number := if neg then NegInf else PosInf.

(** A finite product or quotient: a zero result takes the sign of the
    operation. *)
Definition num_signed (neg : bool) (q : Q) : number :=
  if Qeq_bool q 0 then signed_zero neg else Num q.

(** [x * y] *)
Definition num_mul (x y : number) : number :=
  match x, y with
  | NaN, _ | _, NaN => NaN
  | _, _ =>
      let neg := xorb (num_negative x) (num_negative y) in
      if num_finite x && num_finite y then num_signed neg (num_value x * num_value y)
      else if num_zero x || num_zero y then NaN
      else signed_inf neg
  end.

(** [x / y] *)
Definition num_div (x y : number) : number :=
  match x, y with
  | NaN, _ | _, NaN => NaN
  | _, _ =>
      let neg := xorb (num_negative x) (num_negative y) in
      if num_finite x then
        if num_finite y then
          if num_zero y then (if num_zero x then NaN else signed_inf neg)
          else num_signed neg (num_value x / num_value y)
        else signed_zero neg
      else if num_finite y then signed_inf neg
      else NaN
  end.

(** [x + y]: a zero sum is negative only when both terms are the
    negative zero. *)
Definition num_add (x y : number) : number :=
  match x, y with
  | NaN, _ | _, NaN => NaN
  | PosInf, NegInf | NegInf, PosInf => NaN
  | PosInf, _ | _, PosInf => PosInf
  | NegInf, _ | _, NegInf => NegInf
  | NegZero, NegZero => NegZero
  | _, _ =>
      let q := num_value x + num_value y in
      if Qeq_bool q 0 then Num 0 else Num q
  end.

(** The order [Math.min] and [Math.max] use on numbers other than
    [NaN]: the negative zero comes before the positive one. *)
Definition num_before (x y : number) : bool :=
  match x, y with
  | NaN, _ | _, NaN => false
  | NegInf, NegInf => false
  | NegInf, _ => true
  | _, NegInf => false
  | PosInf, _ => false
  | _, PosInf => true
  | NegZero, NegZero => false
  | NegZero, Num q => Qle_bool 0 q
  | Num p, NegZero => Qltb p 0
  | Num p, Num q => Qltb p q
  end.

(** [Math.min(x, y)] *)
Definition Math_min (x y : number) : number :=
  match x, y with
  | NaN, _ | _, NaN => NaN
  | _, _ => if num_before y x then y else x
  end.

(** [Math.max(x, y)] *)
Definition Math_max (x y : number) : number :=
  match x, y with
  | NaN, _ | _, NaN => NaN
  | _, _ => if num_before x y then y else x
  end.

(** A number between [lo] and [hi]. *)
Definition between (lo hi : Q) (x : number) : Prop :=
  match x with
  | Num q => lo <= q /\ q <= hi
  | NegZero => lo <= 0 /\ 0 <= hi
  | _ => False
  end.

End JsNumber.

(** ** The job registry ([const jobs = new Map()]) *)

Module Registry.

Export JsNumber.

(** [status: 'processing' | 'done' | 'error'] *)
Inductive status := Processing | Done | Error.

Definition status_eqb (a b : status) : bool :=
  match a, b with
  | Processing, Processing | Done, Done | Error, Error => true
  | _, _ => false
  end.

(** The object stored under a job id.  [job_inputPath] is written by
    [/process-video] only and [job_type] by [/export] only; [job_error]
    is absent until a handler sets it. *)
Record job := Job {
  job_status : status;
  job_progress : number;
  job_outputPath : string;
  job_inputPath : option string;
  job_filename : string;
  job_type : option string;
  job_error : option string
}.

Definition set_status (s : status) (j : job) : job :=
  Job s (job_progress j) (job_outputPath j) (job_inputPath j)
      (job_filename j) (job_type j) (job_error j).

Definition set_progress (p : number) (j : job) : job :=
  Job (job_status j) p (job_outputPath j) (job_inputPath j)
      (job_filename j) (job_type j) (job_error j).

Definition set_error (e : string) (j : job) : job :=
  Job (job_status j) (job_progress j) (job_outputPath j) (job_inputPath j)
      (job_filename j) (job_type j) (Some e).

Definition terminal (j : job) : bool :=
  status_eqb (job_status j) Done || status_eqb (job_status j) Error.

(** *** [POST /process-video] *)

(** [jobs.set(jobId, { status: 'processing', progress: 0, outputPath,
    inputPath, filename })] *)
Definition process_video_init (jobId outputPath inputPath filename : string)
    (jobs : gmap string job) : gmap string job :=
  <[jobId := Job Processing 0 outputPath (Some inputPath) filename None None]> jobs.

(** A non-empty [progress.timemark] after [split(':')]: what unary [+]
    makes of its fields 0, 1 and 2, which is [NaN] for a field that is
    missing or is not the text of a number (as in ['N/A']). *)
Record timemark := Timemark {
  tm_hours : number; tm_minutes : number; tm_seconds : number
}.

(** [(+timeParts[0]) * 60 * 60 + (+timeParts[1]) * 60 + (+timeParts[2])] *)
Definition timemark_seconds (t : timemark) : number :=
  num_add (num_add (num_mul (num_mul (tm_hours t) 60) 60)
                   (num_mul (tm_minutes t) 60))
          (tm_seconds t).

(** [Math.max(0, Math.min(99, percent))] with
    [percent = (seconds / expectedDuration) * 100]. *)
Definition process_video_percent (expectedDuration : number) (t : timemark) : number :=
  Math_max 0
    (Math_min 99 (num_mul (num_div (timemark_seconds t) expectedDuration) 100)).

(** [.on('progress', ...)] of the process-video encoder;
    [expectedDuration] is [duration / parseFloat(speed)] of the request,
    [tm] is absent for a [progress.timemark] that is falsy. *)
Definition process_video_on_progress (jobId : string) (expectedDuration : number)
    (tm : option timemark) (jobs : gmap string job) : gmap string job :=
  match jobs !! jobId with
  | Some j =>
      if negb (status_eqb (job_status j) Done) && negb (status_eqb (job_status j) Error)
      then match tm with
           | Some t => <[jobId := set_progress (process_video_percent expectedDuration t) j]> jobs
           | None => jobs
           end
      else jobs
  | None => jobs
  end.

(** [.on('end', ...)] of the process-video encoder. *)
Definition process_video_on_end (jobId : string) (jobs : gmap string job)
    : gmap string job :=
  match jobs !! jobId with
  | Some j => <[jobId := set_progress 100 (set_status Done j)]> jobs
  | None => jobs
  end.

(** [.on('error', ...)] of the process-video encoder, and the two other
    places that record a failure (metadata probe, outer [catch]). *)
Definition process_video_on_error (jobId msg : string) (jobs : gmap string job)
    : gmap string job :=
  match jobs !! jobId with
  | Some j => <[jobId := set_error msg (set_status Error j)]> jobs
  | None => jobs
  end.

(** *** [POST /export] *)

(** [jobs.set(exportId, { status: 'processing', progress: 0, outputPath,
    filename, type: 'export' })] *)
Definition export_init (exportId outputPath filename : string)
    (jobs : gmap string job) : gmap string job :=
  <[exportId := Job Processing 0 outputPath None filename (Some "export") None]> jobs.

(** [progress.percent || 50]: [undefined], [NaN] and [0] are falsy; an
    absent percent stands for the first two. *)
Definition percent_or_50 (percent : option Q) : Q :=
  match percent with
  | Some p => if Qeq_bool p 0 then 50 else p
  | None => 50
  end.

(** [.on('progress', ...)] of the export encoder. *)
Definition export_on_progress (exportId : string) (percent : option Q)
    (jobs : gmap string job) : gmap string job :=
  match jobs !! exportId with
  | Some j => <[exportId := set_progress (percent_or_50 percent) j]> jobs
  | None => jobs
  end.

(** The code after the awaited encoder promise resolves. *)
Definition export_on_complete (exportId : string) (jobs : gmap string job)
    : gmap string job :=
  match jobs !! exportId with
  | Some j => <[exportId := set_progress 100 (set_status Done j)]> jobs
  | None => jobs
  end.

(** The [catch] block of the export task. *)
Definition export_on_fail (exportId msg : string) (jobs : gmap string job)
    : gmap string job :=
  match jobs !! exportId with
  | Some j => <[exportId := set_error msg (set_status Error j)]> jobs
  | None => jobs
  end.

(** *** Events that reach the registry *)

Inductive event :=
  | PvProgress (jobId : string) (expectedDuration : number) (tm : option timemark)
  | PvEnd (jobId : string)
  | PvError (jobId msg : string)
  | ExProgress (exportId : string) (percent : option Q)
  | ExComplete (exportId : string)
  | ExFail (exportId msg : string).

Definition handle (e : event) (jobs : gmap string job) : gmap string job :=
  match e with
  | PvProgress id d tm => process_video_on_progress id d tm jobs
  | PvEnd id => process_video_on_end id jobs
  | PvError id msg => process_video_on_error id msg jobs
  | ExProgress id p => export_on_progress id p jobs
  | ExComplete id => export_on_complete id jobs
  | ExFail id msg => export_on_fail id msg jobs
  end.

Definition run (es : list event) (jobs : gmap string job) : gmap string job :=
  fold_left (fun js e => handle e js) es jobs.

(** Events raised by the encoder of one process-video job. *)
Definition process_video_event (jobId : string) (e : event) : bool :=
  match e with
  | PvProgress id _ _ | PvEnd id | PvError id _ => String.eqb id jobId
  | _ => false
  end.

(** *** Server-sent events *)

Inductive sse :=
  | SseError (msg : string)              (* [{ status: 'error', error: msg }] *)
  | SseStatus (s : status) (p : number). (* [{ status, progress }] *)

(** The response stream: what has been written, and whether [res.end()]
    was called; a write after the end sends nothing. *)
Record response := Response { written : list sse; ended : bool }.

Definition res_write (e : sse) (r : response) : response :=
  if ended r then r else Response (written r ++ [e]) false.

Definition res_end (r : response) : response := Response (written r) true.

(** [sendUpdate] of [GET /progress/:jobId]. *)
Definition progress_sendUpdate (jobId : string) (jobs : gmap string job)
    (r : response) : response :=
  match jobs !! jobId with
  | None => res_end (res_write (SseError "Job not found") r)
  | Some j =>
      let r := res_write (SseStatus (job_status j) (job_progress j)) r in
      if terminal j then res_end r else r
  end.

(** [!job || job.type !== 'export'] *)
Definition not_export (o : option job) : bool :=
  match o with
  | None => true
  | Some j => match job_type j with
              | Some t => negb (String.eqb t "export")
              | None => true
              end
  end.

(** [sendUpdate] of [GET /export-progress/:exportId]. *)
Definition export_progress_sendUpdate (exportId : string)
    (jobs : gmap string job) (r : response) : response :=
  if not_export (jobs !! exportId)
  then res_end (res_write (SseError "Export not found") r)
  else match jobs !! exportId with
       | Some j =>
           let r := res_write (SseStatus (job_status j) (job_progress j)) r in
           if terminal j then res_end r else r
       | None => r
       end.

(** The stream of [GET /export-progress/:exportId]: one update at once,
    then one per timer tick, each reading the registry as it is then. *)
Definition export_progress_stream (exportId : string)
    (now : gmap string job) (ticks : list (gmap string job)) : response :=
  fold_left (fun r jobs => export_progress_sendUpdate exportId jobs r)
            ticks
            (export_progress_sendUpdate exportId now (Response [] false)).

End Registry.

(** ** Audio tempo selection of [POST /process-video] *)

Module ProcessVideo.

(** One [atempo=...] stage: the tempo factor and the text the source
    writes for it. *)
Record atempo := Atempo { atempo_factor : Q; atempo_text : string }.

Section Printer.
(** [`${x}`] for a number [x]. *)
Variable num_to_string : Q -> string.

(** The [if / else if] ladder on [speedNum = parseFloat(speed)]. *)
Definition atempo_stages (speedNum : Q) : list atempo :=
  if Qeq_bool speedNum (1#2) then [Atempo (1#2) "0.5"]
  else if Qeq_bool speedNum (1#4) then [Atempo (1#2) "0.5"; Atempo (1#2) "0.5"]
  else if Qeq_bool speedNum 2 then [Atempo 2 "2.0"]
  else if Qltb speedNum (1#2) then [Atempo (1#2) "0.5"; Atempo (1#2) "0.5"]
  else if Qgtb speedNum 2 then [Atempo 2 "2.0"]
  else [Atempo speedNum (num_to_string speedNum)].

(** [audioFilter], with the safeguards appended to it. *)
Definition audioFilter (speedNum : Q) : string :=
  String.concat "," (map (fun a => "atempo=" +:+ atempo_text a) (atempo_stages speedNum))
  +:+ ",volume=0.98,aresample=48000:async=1".
End Printer.

(** The overall tempo change of a chain of stages. *)
Definition tempo_product (l : list atempo) : Q :=
  fold_right (fun a acc => atempo_factor a * acc) 1 l.

(** The range one [atempo] stage supports. *)
Definition in_stage_range (a : atempo) : Prop :=
  1#2 <= atempo_factor a /\ atempo_factor a <= 2.

End ProcessVideo.

(** ** The filter-graph builder of [POST /export] *)

Module Compiler.

Import Registry.

(** *** Timeline data ([types.ts], as the request body carries it) *)

Inductive TransitionType :=
  | CrossDissolve | AdditiveDissolve | BlurDissolve | NonAdditiveDissolve
  | SmoothCut | DipToBlack | DipToWhite | FadeIn | FadeOut.

Record Transition := { t_type : TransitionType; t_duration : Q }.

Record ReframeKeyframe := { kf_time : Q; kf_x : Q; kf_y : Q; kf_scale : Q }.

Record ColorGrading := {
  brightness : Q; contrast : Q; saturation : Q; exposure : Q; sharpness : Q
}.

Record Clip := {
  clip_id : string;
  mediaFileId : string;
  sourceStart : Q;
  sourceEnd : Q;
  timelineStart : Q;
  transitionStart : option Transition;
  transitionEnd : option Transition;
  reframeKeyframes : option (list ReframeKeyframe);
  clip_volume : option Q;
  processedVideoUrl : option string;
  colorGrading : option ColorGrading
}.

Record Track := { clips : list Clip; track_volume : option Q }.

Inductive TemplateLayout := Solo | DuetVertical | DuetHorizontal | TrioStack.

(** [timelineData]: [videoTracks], [audioTracks] (absent is modelled as
    empty, the source treats both alike) and [template.layout]. *)
Record Timeline := {
  videoTracks : list Track;
  audioTracks : list Track;
  layout : TemplateLayout
}.

(** *** What the request handler reads besides the timeline *)

(** An entry of [req.files.videos]. *)
Record UploadedFile := { file_filename : string; file_path : string }.

Record Env := {
  env_jobs : gmap string job;          (* the registry, for processed clips *)
  env_existsSync : string -> bool;     (* [fs.existsSync] *)
  env_videos : list UploadedFile;      (* [req.files?.videos], absent = empty *)
  env_now : string                     (* [Date.now().toString()], the export id *)
}.

(** *** The filter graph *)

(** Expressions of the encoder, with the parentheses the source writes. *)
Inductive expr :=
  | ELit (n : nat)            (* an integer constant of the source text *)
  | ENum (q : Q)              (* an interpolated number *)
  | EIw | EIh                 (* input width and height *)
  | ESub (a b : expr)
  | EMul (a b : expr)
  | EDiv (a b : expr)
  | EMax (a b : expr)
  | EMin (a b : expr)
  | EParen (a : expr).

(** The value the encoder computes for an expression on a frame of
    [iw] x [ih] pixels. *)
Fixpoint eval (iw ih : Q) (e : expr) : Q :=
  match e with
  | ELit n => inject_Z (Z.of_nat n)
  | ENum q => q
  | EIw => iw
  | EIh => ih
  | ESub a b => eval iw ih a - eval iw ih b
  | EMul a b => eval iw ih a * eval iw ih b
  | EDiv a b => eval iw ih a / eval iw ih b
  | EMax a b => Qmax (eval iw ih a) (eval iw ih b)
  | EMin a b => Qmin (eval iw ih a) (eval iw ih b)
  | EParen a => eval iw ih a
  end.

Inductive eq_param :=
  | EqBrightness (v : Q) | EqContrast (v : Q) | EqSaturation (v : Q).

Inductive fade_color := Black | White.

(** The [xfade] transitions the source maps to. *)
Inductive xfade_transition := XFade | XPixelize | XFadeblack | XFadewhite.

(** The end-of-stream policies of [amix]. *)
Inductive amix_duration := Longest | Shortest | First.

Inductive op :=
  | Trim (start duration : Q)          (* [trim=start=S:duration=D] *)
  | Setpts                             (* [setpts=PTS-STARTPTS] *)
  | ScaleCover (w h : nat)             (* [scale=W:H:force_original_aspect_ratio=increase] *)
  | Crop (w h : nat) (x y : expr)      (* [crop=W:H:X:Y] *)
  | Setsar1                            (* [setsar=1] *)
  | Fps30                              (* [fps=30] *)
  | FormatYuv420p                      (* [format=yuv420p] *)
  | Eq (params : list eq_param)        (* [eq=p1:p2:...] *)
  | Unsharp (amount : Q)               (* [unsharp=5:5:A:5:5:0.0] *)
  | Anullsrc (duration : Q)            (* [anullsrc=channel_layout=stereo:sample_rate=48000:duration=D] *)
  | Volume (v : Q)                     (* [volume=V] *)
  | Atrim (start duration : Q)         (* [atrim=start=S:duration=D] *)
  | Asetpts                            (* [asetpts=PTS-STARTPTS] *)
  | Aresample                          (* [aresample=48000] *)
  | FadeInV (d : Q) (c : fade_color)   (* [fade=t=in:st=0:d=D:color=C] *)
  | FadeInA (d : Q)                    (* [afade=t=in:st=0:d=D] *)
  | FadeOutV (st d : Q) (c : fade_color) (* [fade=t=out:st=S:d=D:color=C] *)
  | FadeOutA (st d : Q)                (* [afade=t=out:st=S:d=D] *)
  | ConcatV                            (* [concat=n=2:v=1:a=0] *)
  | ConcatA                            (* [concat=n=2:v=0:a=1] *)
  | Xfade (t : xfade_transition) (duration offset : Q)
                                       (* [xfade=transition=T:duration=D:offset=O] *)
  | Acrossfade (d : Q)                 (* [acrossfade=d=D:c1=tri:c2=tri] *)
  | Null                               (* [null] *)
  | Anull                              (* [anull] *)
  | Adelay (delay : Q)                 (* [adelay=D|D] *)
  | Amix (inputs : nat) (duration : amix_duration) (dropout_transition : nat).
                                       (* [amix=inputs=N:duration=M:dropout_transition=K] *)

(** One chain [[in1][in2]f1,f2[out]]; labels are kept without their
    brackets. *)
Record chain := Chain { ins : list string; ops : list op; out : string }.

(** One element of the [filterComplex] array: the chains of one pushed
    string (more than one only where the source writes a [';'] itself). *)
Definition entry := list chain.

(** *** Resolving the media of a clip *)

(** [s.includes(sub)] *)
Definition includes (sub s : string) : bool :=
  match index 0 sub s with Some _ => true | None => false end.

(** [s.split(sep)[1]] for a non-empty separator. *)
Definition split_second (sep s : string) : option string :=
  match index 0 sep s with
  | None => None
  | Some i =>
      let from := (i + String.length sep)%nat in
      let rest := substring from (String.length s - from) s in
      match index 0 sep rest with
      | None => Some rest
      | Some j => Some (substring 0 j rest)
      end
  end.

(** Truthiness of a string. *)
Definition nonempty (s : string) : bool :=
  match s with EmptyString => false | _ => true end.

(** [req.files?.videos?.find(f => f.filename &&
    f.filename.includes(clip.mediaFileId))], giving the file's path. *)
Definition find_upload (env : Env) (clip : Clip) : option string :=
  file_path <$>
    List.find (fun f => nonempty (file_filename f)
                        && includes (mediaFileId clip) (file_filename f))
              (env_videos env).

(** The output path of the process-video job named by
    [clip.processedVideoUrl], when that file exists. *)
Definition processed_path (env : Env) (clip : Clip) : option string :=
  match processedVideoUrl clip with
  | Some url =>
      if nonempty url then
        match split_second "/download/" url with
        | Some jobId =>
            match env_jobs env !! jobId with
            | Some processJob =>
                if env_existsSync env (job_outputPath processJob)
                then Some (job_outputPath processJob) else None
            | None => None
            end
        | None => None
        end
      else None
  | None => None
  end.

Definition getVideoPath (env : Env) (clip : Clip) : option string :=
  match processed_path env clip with
  | Some p => Some p
  | None => find_upload env clip
  end.

Definition lower (c : ascii) : ascii :=
  let n := nat_of_ascii c in
  if (65 <=? n)%nat && (n <=? 90)%nat then ascii_of_nat (n + 32) else c.

Fixpoint lowercase (s : string) : string :=
  match s with
  | EmptyString => EmptyString
  | String c r => String (lower c) (lowercase r)
  end.

Definition ends_with (suffix s : string) : bool :=
  let n := String.length suffix in
  let m := String.length s in
  (n <=? m)%nat && String.eqb (substring (m - n) n s) suffix.

(** [/\.(jpg|jpeg|png|webp|bmp|gif)$/i.test(videoPath)] *)
Definition isImagePath (videoPath : string) : bool :=
  existsb (fun ext => ends_with ext (lowercase videoPath))
          [".jpg"; ".jpeg"; ".png"; ".webp"; ".bmp"; ".gif"].


(** *** Step 1: one video chain and one audio entry per clip *)

(** [clip.sourceEnd - clip.sourceStart] *)
Definition clip_duration (clip : Clip) : Q := sourceEnd clip - sourceStart clip.

(** [let avgX = 0; keyframes.forEach(kf => { avgX += kf.x }); avgX /= keyframes.length] *)
Definition average_x (keyframes : list ReframeKeyframe) : Q :=
  fold_left (fun avgX kf => avgX + kf_x kf) keyframes 0
  / inject_Z (Z.of_nat (length keyframes)).

(** [max(0\,min(iw-${cropWidth}\,(${avgX}*iw)-(${cropWidth}/2)))] *)
Definition cropXExpr (cropWidth : nat) (avgX : Q) : expr :=
  EMax (ELit 0)
       (EMin (ESub EIw (ELit cropWidth))
             (ESub (EParen (EMul (ENum avgX) EIw))
                   (EParen (EDiv (ELit cropWidth) (ELit 2))))).

(** [(ih-${cropHeight})/2] *)
Definition cropYExpr (cropHeight : nat) : expr :=
  EDiv (EParen (ESub EIh (ELit cropHeight))) (ELit 2).

(** [scale=1080:1920:force_original_aspect_ratio=increase,crop=1080:1920:(iw-1080)/2:(ih-1920)/2] *)
Definition center_crop : list op :=
  [ScaleCover 1080 1920;
   Crop 1080 1920 (EDiv (EParen (ESub EIw (ELit 1080))) (ELit 2))
                  (EDiv (EParen (ESub EIh (ELit 1920))) (ELit 2))].

(** The reframe branch: scale, then the averaged pan crop. *)
Definition reframe_crop (keyframes : list ReframeKeyframe) : list op :=
  let avgX := average_x keyframes in
  let cropWidth := 1080%nat in
  let cropHeight := 1920%nat in
  [ScaleCover 1080 1920;
   Crop cropWidth cropHeight (cropXExpr cropWidth avgX) (cropYExpr cropHeight)].

Definition reframe_ops (clip : Clip) : list op :=
  match reframeKeyframes clip with
  | Some keyframes =>
      if (0 <? length keyframes)%nat then reframe_crop keyframes else center_crop
  | None => center_crop
  end.

(** The colour grading of a clip: [eq] with the parameters that deviate
    from neutral, then [unsharp]. *)
Definition color_ops (clip : Clip) : list op :=
  match colorGrading clip with
  | Some g =>
      let effectiveBrightness := (brightness g - 1) + (exposure g * (1#2)) in
      let eqParams :=
        (if Qgtb (Qabs effectiveBrightness) (1#1000)
         then [EqBrightness effectiveBrightness] else [])
        ++ (if Qgtb (Qabs (contrast g - 1)) (1#1000)
            then [EqContrast (contrast g)] else [])
        ++ (if Qgtb (Qabs (saturation g - 1)) (1#1000)
            then [EqSaturation (saturation g)] else []) in
      (if (0 <? length eqParams)%nat then [Eq eqParams] else [])
      ++ (if Qgtb (sharpness g) 0 then [Unsharp (sharpness g * (3#2))] else [])
  | None => []
  end.

(** [vFilter] of clip [i]. *)
Definition vFilter (i : nat) (clip : Clip) : chain :=
  Chain [pretty i +:+ ":v"]
        ([Trim (sourceStart clip) (clip_duration clip); Setpts]
         ++ reframe_ops clip
         ++ [Setsar1; Fps30; FormatYuv420p]
         ++ color_ops clip)
        ("v" +:+ pretty i).

(** [x ?? 1] *)
Definition or_1 (x : option Q) : Q := default 1 x.

(** [aFilter] of clip [i]: synthetic silence for a still image, the
    trimmed source audio otherwise. *)
Definition aFilter (i : nat) (isImage : bool) (trackVolume : Q) (clip : Clip) : entry :=
  let finalVolume := trackVolume * or_1 (clip_volume clip) in
  if isImage then
    [Chain [] [Anullsrc (clip_duration clip)] ("a" +:+ pretty i +:+ "_raw");
     Chain ["a" +:+ pretty i +:+ "_raw"] [Volume finalVolume] ("a" +:+ pretty i)]
  else
    [Chain [pretty i +:+ ":a"]
           [Atrim (sourceStart clip) (clip_duration clip); Asetpts; Aresample;
            Volume finalVolume]
           ("a" +:+ pretty i)].

(** An element of [inputData]. *)
Record InputData := { in_path : string; in_isImage : bool; in_duration : Q }.

(** The loop [for (let i = 0; i < totalClips; i++)] of step 1, from
    index [i] on; a missing video file throws. *)
Fixpoint prepare_inputs (env : Env) (trackVolume : Q) (i : nat) (cs : list Clip)
    (inputData : list InputData) (filterComplex : list entry)
    : string + (list InputData * list entry) :=
  match cs with
  | [] => inr (inputData, filterComplex)
  | clip :: rest =>
      match getVideoPath env clip with
      | Some videoPath =>
          if nonempty videoPath then
            let isImage := isImagePath videoPath in
            prepare_inputs env trackVolume (S i) rest
              (inputData ++ [{| in_path := videoPath; in_isImage := isImage;
                                in_duration := clip_duration clip |}])
              (filterComplex ++ [[vFilter i clip]; aFilter i isImage trackVolume clip])
          else inl ("Video file not found for clip " +:+ clip_id clip)
      | None => inl ("Video file not found for clip " +:+ clip_id clip)
      end
  end.

(** *** Step 2: the transition chain *)

(** The variables of step 2, with the array the filters are pushed to. *)
Record chain_state := ChainState {
  lastV : string;
  lastA : string;
  currentChainEnd : Q;
  filterComplex : list entry
}.

Definition fade_color_of (t : Transition) : fade_color :=
  match t_type t with DipToWhite => White | _ => Black end.

(** [t && t.duration > 0] *)
Definition with_duration (t : option Transition) : option Transition :=
  match t with
  | Some t => if Qgtb (t_duration t) 0 then Some t else None
  | None => None
  end.

(** The fade-in of the first clip. *)
Definition start_transition (clip0 : Clip) (st : chain_state) : chain_state :=
  match with_duration (transitionStart clip0) with
  | Some t =>
      ChainState "v0_faded" "a0_faded" (currentChainEnd st)
        (filterComplex st
         ++ [[Chain [lastV st] [FadeInV (t_duration t) (fade_color_of t)] "v0_faded"];
             [Chain [lastA st] [FadeInA (t_duration t)] "a0_faded"]])
  | None => st
  end.

(** [transitionType] and [transitionDuration] of a boundary; [None]
    stands for the initial ['none']. *)
Definition resolve_transition (clip nextClip : Clip) : option TransitionType * Q :=
  match with_duration (transitionEnd clip) with
  | Some t => (Some (t_type t), t_duration t)
  | None =>
      match with_duration (transitionStart nextClip) with
      | Some t => (Some (t_type t), t_duration t)
      | None => (None, 0)
      end
  end.

Definition xfadeMap (t : TransitionType) : xfade_transition :=
  match t with
  | CrossDissolve => XFade
  | AdditiveDissolve => XFade
  | BlurDissolve => XPixelize
  | NonAdditiveDissolve => XFade
  | SmoothCut => XFade
  | DipToBlack => XFadeblack
  | DipToWhite => XFadewhite
  | FadeIn => XFade
  | FadeOut => XFade
  end.

(** [xfadeMap[transitionType] || 'fade'] *)
Definition ffmpegTransition (transitionType : option TransitionType) : xfade_transition :=
  match transitionType with Some t => xfadeMap t | None => XFade end.

(** [transitionType !== 'none'] *)
Definition not_none (transitionType : option TransitionType) : bool :=
  match transitionType with Some _ => true | None => false end.

(** The two [concat] filters of a hard cut into clip [i + 1]. *)
Definition concat_entries (i : nat) (st : chain_state) : list entry :=
  [[Chain [lastV st; "v" +:+ pretty (i + 1)%nat] [ConcatV] ("vm" +:+ pretty (i + 1)%nat)];
   [Chain [lastA st; "a" +:+ pretty (i + 1)%nat] [ConcatA] ("am" +:+ pretty (i + 1)%nat)]].

(** The cross-fade pair into clip [i + 1]. *)
Definition xfade_entries (i : nat) (t : xfade_transition)
    (transitionDuration offset : Q) (st : chain_state) : list entry :=
  [[Chain [lastV st; "v" +:+ pretty (i + 1)%nat]
          [Xfade t transitionDuration offset] ("vm" +:+ pretty (i + 1)%nat)];
   [Chain [lastA st; "a" +:+ pretty (i + 1)%nat]
          [Acrossfade transitionDuration] ("am" +:+ pretty (i + 1)%nat)]].

(** The body of the loop over the boundaries [i -> i + 1]. *)
Definition middle_step (i : nat) (clip nextClip : Clip) (st : chain_state)
    : chain_state :=
  let '(transitionType, transitionDuration) := resolve_transition clip nextClip in
  let nextDur := sourceEnd nextClip - sourceStart nextClip in
  if Qgtb transitionDuration 0 && not_none transitionType then
    let offset := currentChainEnd st - transitionDuration in
    if Qltb offset 0 then
      (* fallback to concat; the handles stay as they were *)
      ChainState (lastV st) (lastA st) (currentChainEnd st + nextDur)
                 (filterComplex st ++ concat_entries i st)
    else
      ChainState ("vm" +:+ pretty (i + 1)%nat) ("am" +:+ pretty (i + 1)%nat)
                 (offset + nextDur)
                 (filterComplex st
                  ++ xfade_entries i (ffmpegTransition transitionType)
                                   transitionDuration offset st)
  else
    ChainState ("vm" +:+ pretty (i + 1)%nat) ("am" +:+ pretty (i + 1)%nat)
               (currentChainEnd st + nextDur)
               (filterComplex st ++ concat_entries i st).

(** [for (let i = 0; i < totalClips - 1; i++)], from boundary [i] on;
    [cs] is [track.clips] from index [i]. *)
Fixpoint middle_transitions (i : nat) (cs : list Clip) (st : chain_state)
    : chain_state :=
  match cs with
  | clip :: ((nextClip :: _) as rest) =>
      middle_transitions (S i) rest (middle_step i clip nextClip st)
  | _ => st
  end.

(** The fade-out of the last clip. *)
Definition end_transition (lastClip : Clip) (st : chain_state) : chain_state :=
  match with_duration (transitionEnd lastClip) with
  | Some t =>
      let fadeOutStart := currentChainEnd st - t_duration t in
      if Qgtb fadeOutStart 0 then
        ChainState "v_final_faded" "a_final_faded" (currentChainEnd st)
          (filterComplex st
           ++ [[Chain [lastV st] [FadeOutV fadeOutStart (t_duration t) (fade_color_of t)]
                      "v_final_faded"];
               [Chain [lastA st] [FadeOutA fadeOutStart (t_duration t)] "a_final_faded"]])
      else st
  | None => st
  end.

(** [[lastV]null[v_final]] and [[lastA]aresample=48000[a_final]]. *)
Definition final_entries (st : chain_state) : list entry :=
  [[Chain [lastV st] [Null] "v_final"]; [Chain [lastA st] [Aresample] "a_final"]].

(** Step 2 as a whole, for a non-empty clip list. *)
Definition build_chain (clip0 : Clip) (rest : list Clip) (filterComplex0 : list entry)
    : chain_state :=
  let st0 := ChainState "v0" "a0" (sourceEnd clip0 - sourceStart clip0) filterComplex0 in
  let st1 := start_transition clip0 st0 in
  let st2 := middle_transitions 0 (clip0 :: rest) st1 in
  end_transition (List.last rest clip0) st2.


(** *** Step 3: the music tracks and the mix *)

(** The variables of step 3. *)
Record mix_state := MixState {
  inputs : list string;        (* paths of the music inputs *)
  audioInputs : list string;   (* labels to mix, ['a_final'] first *)
  inputIndex : nat;
  mix_filters : list entry     (* [filterComplex] *)
}.

(** The body of [track.clips.forEach] for one clip of an audio track. *)
Definition music_clip (env : Env) (track : Track) (st : mix_state) (clip : Clip)
    : mix_state :=
  match find_upload env clip with
  | Some path =>
      let n := pretty (inputIndex st) in
      let duration := sourceEnd clip - sourceStart clip in
      let delay := timelineStart clip * 1000 in
      let filterChain : list entry :=
        [[Chain [n +:+ ":a"] [Atrim (sourceStart clip) duration] ("a" +:+ n +:+ "_trim")];
         [Chain ["a" +:+ n +:+ "_trim"] [Adelay delay] ("a" +:+ n +:+ "_delay")];
         [Chain ["a" +:+ n +:+ "_delay"]
                [Volume (or_1 (track_volume track) * or_1 (clip_volume clip))]
                ("a" +:+ n +:+ "_vol")];
         [Chain ["a" +:+ n +:+ "_vol"] [Aresample] ("a" +:+ n +:+ "_out")]] in
      MixState (inputs st ++ [path])
               (audioInputs st ++ ["a" +:+ n +:+ "_out"])
               (S (inputIndex st))
               (mix_filters st ++ filterChain)
  | None => st
  end.

(** [timelineData.audioTracks.forEach(track => track.clips.forEach(...))] *)
Definition music_tracks (env : Env) (tracks : list Track) (st : mix_state)
    : mix_state :=
  fold_left (fun st track => fold_left (music_clip env track) (clips track) st)
            tracks st.

(** The last filter: [amix] over all inputs, or [anull] on the master. *)
Definition mix_stage (audioInputs : list string) : entry :=
  if (1 <? length audioInputs)%nat then
    [Chain audioInputs [Amix (length audioInputs) First 2] "a_mixed"]
  else
    [Chain ["a_final"] [Anull] "a_mixed"].

(** *** The compiler *)

(** What the encoder is started with. *)
Record compiled := Compiled {
  c_inputData : list InputData;
  c_inputs : list string;
  c_filterComplex : list entry
}.

Definition is_solo (l : TemplateLayout) : bool :=
  match l with Solo => true | _ => false end.

(** The body of the export task up to the encoder invocation; [inl] is
    the message of the thrown error. *)
Definition compile (env : Env) (timelineData : Timeline) : string + compiled :=
  if negb (is_solo (layout timelineData))
     || negb (length (videoTracks timelineData) =? 1)%nat
  then inl "Phase 1 only supports solo layout with one video track"
  else
    match videoTracks timelineData with
    | [] => inl "Phase 1 only supports solo layout with one video track"
    | track :: _ =>
        match clips track with
        | [] => inl "No clips to export"
        | clip0 :: rest =>
            let totalClips := length (clips track) in
            match prepare_inputs env (or_1 (track_volume track)) 0 (clips track) [] [] with
            | inl e => inl e
            | inr (inputData, filterComplex1) =>
                let st := build_chain clip0 rest filterComplex1 in
                let ms := music_tracks env (audioTracks timelineData)
                            (MixState [] ["a_final"] totalClips
                                      (filterComplex st ++ final_entries st)) in
                inr (Compiled inputData (inputs ms)
                              (mix_filters ms ++ [mix_stage (audioInputs ms)]))
            end
        end
    end.

(** [path.join(uploadsDir, `export-temp-${exportId}`)], relative to the
    uploads directory. *)
Definition jobTempDir (env : Env) : string := "export-temp-" +:+ env_now env.

(** All chains of a filter graph, in order. *)
Definition chains (g : list entry) : list chain := concat g.

(** *** The strings pushed to [filterComplex] *)

Section Render.
(** [`${x}`] and [x.toFixed(k)] for a number [x]. *)
Variable num_to_string : Q -> string.
Variable to_fixed : nat -> Q -> string.

Fixpoint render_expr (e : expr) : string :=
  match e with
  | ELit n => pretty n
  | ENum q => num_to_string q
  | EIw => "iw"
  | EIh => "ih"
  | ESub a b => render_expr a +:+ "-" +:+ render_expr b
  | EMul a b => render_expr a +:+ "*" +:+ render_expr b
  | EDiv a b => render_expr a +:+ "/" +:+ render_expr b
  | EMax a b => "max(" +:+ render_expr a +:+ "\," +:+ render_expr b +:+ ")"
  | EMin a b => "min(" +:+ render_expr a +:+ "\," +:+ render_expr b +:+ ")"
  | EParen a => "(" +:+ render_expr a +:+ ")"
  end.

Definition render_eq_param (p : eq_param) : string :=
  match p with
  | EqBrightness v => "brightness=" +:+ to_fixed 3 v
  | EqContrast v => "contrast=" +:+ to_fixed 3 v
  | EqSaturation v => "saturation=" +:+ to_fixed 3 v
  end.

Definition render_color (c : fade_color) : string :=
  match c with Black => "black" | White => "white" end.

Definition render_xfade (t : xfade_transition) : string :=
  match t with
  | XFade => "fade" | XPixelize => "pixelize"
  | XFadeblack => "fadeblack" | XFadewhite => "fadewhite"
  end.

Definition render_amix_duration (d : amix_duration) : string :=
  match d with Longest => "longest" | Shortest => "shortest" | First => "first" end.

Definition render_op (o : op) : string :=
  match o with
  | Trim s d => "trim=start=" +:+ num_to_string s +:+ ":duration=" +:+ num_to_string d
  | Setpts => "setpts=PTS-STARTPTS"
  | ScaleCover w h =>
      "scale=" +:+ pretty w +:+ ":" +:+ pretty h +:+ ":force_original_aspect_ratio=increase"
  | Crop w h x y =>
      "crop=" +:+ pretty w +:+ ":" +:+ pretty h +:+ ":" +:+ render_expr x
      +:+ ":" +:+ render_expr y
  | Setsar1 => "setsar=1"
  | Fps30 => "fps=30"
  | FormatYuv420p => "format=yuv420p"
  | Eq params => "eq=" +:+ String.concat ":" (map render_eq_param params)
  | Unsharp a => "unsharp=5:5:" +:+ to_fixed 2 a +:+ ":5:5:0.0"
  | Anullsrc d =>
      "anullsrc=channel_layout=stereo:sample_rate=48000:duration=" +:+ num_to_string d
  | Volume v => "volume=" +:+ num_to_string v
  | Atrim s d => "atrim=start=" +:+ num_to_string s +:+ ":duration=" +:+ num_to_string d
  | Asetpts => "asetpts=PTS-STARTPTS"
  | Aresample => "aresample=48000"
  | FadeInV d c => "fade=t=in:st=0:d=" +:+ num_to_string d +:+ ":color=" +:+ render_color c
  | FadeInA d => "afade=t=in:st=0:d=" +:+ num_to_string d
  | FadeOutV s d c =>
      "fade=t=out:st=" +:+ num_to_string s +:+ ":d=" +:+ num_to_string d
      +:+ ":color=" +:+ render_color c
  | FadeOutA s d => "afade=t=out:st=" +:+ num_to_string s +:+ ":d=" +:+ num_to_string d
  | ConcatV => "concat=n=2:v=1:a=0"
  | ConcatA => "concat=n=2:v=0:a=1"
  | Xfade t d o =>
      "xfade=transition=" +:+ render_xfade t +:+ ":duration=" +:+ num_to_string d
      +:+ ":offset=" +:+ num_to_string o
  | Acrossfade d => "acrossfade=d=" +:+ num_to_string d +:+ ":c1=tri:c2=tri"
  | Null => "null"
  | Anull => "anull"
  | Adelay d => "adelay=" +:+ num_to_string d +:+ "|" +:+ num_to_string d
  | Amix n d k =>
      "amix=inputs=" +:+ pretty n +:+ ":duration=" +:+ render_amix_duration d
      +:+ ":dropout_transition=" +:+ pretty k
  end.

Definition render_chain (c : chain) : string :=
  String.concat "" (map (fun l => "[" +:+ l +:+ "]") (ins c))
  +:+ String.concat "," (map render_op (ops c))
  +:+ "[" +:+ out c +:+ "]".

Definition render_entry (e : entry) : string :=
  String.concat ";" (map render_chain e).

(** The array handed to [cmd.complexFilter]. *)
Definition render (g : list entry) : list string := map render_entry g.
End Render.

Section Strings.
Variable num_to_string : Q -> string.
Variable to_fixed : nat -> Q -> string.

(** The filter strings a request compiles to, or the thrown error. *)
Definition complexFilter (env : Env) (timelineData : Timeline) : string + list string :=
  match compile env timelineData with
  | inl e => inl e
  | inr c => inr (render num_to_string to_fixed (c_filterComplex c))
  end.
End Strings.

(** *** What the encoder does with [amix] *)

(** The duration of the output of [amix] for inputs of the given
    durations, after the encoder's documentation of its [duration]
    option. *)
Definition amix_output_duration (mode : amix_duration) (durations : list Q) : Q :=
  match durations with
  | [] => 0
  | d :: ds =>
      match mode with
      | Longest => fold_left Qmax ds d
      | Shortest => fold_left Qmin ds d
      | First => d
      end
  end.

End Compiler.

(** ** The specification's vocabulary *)

Module Spec.

Import Compiler.

(** The transition of the boundary between [clip] and [nextClip]: the
    [transitionEnd] of the earlier clip when it has a positive duration,
    else the [transitionStart] of the later clip when it has one. *)
Inductive boundary_transition (clip nextClip : Clip) : Transition -> Prop :=
  | boundary_from_end t :
      transitionEnd clip = Some t -> 0 < t_duration t ->
      boundary_transition clip nextClip t
  | boundary_from_start t :
      (forall t', transitionEnd clip = Some t' -> t_duration t' <= 0) ->
      transitionStart nextClip = Some t -> 0 < t_duration t ->
      boundary_transition clip nextClip t.

(** The chain state when the loop over the boundaries reaches boundary
    [i], started in [st] on the clips [cs]. *)
Definition chain_before (cs : list Clip) (i : nat) (st : chain_state) : chain_state :=
  middle_transitions 0 (take (S i) cs) st.

(** An [xfade] never starts before time zero. *)
Definition offset_ok (o : op) : Prop :=
  match o with Xfade _ _ offset => 0 <= offset | _ => True end.

Definition is_xfade (o : op) : bool :=
  match o with Xfade _ _ _ => true | _ => false end.

(** Every [xfade] of a graph has a non-negative offset. *)
Definition graph_ok (g : list entry) : Prop :=
  Forall (Forall (fun ch => Forall offset_ok (ops ch))) g.

(** A job without a [type] field is stored under [id]. *)
Definition untyped_at (id : string) (jobs : gmap string Registry.job) : Prop :=
  exists j, jobs !! id = Some j /\ Registry.job_type j = None.

(** A progress event of the encoder working on job [id]. *)
Definition is_progress (id : string) (e : Registry.event) : bool :=
  match e with
  | Registry.PvProgress i _ _ | Registry.ExProgress i _ => String.eqb i id
  | _ => false
  end.

(** The status a completion or failure event of job [id] asks for. *)
Definition outcome (id : string) (e : Registry.event) : option Registry.status :=
  match e with
  | Registry.PvEnd i | Registry.ExComplete i =>
      if String.eqb i id then Some Registry.Done else None
  | Registry.PvError i _ | Registry.ExFail i _ =>
      if String.eqb i id then Some Registry.Error else None
  | _ => None
  end.

(** The status of job [id] after each event of a sequence. *)
Fixpoint status_trace (id : string) (es : list Registry.event)
    (jobs : gmap string Registry.job) : list (option Registry.status) :=
  match es with
  | [] => []
  | e :: es =>
      (Registry.job_status <$> Registry.handle e jobs !! id)
      :: status_trace id es (Registry.handle e jobs)
  end.

(** The arithmetic mean of a list of numbers. *)
Definition mean (l : list Q) : Q :=
  fold_right Qplus 0 l / inject_Z (Z.of_nat (length l)).

(** The frame that [scale=W:H:force_original_aspect_ratio=increase]
    produces from a [w] x [h] source, after the encoder's documentation:
    the smallest frame of the source's aspect ratio that covers
    [W] x [H]. *)
Definition scaled_to_cover (W H : nat) (w h : Q) : Q * Q :=
  let s := Qmax (inject_Z (Z.of_nat W) / w) (inject_Z (Z.of_nat H) / h) in
  (w * s, h * s).

(** Two request environments that resolve every clip of the timeline
    to the same media file. *)
Definition same_media (env1 env2 : Env) (tl : Timeline) : Prop :=
  (forall track clip, track ∈ videoTracks tl -> clip ∈ clips track ->
     getVideoPath env1 clip = getVideoPath env2 clip)
  /\ (forall track clip, track ∈ audioTracks tl -> clip ∈ clips track ->
        find_upload env1 clip = find_upload env2 clip).

(** The clips of the audio tracks whose media file the request carries. *)
Definition resolved (env : Env) (cs : list Clip) : list Clip :=
  List.filter (fun clip => bool_decide (is_Some (find_upload env clip))) cs.

Definition resolved_music (env : Env) (tracks : list Track) : list Clip :=
  resolved env (concat (map clips tracks)).

(** The labels of the [k] music streams numbered from [n]. *)
Definition music_outputs (n k : nat) : list string :=
  map (fun j => "a" +:+ pretty j +:+ "_out") (seq n k).

End Spec.

(** ** Sample requests *)

Module Samples.

Import Registry Compiler.

Definition clip (id : string) (s e : Q) (ts te : option Transition) : Clip :=
  {| clip_id := id; mediaFileId := id; sourceStart := s; sourceEnd := e;
     timelineStart := 0; transitionStart := ts; transitionEnd := te;
     reframeKeyframes := None; clip_volume := None;
     processedVideoUrl := None; colorGrading := None |}.

Definition dissolve (d : Q) : Transition :=
  {| t_type := CrossDissolve; t_duration := d |}.

(** Two clips of five seconds with a two-second cross-dissolve. *)
Definition two_fives : list Clip :=
  [clip "c1" 0 5 None (Some (dissolve 2)); clip "c2" 0 5 None None].

(** Two clips of one second with a two-second cross-dissolve. *)
Definition two_ones : list Clip :=
  [clip "c1" 0 1 None (Some (dissolve 2)); clip "c2" 0 1 None None].

(** A request that uploads one file per clip id. *)
Definition upload (id : string) : UploadedFile :=
  {| file_filename := "1700000000000-" +:+ id +:+ "_clip.mp4";
     file_path := "uploads/1700000000000-" +:+ id +:+ "_clip.mp4" |}.

Definition request (now : string) : Env :=
  {| env_jobs := ∅; env_existsSync := fun _ => false;
     env_videos := [upload "c1"; upload "c2"; upload "m1"];
     env_now := now |}.

Definition solo (cs : list Clip) (music : list Clip) : Timeline :=
  {| videoTracks := [{| clips := cs; track_volume := Some 1 |}];
     audioTracks := match music with
                    | [] => []
                    | _ => [{| clips := music; track_volume := Some 1 |}]
                    end;
     layout := Solo |}.

(** The same uploads seen by a later request, with a process-video job
    in the registry and one more uploaded file. *)
Definition later_request (now : string) : Env :=
  {| env_jobs := process_video_init "1699999999999" "outputs/processed-1699999999999.mp4"
                   "uploads/1699999999999-in.mp4" "processed-1699999999999.mp4" ∅;
     env_existsSync := fun _ => true;
     env_videos := [upload "c1"; upload "c2"; upload "m1"; upload "zz"];
     env_now := now |}.

(** A three-second music clip placed at the start of the timeline. *)
Definition music : Clip := clip "m1" 0 3 None None.

(** A clip reframed by the given keyframes. *)
Definition reframed (kfs : list ReframeKeyframe) : Clip :=
  {| clip_id := "c1"; mediaFileId := "c1"; sourceStart := 0; sourceEnd := 5;
     timelineStart := 0; transitionStart := None; transitionEnd := None;
     reframeKeyframes := Some kfs; clip_volume := None;
     processedVideoUrl := None; colorGrading := None |}.

Definition keyframe (time x y scale : Q) : ReframeKeyframe :=
  {| kf_time := time; kf_x := x; kf_y := y; kf_scale := scale |}.

(** A printer for numbers: integers in decimal, other rationals as a
    reduced fraction. *)
Definition show (q : Q) : string :=
  let r := Qred q in
  match Qden r with
  | xH => pretty (Qnum r)
  | d => pretty (Qnum r) +:+ "/" +:+ pretty (Zpos d)
  end.

(** A printer with [k] digits after the point, rounding half up. *)
Definition fixed (k : nat) (q : Q) : string :=
  let unit := (10 ^ Z.of_nat k)%Z in
  let scaled := Qfloor (Qabs q * inject_Z unit + (1#2)) in
  let digits := pretty (scaled mod unit)%Z in
  (if Qltb q 0 && (0 <? scaled)%Z then "-" else "")
  +:+ pretty (scaled / unit)%Z
  +:+ match k with
      | O => ""
      | _ => "." +:+ String.concat "" (replicate (k - String.length digits) "0") +:+ digits
      end.

(** A ten-second clip fading in and out over one second. *)
Definition faded : list Clip :=
  [clip "c1" 0 10 (Some {| t_type := FadeIn; t_duration := 1 |})
                  (Some {| t_type := FadeOut; t_duration := 1 |})].

End Samples.

(** ** The other endpoints of [server.js] *)

Module Endpoints.

Import Registry Compiler.

(** [req.body.x || fallback] for a text field. *)
Definition or_text (x : option string) (fallback : string) : string :=
  match x with
  | Some s => if nonempty s then s else fallback
  | None => fallback
  end.

(** What [POST /process-video] does to the registry before it answers
    [{ jobId }]: [now] is [Date.now().toString()], [inputPath] is where
    the upload was stored, [outputsDir] the directory of the outputs. *)
Definition post_process_video (outputsDir now inputPath : string)
    (jobs : gmap string job) : string * gmap string job :=
  let jobId := now in
  let outputFilename := "processed-" +:+ jobId +:+ ".mp4" in
  let outputPath := outputsDir +:+ "/" +:+ outputFilename in
  (jobId, process_video_init jobId outputPath inputPath outputFilename jobs).

(** What [POST /export] does to the registry before it answers
    [{ exportId }]. *)
Definition post_export (exportsDir now : string) (filename format : option string)
    (jobs : gmap string job) : string * gmap string job :=
  let exportId := now in
  let userFilename := or_text filename "export" in
  let format := or_text format "mp4" in
  let outputFilename := userFilename +:+ "." +:+ format in
  let outputPath := exportsDir +:+ "/" +:+ outputFilename in
  (exportId, export_init exportId outputPath outputFilename jobs).

(** The stream of [GET /progress/:jobId]: one update at once, then one
    per timer tick, each reading the registry as it is then. *)
Definition progress_stream (jobId : string)
    (now : gmap string job) (ticks : list (gmap string job)) : response :=
  fold_left (fun r jobs => progress_sendUpdate jobId jobs r)
            ticks
            (progress_sendUpdate jobId now (Response [] false)).

(** [Content-Disposition] of a served file. *)
Inductive disposition :=
  | Inline (filename : string)         (* [inline; filename=...] *)
  | Attachment (filename : string).    (* [attachment; filename=...] *)

Inductive download_response :=
  | NotFound (body : string)                         (* [res.status(404).send(body)] *)
  | SendFile (d : disposition) (path : string).      (* [res.sendFile(path)] *)

(** [GET /download/:jobId] *)
Definition download (existsSync : string -> bool) (jobId : string)
    (jobs : gmap string job) : download_response :=
  match jobs !! jobId with
  | Some j =>
      if negb (status_eqb (job_status j) Done) || negb (existsSync (job_outputPath j))
      then NotFound "File not ready or not found"
      else SendFile (Inline (job_filename j)) (job_outputPath j)
  | None => NotFound "File not ready or not found"
  end.

(** [GET /download-export/:exportId] *)
Definition download_export (existsSync : string -> bool) (exportId : string)
    (jobs : gmap string job) : download_response :=
  if not_export (jobs !! exportId) then NotFound "Export not ready or not found"
  else match jobs !! exportId with
       | Some j =>
           if negb (status_eqb (job_status j) Done) || negb (existsSync (job_outputPath j))
           then NotFound "Export not ready or not found"
           else SendFile (Attachment (job_filename j)) (job_outputPath j)
       | None => NotFound "Export not ready or not found"
       end.

(** [jobs.clear()] of [POST /clear-cache]. *)
Definition clear_cache (jobs : gmap string job) : gmap string job := ∅.

(** An option given to one input of the encoder command. *)
Inductive input_option :=
  | Loop1               (* [-loop 1] *)
  | Seconds (t : Q).    (* [-t T] *)

(** The inputs of the encoder command, in the order they are added:
    [inputData.forEach(...)] with the options of still images, then
    [inputs.forEach(i => cmd.input(i))]. *)
Definition command_inputs (c : compiled) : list (string * list input_option) :=
  map (fun data =>
         (in_path data,
          if in_isImage data then [Loop1; Seconds (in_duration data + (1#2))] else []))
      (c_inputData c)
  ++ map (fun i => (i, [])) (c_inputs c).

End Endpoints.

(** ** What the browser sends ([App.tsx], the services) *)

Module Client.

Import Registry Compiler.

(** [`${mf.id}_${mf.file.name}`], the name [handleExport] uploads a
    media file under. *)
Definition upload_name (id name : string) : string := id +:+ "_" +:+ name.

(** [`${Date.now()}-${file.originalname}`], the name the server stores
    an upload under. *)
Definition stored_name (now originalname : string) : string :=
  now +:+ "-" +:+ originalname.

(** [`http://localhost:3001/download/${jobId}`], the URL [convertFps]
    returns for a processed clip. *)
Definition processed_url (jobId : string) : string :=
  "http://localhost:3001/download/" +:+ jobId.

(** What the promise of [convertFps] does on a message of the progress
    stream. *)
Inductive client_step :=
  | OnProgress (p : Q)        (* [onProgress(p)] *)
  | Resolve (url : string)    (* [resolve(url)] *)
  | Reject (msg : string).    (* [reject(new Error(msg))] *)

(** [JSON.parse(JSON.stringify(progress))] as a term of arithmetic:
    [JSON.stringify] writes [null] for [NaN] and the infinities and [0]
    for the negative zero, and [null / 100] is [0]. *)
Definition received (progress : number) : Q :=
  match progress with Num q => q | _ => 0 end.

(** [eventSource.onmessage] of [convertFps]; [data.error || 'Unknown
    processing error'], where a status event carries no [error]. *)
Definition onmessage (jobId : string) (data : sse) : list client_step :=
  match data with
  | SseStatus Processing progress => [OnProgress (Qmin (received progress / 100) (99#100))]
  | SseStatus Done _ => [OnProgress 1; Resolve (processed_url jobId)]
  | SseStatus Error _ => [Reject "Unknown processing error"]
  | SseError error =>
      [Reject (if nonempty error then error else "Unknown processing error")]
  end.

(** The messages are handled in order until one closes the event
    source. *)
Fixpoint listen (jobId : string) (events : list sse) : list client_step :=
  match events with
  | [] => []
  | data :: rest =>
      match data with
      | SseStatus Processing _ => onmessage jobId data ++ listen jobId rest
      | _ => onmessage jobId data
      end
  end.

End Client.

(** ** Clips in the editor ([types.ts], [clipUtils.ts], [App.tsx]) *)

Module Editor.

Import Compiler.

Inductive ProcessingStatus := Idle | ClipProcessing | ClipDone | ClipError.

(** [Clip] of [types.ts], with all its fields. *)
Record Clip := {
  id : string;
  mediaFileId : string;
  sourceStart : Q;
  sourceEnd : Q;
  timelineStart : Q;
  transitionStart : option Transition;
  transitionEnd : option Transition;
  reframeKeyframes : option (list ReframeKeyframe);
  isMuted : option bool;
  volume : option Q;
  speed : option Q;
  targetFps : option Q;
  processingStatus : option ProcessingStatus;
  processedVideoUrl : option string;
  processingProgress : option Q;
  beats : option (list Q);
  colorGrading : option ColorGrading
}.

(** [clip.speed || 1]: an absent or zero speed is falsy. *)
Definition speed_or_1 (clip : Clip) : Q :=
  match speed clip with
  | Some s => if Qeq_bool s 0 then 1 else s
  | None => 1
  end.

(** [(clip.sourceEnd - clip.sourceStart) / (clip.speed || 1)] *)
Definition getClipDuration (clip : Clip) : Q :=
  (sourceEnd clip - sourceStart clip) / speed_or_1 clip.

(** [areClipsAdjacent] of [clipUtils.ts]; the track argument is unused. *)
Definition areClipsAdjacent (clipA clipB : Clip) : bool :=
  let aEnd := timelineStart clipA + getClipDuration clipA in
  let bStart := timelineStart clipB in
  let bEnd := timelineStart clipB + getClipDuration clipB in
  let aStart := timelineStart clipA in
  if Qltb (Qabs (aEnd - bStart)) (1#1000) then true
  else if Qltb (Qabs (bEnd - aStart)) (1#1000) then true
  else false.

(** [mergeTwoClips] of [clipUtils.ts]; [newId] is the generated id.
    [colorGrading] is not among the fields it copies. *)
Definition mergeTwoClips (newId : string) (clipA clipB : Clip) : Clip :=
  let '(first, second) :=
    if Qle_bool (timelineStart clipA) (timelineStart clipB)
    then (clipA, clipB) else (clipB, clipA) in
  {| id := newId;
     mediaFileId := mediaFileId first;
     sourceStart := sourceStart first;
     sourceEnd := sourceEnd second;
     timelineStart := timelineStart first;
     transitionStart := transitionStart first;
     transitionEnd := transitionEnd second;
     reframeKeyframes := reframeKeyframes first;
     isMuted := isMuted first;
     volume := volume first;
     speed := speed first;
     targetFps := targetFps first;
     processingStatus := processingStatus first;
     processedVideoUrl := processedVideoUrl first;
     processingProgress := processingProgress first;
     beats := beats first;
     colorGrading := None |}.



(** [{ ...c, timelineStart: time }] *)
Definition with_timelineStart (t : Q) (c : Clip) : Clip :=
  {| id := id c; mediaFileId := mediaFileId c; sourceStart := sourceStart c;
     sourceEnd := sourceEnd c; timelineStart := t;
     transitionStart := transitionStart c; transitionEnd := transitionEnd c;
     reframeKeyframes := reframeKeyframes c; isMuted := isMuted c;
     volume := volume c; speed := speed c; targetFps := targetFps c;
     processingStatus := processingStatus c;
     processedVideoUrl := processedVideoUrl c;
     processingProgress := processingProgress c; beats := beats c;
     colorGrading := colorGrading c |}.


(** The magnet-mode compaction: [let time = 0; sorted.map(c => { const
    dur = getClipDuration(c); const newC = { ...c, timelineStart: time };
    time += dur; return newC })], from the running [time] on. *)
Fixpoint compact_from (time : Q) (cs : list Clip) : list Clip :=
  match cs with
  | [] => []
  | c :: rest =>
      with_timelineStart time c :: compact_from (time + getClipDuration c) rest
  end.

(** One step of the sort: [c] goes in front of the first clip that does
    not start before it. *)
Fixpoint insert_by_start (c : Clip) (cs : list Clip) : list Clip :=
  match cs with
  | [] => [c]
  | c' :: rest =>
      if Qle_bool (timelineStart c) (timelineStart c')
      then c :: c' :: rest
      else c' :: insert_by_start c rest
  end.

(** [newClips.sort((a, b) => a.timelineStart - b.timelineStart)]: the
    clips by timeline start, clips with the same start in the order
    they had ([Array.prototype.sort] is stable). *)
Definition sort_by_start (cs : list Clip) : list Clip :=
  fold_right insert_by_start [] cs.

(** The clips [handleCut] (and [handleClipUpdate] in magnet mode)
    stores for a modified track: [const sorted = newClips.sort(...)],
    then the compaction [if (isMagnetMode)]. *)
Definition arrange (isMagnetMode : bool) (newClips : list Clip) : list Clip :=
  let sorted := sort_by_start newClips in
  if isMagnetMode then compact_from 0 sorted else sorted.

(** One clip does not start after the other. *)
Definition starts_before (a b : Clip) : Prop := timelineStart a <= timelineStart b.

(** The clips that start at time [k]. *)
Definition starting_at (k : Q) (cs : list Clip) : list Clip :=
  List.filter (fun c => Qeq_bool (timelineStart c) k) cs.

(** The [duration] memo of [App.tsx]: the latest clip end over all
    tracks plus a tenth of a second, or one second for an empty
    timeline. *)
Definition max_end (tracks : list (list Clip)) : Q :=
  fold_left
    (fun maxEnd track =>
       fold_left
         (fun maxEnd clip =>
            let clipEnd := timelineStart clip + getClipDuration clip in
            if Qgtb clipEnd maxEnd then clipEnd else maxEnd)
         track maxEnd)
    tracks 0.

Definition timeline_duration (tracks : list (list Clip)) : Q :=
  let maxEnd := max_end tracks in
  if Qgtb maxEnd 0 then maxEnd + (1#10) else 1.

(** The test of [handleClipUpdate] on [updatedClip = { ...targetClip,
    ...updates }]: the update is dropped when it holds.  [isImage] and
    [mediaDuration] are read from the media file of the clip. *)
Definition update_rejected (isImage : bool) (mediaDuration : Q)
    (updatedClip : Clip) : bool :=
  let isProcessedVideo :=
    match processedVideoUrl updatedClip with
    | Some url => nonempty url
    | None => false
    end in
  negb isProcessedVideo && negb isImage
    && (Qltb (sourceStart updatedClip) 0
        || Qgtb (sourceEnd updatedClip) mediaDuration
        || Qgtb (sourceEnd updatedClip) (mediaDuration + (1#10)))
  || Qle_bool (sourceEnd updatedClip) (sourceStart updatedClip)
  || Qltb (timelineStart updatedClip) 0.

(** The first update of [handleConvertFps]: [{ ...c, processingStatus:
    'processing', processingProgress: 0, speed, targetFps: 60 }]. *)
Definition processing_started (speed' : Q) (c : Clip) : Clip :=
  {| id := id c; mediaFileId := mediaFileId c; sourceStart := sourceStart c;
     sourceEnd := sourceEnd c; timelineStart := timelineStart c;
     transitionStart := transitionStart c; transitionEnd := transitionEnd c;
     reframeKeyframes := reframeKeyframes c; isMuted := isMuted c;
     volume := volume c; speed := Some speed'; targetFps := Some 60;
     processingStatus := Some ClipProcessing;
     processedVideoUrl := processedVideoUrl c;
     processingProgress := Some 0; beats := beats c;
     colorGrading := colorGrading c |}.

(** The last update of [handleConvertFps], applied to the clip [c] of
    the state: [{ ...c, processingStatus: 'done', processedVideoUrl,
    processingProgress: 1, sourceEnd: clip.sourceStart + newDuration,
    speed: 1 }] with [newDuration = (clip.sourceEnd - clip.sourceStart) /
    speed], where [clip] is the clip as it was when the handler
    started. *)
Definition processing_done (speed' : Q) (processedUrl : string) (clip c : Clip) : Clip :=
  let originalDuration := sourceEnd clip - sourceStart clip in
  let newDuration := originalDuration / speed' in
  {| id := id c; mediaFileId := mediaFileId c; sourceStart := sourceStart c;
     sourceEnd := sourceStart clip + newDuration; timelineStart := timelineStart c;
     transitionStart := transitionStart c; transitionEnd := transitionEnd c;
     reframeKeyframes := reframeKeyframes c; isMuted := isMuted c;
     volume := volume c; speed := Some 1; targetFps := targetFps c;
     processingStatus := Some ClipDone;
     processedVideoUrl := Some processedUrl;
     processingProgress := Some 1; beats := beats c;
     colorGrading := colorGrading c |}.


(** The end of a clip on the timeline. *)
Definition clip_end (c : Clip) : Q := timelineStart c + getClipDuration c.

End Editor.

(** ** More vocabulary *)

Module Props.

Import Registry Compiler.

(** An input pad of the encoder command with [n] inputs. *)
Definition is_pad (n : nat) (l : string) : Prop :=
  exists k, (k < n)%nat /\ (l = pretty k +:+ ":v" \/ l = pretty k +:+ ":a").

(** Every chain reads only input pads and labels that an earlier chain
    (or [defined]) has produced. *)
Fixpoint reads_defined (n : nat) (defined : list string) (cs : list chain) : Prop :=
  match cs with
  | [] => True
  | c :: rest =>
      Forall (fun l => l ∈ defined \/ is_pad n l) (ins c)
      /\ reads_defined n (out c :: defined) rest
  end.

(** The sum of the trimmed lengths of clips. *)
Definition total_duration (cs : list Clip) : Q :=
  fold_right (fun c acc => clip_duration c + acc) 0 cs.

(** No boundary of the clip list carries a transition of positive
    duration. *)
Definition no_transitions (cs : list Clip) : Prop :=
  forall c, c ∈ cs ->
    with_duration (transitionEnd c) = None /\ with_duration (transitionStart c) = None.

(** The job under [id] is still being processed. *)
Definition processing_at (id : string) (jobs : gmap string job) : Prop :=
  exists j, jobs !! id = Some j /\ job_status j = Processing.

(** The event [sendUpdate] writes for a stored job. *)
Definition status_event (id : string) (jobs : gmap string job) : list sse :=
  match jobs !! id with
  | Some j => [SseStatus (job_status j) (job_progress j)]
  | None => []
  end.

(** The clip has no usable media file: [!videoPath]. *)
Definition unresolved (env : Env) (clip : Clip) : bool :=
  match getVideoPath env clip with
  | Some videoPath => negb (nonempty videoPath)
  | None => true
  end.

(** The element of [inputData] pushed for a clip resolved to [path]. *)
Definition input_data (path : string) (clip : Clip) : InputData :=
  {| in_path := path; in_isImage := isImagePath path;
     in_duration := clip_duration clip |}.

(** The labels that the chains of a graph produce. *)
Definition outs (g : list chain) : list string := map out g.

(** The label is neither of two given ones. *)
Definition avoids (lv la l : string) : Prop := l <> lv /\ l <> la.

(** No chain of the graph reads either of the two labels. *)
Definition unread (lv la : string) (g : list chain) : Prop :=
  Forall (fun ch => Forall (avoids lv la) (ins ch)) g.



(** The last event of the stream of [GET /progress/:jobId]. *)
Definition closing_event (id : string) (jobs : gmap string job) : sse :=
  match jobs !! id with
  | Some j => SseStatus (job_status j) (job_progress j)
  | None => SseError "Job not found"
  end.

(** An export job under [id] is still being processed. *)
Definition exporting_at (id : string) (jobs : gmap string job) : Prop :=
  exists j, jobs !! id = Some j /\ job_type j = Some "export"
            /\ job_status j = Processing.

(** The last event of the stream of [GET /export-progress/:exportId]. *)
Definition export_closing_event (id : string) (jobs : gmap string job) : sse :=
  if not_export (jobs !! id) then SseError "Export not found"
  else match jobs !! id with
       | Some j => SseStatus (job_status j) (job_progress j)
       | None => SseError "Export not found"
       end.

(** The job id an event is addressed to. *)
Definition event_id (e : event) : string :=
  match e with
  | PvProgress i _ _ | PvEnd i | PvError i _
  | ExProgress i _ | ExComplete i | ExFail i _ => i
  end.

(** The invariant of the chain builder: the graph so far reads only
    what is defined, and the running streams and the streams of the
    first [total] clips are among its outputs. *)
Definition chain_inv (n total : nat) (st : chain_state) : Prop :=
  reads_defined n [] (chains (filterComplex st))
  /\ lastV st ∈ outs (chains (filterComplex st))
  /\ lastA st ∈ outs (chains (filterComplex st))
  /\ forall j, (j < total)%nat ->
       "v" +:+ pretty j ∈ outs (chains (filterComplex st))
       /\ "a" +:+ pretty j ∈ outs (chains (filterComplex st)).

(** The invariant of the music stage. *)
Definition mix_inv (st : mix_state) : Prop :=
  reads_defined (inputIndex st) [] (chains (mix_filters st))
  /\ Forall (fun l => l ∈ outs (chains (mix_filters st))) (audioInputs st).


(** An event that cannot finish job [id]: a progress event of that
    job, or an event addressed to another job. *)
Definition keeps_running (id : string) (e : event) : bool :=
  Spec.is_progress id e || negb (String.eqb (event_id e) id).

(** An event the encoder of process-video job [id] can raise, or an
    event addressed to another job. *)
Definition process_video_or_other (id : string) (e : event) : bool :=
  process_video_event id e || negb (String.eqb (event_id e) id).

(** What no handler writes: the output path, the input path, the file
    name and the type of a job. *)
Definition same_file (j j' : job) : Prop :=
  job_outputPath j' = job_outputPath j /\ job_inputPath j' = job_inputPath j
  /\ job_filename j' = job_filename j /\ job_type j' = job_type j.

(** A progress event of the process-video encoder whose time mark
    has three numbers as fields and whose expected duration is a number
    other than zero; an event without a time mark, and every other
    event, counts too. *)
Definition numeric (e : event) : Prop :=
  match e with
  | PvProgress _ expectedDuration (Some t) =>
      (exists d, expectedDuration = Num d /\ ~ d == 0)
      /\ num_finite (tm_hours t) = true /\ num_finite (tm_minutes t) = true
      /\ num_finite (tm_seconds t) = true
  | _ => True
  end.

(** Progress and status of a process-video job agree, unless the
    progress is [NaN]. *)
Definition progress_consistent (j : job) : Prop :=
  (job_progress j = NaN \/ between 0 100 (job_progress j))
  /\ (job_status j = Processing ->
      job_progress j = NaN \/ between 0 99 (job_progress j))
  /\ (job_status j = Done -> job_progress j = 100).

(** What [convertFps] reports for a reading at which the job is
    processing. *)
Definition reported (id : string) (jobs : gmap string job) : list Client.client_step :=
  match jobs !! id with
  | Some j =>
      [Client.OnProgress (Qmin (Client.received (job_progress j) / 100) (99#100))]
  | None => []
  end.

(** How [convertFps] settles on the reading that closes the stream. *)
Definition settles (id : string) (jobs : gmap string job) : list Client.client_step :=
  match jobs !! id with
  | Some j =>
      if status_eqb (job_status j) Done
      then [Client.OnProgress 1; Client.Resolve (Client.processed_url id)]
      else [Client.Reject "Unknown processing error"]
  | None => [Client.Reject "Job not found"]
  end.



(** A string without the character ['/']. *)
Fixpoint no_slash (s : string) : Prop :=
  match s with
  | EmptyString => True
  | String c r => c <> "/"%char /\ no_slash r
  end.

End Props.

(** ** More sample data *)

Module MoreSamples.

Import Registry Compiler.

(** Two clips of one second without a transition. *)
Definition plain_ones : list Clip :=
  [Samples.clip "c1" 0 1 None None; Samples.clip "c2" 0 1 None None].

(** A clip whose slow-motion version was made by job ["1700000000001"]. *)
Definition processed_clip : Clip :=
  {| clip_id := "c1"; mediaFileId := "c1"; sourceStart := 0; sourceEnd := 10;
     timelineStart := 0; transitionStart := None; transitionEnd := None;
     reframeKeyframes := None; clip_volume := None;
     processedVideoUrl := Some "http://localhost:3001/download/1700000000001";
     colorGrading := None |}.

(** An export request that arrives after that job has ended. *)
Definition processed_request : Env :=
  {| env_jobs := handle (PvEnd "1700000000001")
                   (process_video_init "1700000000001" "outputs/processed_c1.mp4"
                      "uploads/c1.mp4" "processed_c1.mp4" ∅);
     env_existsSync := fun _ => true;
     env_videos := [Samples.upload "c1"];
     env_now := "1700000000002" |}.


(** A graded clip in the editor: ten seconds of source played at double
    speed from second 2 of the timeline. *)
Definition graded : Editor.Clip :=
  {| Editor.id := "c1"; Editor.mediaFileId := "m1";
     Editor.sourceStart := 0; Editor.sourceEnd := 10;
     Editor.timelineStart := 2;
     Editor.transitionStart := Some (Samples.dissolve 1);
     Editor.transitionEnd := None;
     Editor.reframeKeyframes := None; Editor.isMuted := Some false;
     Editor.volume := Some 1; Editor.speed := Some 2;
     Editor.targetFps := None; Editor.processingStatus := None;
     Editor.processedVideoUrl := None; Editor.processingProgress := None;
     Editor.beats := None;
     Editor.colorGrading := Some (Build_ColorGrading 10 0 0 0 0) |}.

(** A second clip, three seconds long, later on the same track. *)
Definition trailing : Editor.Clip :=
  {| Editor.id := "c2"; Editor.mediaFileId := "m2";
     Editor.sourceStart := 1; Editor.sourceEnd := 4;
     Editor.timelineStart := 20;
     Editor.transitionStart := None; Editor.transitionEnd := None;
     Editor.reframeKeyframes := None; Editor.isMuted := None;
     Editor.volume := None; Editor.speed := None;
     Editor.targetFps := None; Editor.processingStatus := None;
     Editor.processedVideoUrl := None; Editor.processingProgress := None;
     Editor.beats := None; Editor.colorGrading := None |}.

End MoreSamples.

(** ** Properties *)

Import Registry Compiler Spec.

(** *** Comparisons *)

Lemma Qltb_lt (a b : Q) : Qltb a b = true <-> a < b.
Proof.
  unfold Qltb. rewrite negb_true_iff. split.
  - intros H. apply Qnot_le_lt. intros Hle.
    apply Qle_bool_iff in Hle. congruence.
  - intros H. destruct (Qle_bool b a) eqn:E; [|reflexivity].
    apply Qle_bool_iff in E. exfalso. exact (Qlt_not_le _ _ H E).
Qed.

Lemma Qltb_ge (a b : Q) : Qltb a b = false <-> b <= a.
Proof. unfold Qltb. rewrite negb_false_iff. apply Qle_bool_iff. Qed.

Lemma Qgtb_gt (a b : Q) : Qgtb a b = true <-> b < a.
Proof. apply Qltb_lt. Qed.

Lemma Qgtb_le (a b : Q) : Qgtb a b = false <-> a <= b.
Proof. apply Qltb_ge. Qed.

(** *** The transition chain *)

Lemma with_duration_Some (o : option Transition) (t : Transition) :
  with_duration o = Some t <-> o = Some t /\ 0 < t_duration t.
Proof.
  unfold with_duration. destruct o as [u|]; [|split; [discriminate|intros [? _]; discriminate]].
  destruct (Qgtb (t_duration u) 0) eqn:E.
  - apply Qgtb_gt in E. split.
    + intros [= ->]. auto.
    + intros [[= ->] _]. reflexivity.
  - apply Qgtb_le in E. split; [discriminate|].
    intros [[= ->] H]. exfalso. exact (Qlt_not_le _ _ H E).
Qed.

Lemma with_duration_None (o : option Transition) :
  with_duration o = None <-> forall t, o = Some t -> t_duration t <= 0.
Proof.
  unfold with_duration. destruct o as [u|].
  - destruct (Qgtb (t_duration u) 0) eqn:E.
    + apply Qgtb_gt in E. split; [discriminate|].
      intros H. exfalso. exact (Qlt_not_le _ _ E (H u eq_refl)).
    + apply Qgtb_le in E. split; [|reflexivity]. intros _ t [= <-]. exact E.
  - split; [intros _ t; discriminate | reflexivity].
Qed.

(** The source's two-way test computes the boundary's transition. *)
Lemma resolve_boundary (clip nextClip : Clip) (t : Transition) :
  boundary_transition clip nextClip t ->
  resolve_transition clip nextClip = (Some (t_type t), t_duration t).
Proof.
  unfold resolve_transition. intros [u He Hd | u Hn Hs Hd].
  - assert (H : with_duration (transitionEnd clip) = Some u)
      by (apply with_duration_Some; auto).
    now rewrite H.
  - apply with_duration_None in Hn. rewrite Hn.
    assert (H : with_duration (transitionStart nextClip) = Some u)
      by (apply with_duration_Some; auto).
    now rewrite H.
Qed.

Lemma middle_transitions_cons (k : nat) (c0 c1 : Clip) (cs : list Clip)
    (st : chain_state) :
  middle_transitions k (c0 :: c1 :: cs) st
  = middle_transitions (S k) (c1 :: cs) (middle_step k c0 c1 st).
Proof. reflexivity. Qed.

(** Reaching boundary [i + 1] is one step from reaching boundary [i]. *)
Lemma middle_transitions_step (cs : list Clip) (i k : nat)
    (clip nextClip : Clip) (st : chain_state) :
  cs !! i = Some clip -> cs !! S i = Some nextClip ->
  middle_transitions k (take (S (S i)) cs) st
  = middle_step (k + i) clip nextClip (middle_transitions k (take (S i) cs) st).
Proof.
  revert cs k st. induction i as [|i IH]; intros cs k st Hi Hn.
  - destruct cs as [|c0 [|c1 cs]]; try discriminate.
    injection Hi as ->. injection Hn as ->.
    cbn. now rewrite Nat.add_0_r.
  - destruct cs as [|c0 [|c1 cs]]; try discriminate.
    specialize (IH (c1 :: cs) (S k) (middle_step k c0 c1 st) Hi Hn).
    change (take (S (S i)) (c1 :: cs)) with (c1 :: take (S i) cs) in IH.
    change (take (S i) (c1 :: cs)) with (c1 :: take i cs) in IH.
    change (take (S (S (S i))) (c0 :: c1 :: cs)) with (c0 :: c1 :: take (S i) cs).
    change (take (S (S i)) (c0 :: c1 :: cs)) with (c0 :: c1 :: take i cs).
    rewrite !middle_transitions_cons. rewrite IH.
    now rewrite Nat.add_succ_r.
Qed.

Lemma chain_before_step (cs : list Clip) (i : nat) (clip nextClip : Clip)
    (st : chain_state) :
  cs !! i = Some clip -> cs !! S i = Some nextClip ->
  chain_before cs (S i) st = middle_step i clip nextClip (chain_before cs i st).
Proof. intros Hi Hn. unfold chain_before. now rewrite (middle_transitions_step cs i 0 clip nextClip). Qed.

(** The loop ends in the state reached after the last boundary. *)
Lemma chain_before_last (cs : list Clip) (st : chain_state) :
  middle_transitions 0 cs st = chain_before cs (length cs - 1) st.
Proof.
  unfold chain_before. rewrite take_ge; [reflexivity|]. lia.
Qed.


(** The fallback branch of one boundary. *)
Lemma middle_step_fallback (i : nat) (clip nextClip : Clip) (st : chain_state)
    (t : Transition) :
  boundary_transition clip nextClip t ->
  currentChainEnd st < t_duration t ->
  middle_step i clip nextClip st
  = ChainState (lastV st) (lastA st)
      (currentChainEnd st + (sourceEnd nextClip - sourceStart nextClip))
      (filterComplex st ++ concat_entries i st).
Proof.
  intros Hb Hlt. unfold middle_step. rewrite (resolve_boundary _ _ _ Hb).
  assert (Hd : Qgtb (t_duration t) 0 = true).
  { apply Qgtb_gt. destruct Hb; assumption. }
  rewrite Hd. cbn [not_none andb].
  assert (Hoff : Qltb (currentChainEnd st - t_duration t) 0 = true).
  { apply Qltb_lt. lra. }
  now rewrite Hoff.
Qed.

(** The array of filters only grows along the loop. *)
Lemma middle_step_extends (i : nat) (clip nextClip : Clip) (st : chain_state) :
  exists added, filterComplex (middle_step i clip nextClip st) = filterComplex st ++ added.
Proof.
  unfold middle_step. destruct (resolve_transition clip nextClip) as [ty d].
  destruct (Qgtb d 0 && not_none ty); [destruct (Qltb _ 0)|]; cbn; eauto.
Qed.

Lemma middle_transitions_extends (cs : list Clip) (k : nat) (st : chain_state) :
  exists added, filterComplex (middle_transitions k cs st) = filterComplex st ++ added.
Proof.
  revert k st. induction cs as [|c0 cs IH]; intros k st.
  - exists []. cbn. now rewrite app_nil_r.
  - destruct cs as [|c1 cs].
    + exists []. cbn. now rewrite app_nil_r.
    + rewrite middle_transitions_cons.
      destruct (IH (S k) (middle_step k c0 c1 st)) as [a2 H2].
      destruct (middle_step_extends k c0 c1 st) as [a1 H1].
      exists (a1 ++ a2). rewrite H2, H1. now rewrite app_assoc.
Qed.


(** *** No cross-fade before time zero *)

Lemma not_xfade_ok (o : op) : is_xfade o = false -> offset_ok o.
Proof. destruct o; cbn; auto; discriminate. Qed.

Lemma no_xfade_ok (l : list op) : forallb (fun o => negb (is_xfade o)) l = true -> Forall offset_ok l.
Proof.
  induction l as [|o l IH]; cbn; [constructor|].
  intros H. apply andb_true_iff in H as [Ho Hl]. constructor; auto.
  apply not_xfade_ok. now apply negb_true_iff.
Qed.

Lemma graph_ok_app (g1 g2 : list entry) : graph_ok g1 -> graph_ok g2 -> graph_ok (g1 ++ g2).
Proof. unfold graph_ok. intros. now apply Forall_app. Qed.

Lemma reframe_ops_no_xfade (clip : Clip) :
  forallb (fun o => negb (is_xfade o)) (reframe_ops clip) = true.
Proof.
  unfold reframe_ops. destruct (reframeKeyframes clip) as [kfs|]; [|reflexivity].
  destruct (0 <? length kfs)%nat; reflexivity.
Qed.

Lemma color_ops_no_xfade (clip : Clip) :
  forallb (fun o => negb (is_xfade o)) (color_ops clip) = true.
Proof.
  unfold color_ops. destruct (colorGrading clip) as [g|]; [|reflexivity].
  rewrite forallb_app.
  destruct (0 <? length _)%nat; destruct (Qgtb (sharpness g) 0); reflexivity.
Qed.

Lemma vFilter_ok (i : nat) (clip : Clip) : Forall offset_ok (ops (vFilter i clip)).
Proof.
  apply no_xfade_ok. cbn [vFilter ops]. rewrite !forallb_app.
  rewrite reframe_ops_no_xfade, color_ops_no_xfade. reflexivity.
Qed.

Lemma aFilter_ok (i : nat) (isImage : bool) (v : Q) (clip : Clip) :
  Forall (fun ch => Forall offset_ok (ops ch)) (aFilter i isImage v clip).
Proof.
  unfold aFilter. destruct isImage; repeat constructor.
Qed.

Lemma prepare_inputs_ok (env : Env) (v : Q) (cs : list Clip) (i : nat)
    (d : list InputData) (g : list entry) (d' : list InputData) (g' : list entry) :
  prepare_inputs env v i cs d g = inr (d', g') -> graph_ok g -> graph_ok g'.
Proof.
  revert i d g. induction cs as [|clip cs IH]; intros i d g; cbn [prepare_inputs].
  - now intros [= _ <-].
  - destruct (getVideoPath env clip) as [p|]; [|discriminate].
    destruct (nonempty p); [|discriminate].
    intros H Hg. apply (IH _ _ _ H). apply graph_ok_app; [exact Hg|].
    constructor; [constructor; [apply vFilter_ok | constructor]|].
    constructor; [apply aFilter_ok | constructor].
Qed.

Lemma start_transition_ok (clip0 : Clip) (st : chain_state) :
  graph_ok (filterComplex st) -> graph_ok (filterComplex (start_transition clip0 st)).
Proof.
  unfold start_transition. destruct (with_duration _); [|auto].
  intros H. cbn. apply graph_ok_app; [exact H|]. repeat constructor.
Qed.

Lemma middle_step_ok (i : nat) (clip nextClip : Clip) (st : chain_state) :
  graph_ok (filterComplex st) -> graph_ok (filterComplex (middle_step i clip nextClip st)).
Proof.
  intros H. unfold middle_step. destruct (resolve_transition clip nextClip) as [ty d].
  destruct (Qgtb d 0 && not_none ty).
  - destruct (Qltb (currentChainEnd st - d) 0) eqn:E; cbn;
      (apply graph_ok_app; [exact H|]); repeat constructor.
    cbn. now apply Qltb_ge.
  - cbn. apply graph_ok_app; [exact H|]. repeat constructor.
Qed.

Lemma middle_transitions_ok (cs : list Clip) (k : nat) (st : chain_state) :
  graph_ok (filterComplex st) -> graph_ok (filterComplex (middle_transitions k cs st)).
Proof.
  revert k st. induction cs as [|c0 cs IH]; intros k st H; [exact H|].
  destruct cs as [|c1 cs]; [exact H|].
  rewrite middle_transitions_cons. apply IH. now apply middle_step_ok.
Qed.

Lemma end_transition_ok (lastClip : Clip) (st : chain_state) :
  graph_ok (filterComplex st) -> graph_ok (filterComplex (end_transition lastClip st)).
Proof.
  unfold end_transition. destruct (with_duration _); [|auto].
  destruct (Qgtb _ 0); [|auto].
  intros H. cbn. apply graph_ok_app; [exact H|]. repeat constructor.
Qed.

Lemma music_clip_ok (env : Env) (track : Track) (st : mix_state) (clip : Clip) :
  graph_ok (mix_filters st) -> graph_ok (mix_filters (music_clip env track st clip)).
Proof.
  unfold music_clip. destruct (find_upload env clip); [|auto].
  intros H. cbn. apply graph_ok_app; [exact H|]. repeat constructor.
Qed.

Lemma music_tracks_ok (env : Env) (tracks : list Track) (st : mix_state) :
  graph_ok (mix_filters st) -> graph_ok (mix_filters (music_tracks env tracks st)).
Proof.
  unfold music_tracks. revert st.
  induction tracks as [|track tracks IH]; intros st H; [exact H|].
  cbn. apply IH. generalize dependent st.
  induction (clips track) as [|clip cs IHc]; intros st H; [exact H|].
  cbn. apply IHc. now apply music_clip_ok.
Qed.

Lemma mix_stage_ok (l : list string) : Forall (fun ch => Forall offset_ok (ops ch)) (mix_stage l).
Proof. unfold mix_stage. destruct (1 <? length l)%nat; repeat constructor. Qed.

(** Unfolding of a successful [compile]. *)
Lemma compile_inr (env : Env) (tl : Timeline) (c : compiled) :
  compile env tl = inr c ->
  exists track clip0 rest inputData g1,
    layout tl = Solo
    /\ videoTracks tl = [track]
    /\ clips track = clip0 :: rest
    /\ prepare_inputs env (or_1 (track_volume track)) 0 (clips track) [] []
       = inr (inputData, g1)
    /\ let st := build_chain clip0 rest g1 in
       let ms := music_tracks env (audioTracks tl)
                   (MixState [] ["a_final"] (length (clips track))
                             (filterComplex st ++ final_entries st)) in
       c = Compiled inputData (inputs ms)
                    (mix_filters ms ++ [mix_stage (audioInputs ms)]).
Proof.
  unfold compile. destruct (layout tl) eqn:El; cbn [is_solo negb orb]; try discriminate.
  destruct (videoTracks tl) as [|track [|? ?]] eqn:Ev; cbn; try discriminate.
  destruct (clips track) as [|clip0 rest] eqn:Ec; [discriminate|].
  destruct (prepare_inputs _ _ _ _ _ _) as [e|[inputData g1]] eqn:Ep; [discriminate|].
  intros [= <-]. exists track, clip0, rest, inputData, g1. rewrite Ec. auto.
Qed.

Lemma compile_ok (env : Env) (tl : Timeline) (c : compiled) :
  compile env tl = inr c -> graph_ok (c_filterComplex c).
Proof.
  intros H. apply compile_inr in H
    as (track & clip0 & rest & inputData & g1 & _ & _ & Ec & Hp & ->).
  cbn. apply graph_ok_app; [|repeat constructor; apply mix_stage_ok].
  apply music_tracks_ok. cbn. apply graph_ok_app; [|repeat constructor].
  apply end_transition_ok, middle_transitions_ok, start_transition_ok. cbn.
  apply (prepare_inputs_ok _ _ _ _ _ _ _ _ Hp). constructor.
Qed.

(** What is pushed up to one boundary is still there at every later one. *)
Lemma chain_before_extends (cs : list Clip) (i j : nat) (st : chain_state) :
  (i <= j)%nat ->
  exists added,
    filterComplex (chain_before cs j st) = filterComplex (chain_before cs i st) ++ added.
Proof.
  induction 1 as [|j Hle [added IH]].
  - exists []. now rewrite app_nil_r.
  - destruct (cs !! S j) as [nextClip|] eqn:En.
    + destruct (cs !! j) as [clip|] eqn:Ec.
      * rewrite (chain_before_step cs j clip nextClip st Ec En).
        destruct (middle_step_extends j clip nextClip (chain_before cs j st)) as [a2 H2].
        exists (added ++ a2). rewrite H2, IH. now rewrite app_assoc.
      * apply lookup_ge_None in Ec. apply lookup_lt_Some in En. lia.
    + apply lookup_ge_None in En. exists added. rewrite <- IH.
      unfold chain_before. now rewrite !take_ge by lia.
Qed.

Lemma music_clip_extends (env : Env) (track : Track) (st : mix_state) (clip : Clip) :
  exists added, mix_filters (music_clip env track st clip) = mix_filters st ++ added.
Proof.
  unfold music_clip. destruct (find_upload env clip); cbn [mix_filters]; [eauto|].
  exists []. now rewrite app_nil_r.
Qed.

Lemma music_clips_extends (env : Env) (track : Track) (cs : list Clip) (st : mix_state) :
  exists added,
    mix_filters (fold_left (music_clip env track) cs st) = mix_filters st ++ added.
Proof.
  revert st. induction cs as [|clip cs IH]; intros st.
  - exists []. cbn. now rewrite app_nil_r.
  - cbn [fold_left]. destruct (IH (music_clip env track st clip)) as [a2 H2].
    destruct (music_clip_extends env track st clip) as [a1 H1].
    exists (a1 ++ a2). rewrite H2, H1. now rewrite app_assoc.
Qed.

Lemma music_tracks_extends (env : Env) (tracks : list Track) (st : mix_state) :
  exists added, mix_filters (music_tracks env tracks st) = mix_filters st ++ added.
Proof.
  unfold music_tracks. revert st. induction tracks as [|track tracks IH]; intros st.
  - exists []. cbn. now rewrite app_nil_r.
  - cbn [fold_left].
    destruct (IH (fold_left (music_clip env track) (clips track) st)) as [a2 H2].
    destruct (music_clips_extends env track (clips track) st) as [a1 H1].
    exists (a1 ++ a2). rewrite H2, H1. now rewrite app_assoc.
Qed.

(** The compiled graph keeps everything the boundary loop pushed. *)
Lemma compile_keeps_chain (env : Env) (tl : Timeline) (c : compiled) :
  compile env tl = inr c ->
  exists track clip0 rest g1,
    videoTracks tl = [track] /\ clips track = clip0 :: rest
    /\ forall i,
         exists pushed_after,
           c_filterComplex c
           = filterComplex
               (chain_before (clips track) i
                  (start_transition clip0
                     (ChainState "v0" "a0" (sourceEnd clip0 - sourceStart clip0) g1)))
             ++ pushed_after.
Proof.
  intros H. apply compile_inr in H
    as (track & clip0 & rest & inputData & g1 & _ & Ev & Ec & Hp & ->).
  exists track, clip0, rest, g1. split; [exact Ev|]. split; [exact Ec|].
  intros i. cbn [c_filterComplex].
  set (st1 := start_transition clip0 _).
  set (ms0 := MixState _ _ _ _).
  destruct (music_tracks_extends env (audioTracks tl) ms0) as [a Ha]. rewrite Ha. subst ms0. cbn [mix_filters].
  assert (He : exists a', filterComplex (build_chain clip0 rest g1)
                          = filterComplex (chain_before (clips track) i st1) ++ a').
  { unfold build_chain. fold st1.
    set (st2 := middle_transitions 0 (clip0 :: rest) st1).
    assert (H2 : exists a2, filterComplex st2
                            = filterComplex (chain_before (clips track) i st1) ++ a2).
    { subst st2. rewrite Ec.
      destruct (Nat.le_gt_cases i (length (clip0 :: rest) - 1)) as [Hle|Hgt].
      - rewrite chain_before_last. now apply chain_before_extends.
      - exists []. rewrite app_nil_r. unfold chain_before.
        rewrite take_ge; [reflexivity|]. cbn [length] in *. lia. }
    destruct H2 as [a2 H2].
    unfold end_transition. destruct (with_duration _); [|eauto].
    destruct (Qgtb _ 0); [|eauto].
    cbn [filterComplex]. rewrite H2. eexists. rewrite <- app_assoc. reflexivity. }
  destruct He as [a' He]. rewrite He. eexists. rewrite <- !app_assoc. reflexivity.
Qed.

(** One pass of the loop through a boundary whose resolved transition
    is longer than the running chain end: it pushes the two hard-cut
    [concat] filters over the running streams and the next clip's
    streams and advances the chain end by the trimmed length of the
    next clip.  And in every graph the compiler hands to the encoder,
    each [xfade] has a non-negative offset. *)
Lemma fallback_loop_step :
  (forall (cs : list Clip) (i : nat) (clip nextClip : Clip) (t : Transition)
          (st : chain_state),
     cs !! i = Some clip -> cs !! S i = Some nextClip ->
     boundary_transition clip nextClip t ->
     currentChainEnd (chain_before cs i st) < t_duration t ->
     let before := chain_before cs i st in
     let after := chain_before cs (S i) st in
     filterComplex after
     = filterComplex before
       ++ [[Chain [lastV before; "v" +:+ pretty (i + 1)%nat] [ConcatV]
                  ("vm" +:+ pretty (i + 1)%nat)];
           [Chain [lastA before; "a" +:+ pretty (i + 1)%nat] [ConcatA]
                  ("am" +:+ pretty (i + 1)%nat)]]
     /\ currentChainEnd after
        = currentChainEnd before + (sourceEnd nextClip - sourceStart nextClip))
  /\ (forall (env : Env) (tl : Timeline) (c : compiled),
        compile env tl = inr c ->
        forall (ch : chain) (ty : xfade_transition) (d offset : Q),
          ch ∈ chains (c_filterComplex c) -> Xfade ty d offset ∈ ops ch ->
          0 <= offset).
Proof.
  split.
  - intros cs i clip nextClip t st Hi Hn Hb Hlt before after. subst after.
    rewrite (chain_before_step cs i clip nextClip st Hi Hn). fold before.
    rewrite (middle_step_fallback i clip nextClip before t Hb Hlt). cbn. auto.
  - intros env tl c Hc ch ty d offset Hch Ho.
    pose proof (compile_ok env tl c Hc) as Hg. unfold graph_ok in Hg.
    unfold chains in Hch. apply list_elem_of_In, in_concat in Hch as (e & He & Hin).
    apply list_elem_of_In in He, Hin.
    rewrite Forall_forall in Hg. specialize (Hg e He).
    rewrite Forall_forall in Hg. specialize (Hg ch Hin).
    rewrite Forall_forall in Hg. exact (Hg _ Ho).
Qed.

(** *** The audio mix *)

Lemma music_outputs_S (n k : nat) :
  music_outputs n (S k) = ("a" +:+ pretty n +:+ "_out") :: music_outputs (S n) k.
Proof. reflexivity. Qed.

Lemma music_outputs_add (n a b : nat) :
  music_outputs n (a + b) = music_outputs n a ++ music_outputs (n + a) b.
Proof. unfold music_outputs. now rewrite seq_app, map_app. Qed.

Lemma music_clip_resolved (env : Env) (track : Track) (st : mix_state) (clip : Clip)
    (p : string) :
  find_upload env clip = Some p ->
  audioInputs (music_clip env track st clip)
  = audioInputs st ++ ["a" +:+ pretty (inputIndex st) +:+ "_out"]
  /\ inputIndex (music_clip env track st clip) = S (inputIndex st)
  /\ inputs (music_clip env track st clip) = inputs st ++ [p].
Proof. intros E. unfold music_clip. rewrite E. cbn. auto. Qed.

Lemma music_clip_unresolved (env : Env) (track : Track) (st : mix_state) (clip : Clip) :
  find_upload env clip = None -> music_clip env track st clip = st.
Proof. intros E. unfold music_clip. now rewrite E. Qed.

(** One audio track adds one input per resolved clip, numbered on. *)
Lemma music_clips_inputs (env : Env) (track : Track) (cs : list Clip) (st : mix_state) :
  let st' := fold_left (music_clip env track) cs st in
  let k := length (resolved env cs) in
  audioInputs st' = audioInputs st ++ music_outputs (inputIndex st) k
  /\ inputIndex st' = (inputIndex st + k)%nat
  /\ length (inputs st') = (length (inputs st) + k)%nat.
Proof.
  revert st. induction cs as [|clip cs IH]; intros st.
  - cbn. rewrite app_nil_r, !Nat.add_0_r. auto.
  - cbn [fold_left resolved List.filter].
    destruct (find_upload env clip) as [p|] eqn:E.
    + rewrite bool_decide_eq_true_2 by eauto.
      destruct (music_clip_resolved env track st clip p E) as (Ha1 & Hi1 & Hl1).
      destruct (IH (music_clip env track st clip)) as (Ha & Hi & Hl).
      cbn zeta in *. fold (resolved env cs). rewrite Ha, Hi, Hl, Ha1, Hi1, Hl1.
      cbn [length]. rewrite music_outputs_S, <- app_assoc, length_app. cbn.
      repeat split; lia.
    + rewrite bool_decide_eq_false_2 by (intros [? ?]; discriminate).
      rewrite (music_clip_unresolved env track st clip E). apply IH.
Qed.

Lemma music_tracks_inputs (env : Env) (tracks : list Track) (st : mix_state) :
  let st' := music_tracks env tracks st in
  let k := length (resolved_music env tracks) in
  audioInputs st' = audioInputs st ++ music_outputs (inputIndex st) k
  /\ inputIndex st' = (inputIndex st + k)%nat
  /\ length (inputs st') = (length (inputs st) + k)%nat.
Proof.
  unfold music_tracks, resolved_music. revert st.
  induction tracks as [|track tracks IH]; intros st.
  - cbn. rewrite app_nil_r, !Nat.add_0_r. auto.
  - cbn [fold_left map concat]. unfold resolved. rewrite List.filter_app, length_app.
    destruct (music_clips_inputs env track (clips track) st) as (Ha & Hi & Hl).
    destruct (IH (fold_left (music_clip env track) (clips track) st)) as (Ha' & Hi' & Hl').
    cbn zeta in *. unfold resolved in *.
    rewrite Ha', Hi', Hl', Ha, Hi, Hl, music_outputs_add, <- app_assoc.
    repeat split; lia.
Qed.

Lemma last_snoc_entry (g : list entry) (e : entry) : last (g ++ [e]) = Some e.
Proof. apply last_snoc. Qed.

(** C5 (amended): when at least one clip of the audio tracks is
    resolved, the last filter mixes the master stream and every music
    stream with [amix], whose [duration=first] policy ends the mix with
    its first input, the master stream; when none is resolved, the last
    filter is the pass-through [anull] on the master stream. *)
Theorem mix_ends_with_master (env : Env) (tl : Timeline) (c : compiled) :
  compile env tl = inr c ->
  exists track,
    videoTracks tl = [track]
    /\ (let n := length (clips track) in
        let k := length (resolved_music env (audioTracks tl)) in
        (0 < k)%nat ->
        last (c_filterComplex c)
        = Some [Chain ("a_final" :: music_outputs n k) [Amix (S k) First 2] "a_mixed"]
        /\ (forall master others,
              amix_output_duration First (master :: others) = master))
    /\ (length (resolved_music env (audioTracks tl)) = 0%nat ->
          last (c_filterComplex c) = Some [Chain ["a_final"] [Anull] "a_mixed"]).
Proof.
  intros H. apply compile_inr in H
    as (track & clip0 & rest & inputData & g1 & _ & Ev & Ec & Hp & ->).
  exists track. split; [exact Ev|].
  cbn [c_filterComplex]. rewrite last_snoc_entry.
  destruct (music_tracks_inputs env (audioTracks tl)
              (MixState [] ["a_final"] (length (clips track))
                 (filterComplex (build_chain clip0 rest g1)
                  ++ final_entries (build_chain clip0 rest g1)))) as (Ha & _ & _).
  cbn zeta in Ha. cbn [audioInputs inputIndex] in Ha. rewrite Ha.
  split.
  - intros Hk. split; [|reflexivity].
    unfold mix_stage. cbn [app length].
    assert (Hl : length (music_outputs (length (clips track))
                           (length (resolved_music env (audioTracks tl))))
                 = length (resolved_music env (audioTracks tl))).
    { unfold music_outputs. now rewrite length_map, length_seq. }
    rewrite Hl.
    destruct (Nat.ltb_spec 1 (S (length (resolved_music env (audioTracks tl)))));
      [reflexivity | lia].
  - intros ->. reflexivity.
Qed.

(** A five-second pair with one music clip: the mix has two inputs. *)
Lemma mix_ends_with_master_witness :
  exists c,
    compile (Samples.request "1700000000001")
            (Samples.solo Samples.two_fives [Samples.music]) = inr c
    /\ last (c_filterComplex c)
       = Some [Chain ["a_final"; "a2_out"] [Amix 2 First 2] "a_mixed"].
Proof.
  destruct (compile (Samples.request "1700000000001")
                    (Samples.solo Samples.two_fives [Samples.music])) as [e|c] eqn:Hc;
    [vm_compute in Hc; discriminate|].
  exists c. split; [reflexivity|].
  destruct (mix_ends_with_master _ _ c Hc) as (track & Ev & Hmix & _).
  injection Ev as <-.
  apply Hmix. vm_compute. lia.
Defined.

(** C5, as stated, fails: for a master stream of eight seconds and one
    music clip of three, the mixer the compiler emits runs under
    [duration=first] and so for eight seconds, not for the three of the
    shortest input. *)
Lemma mix_truncation_counterexample :
  (exists c,
     compile (Samples.request "1700000000001")
             (Samples.solo Samples.two_fives [Samples.music]) = inr c
     /\ last (c_filterComplex c)
        = Some [Chain ["a_final"; "a2_out"] [Amix 2 First 2] "a_mixed"])
  /\ amix_output_duration First [8; 3] == 8
  /\ amix_output_duration Shortest [8; 3] == 3
  /\ ~ amix_output_duration First [8; 3] == amix_output_duration Shortest [8; 3].
Proof.
  split; [|repeat split; vm_compute; congruence].
  eexists. split; vm_compute; reflexivity.
Qed.

(** *** The tempo filter of [POST /process-video] *)

(** C6 (amended): every stage of the tempo chain lies in the supported
    range [[0.5, 2]]; the chain's product is the requested speed when
    the speed lies in that range or is [0.25]; below [0.5] the chain is
    the one of [0.25], above [2] the one of [2]. *)
Theorem atempo_chain (num_to_string : Q -> string) (speed : Q) :
  let stages := ProcessVideo.atempo_stages num_to_string speed in
  Forall ProcessVideo.in_stage_range stages
  /\ ((1#2 <= speed /\ speed <= 2) \/ speed == 1#4 ->
      ProcessVideo.tempo_product stages == speed)
  /\ (speed < 1#2 -> ProcessVideo.tempo_product stages == 1#4)
  /\ (2 < speed -> ProcessVideo.tempo_product stages == 2).
Proof.
  unfold ProcessVideo.atempo_stages, ProcessVideo.in_stage_range.
  destruct (Qeq_bool speed (1#2)) eqn:E1.
  { apply Qeq_bool_iff in E1. cbn.
    repeat split; try (repeat constructor; cbn; lra); intros; lra. }
  destruct (Qeq_bool speed (1#4)) eqn:E2.
  { apply Qeq_bool_iff in E2. cbn.
    repeat split; try (repeat constructor; cbn; lra); intros; lra. }
  destruct (Qeq_bool speed 2) eqn:E3.
  { apply Qeq_bool_iff in E3. cbn.
    repeat split; try (repeat constructor; cbn; lra); intros; lra. }
  apply Qeq_bool_neq in E1, E2, E3.
  destruct (Qltb speed (1#2)) eqn:E4.
  { apply Qltb_lt in E4. cbn.
    repeat split; try (repeat constructor; cbn; lra); intros; lra. }
  apply Qltb_ge in E4.
  destruct (Qgtb speed 2) eqn:E5.
  { apply Qgtb_gt in E5. cbn.
    repeat split; try (repeat constructor; cbn; lra); intros; lra. }
  apply Qgtb_le in E5. cbn.
  repeat split; try (repeat constructor; cbn; lra); intros; lra.
Qed.

(** Speeds [1.5], [0.25], [0.125] and [4]. *)
Lemma atempo_chain_witness :
  ProcessVideo.tempo_product (ProcessVideo.atempo_stages Samples.show (3#2)) == 3#2
  /\ ProcessVideo.tempo_product (ProcessVideo.atempo_stages Samples.show (1#4)) == 1#4
  /\ ProcessVideo.tempo_product (ProcessVideo.atempo_stages Samples.show (1#8)) == 1#4
  /\ ProcessVideo.tempo_product (ProcessVideo.atempo_stages Samples.show 4) == 2.
Proof.
  split; [|split; [|split]].
  - apply (proj1 (proj2 (atempo_chain Samples.show (3#2)))).
    apply or_introl. split; discriminate.
  - apply (proj1 (proj2 (atempo_chain Samples.show (1#4)))).
    apply or_intror. reflexivity.
  - apply (proj1 (proj2 (proj2 (atempo_chain Samples.show (1#8))))). reflexivity.
  - apply (proj2 (proj2 (proj2 (atempo_chain Samples.show 4)))). reflexivity.
Defined.

(** C6, as stated, fails: at speed [4] the chain is the single stage
    [atempo=2.0], whose product is [2]. *)
Lemma atempo_product_counterexample :
  ProcessVideo.audioFilter Samples.show 4 = "atempo=2.0,volume=0.98,aresample=48000:async=1"
  /\ ProcessVideo.atempo_stages Samples.show 4 = [ProcessVideo.Atempo 2 "2.0"]
  /\ ~ ProcessVideo.tempo_product (ProcessVideo.atempo_stages Samples.show 4) == 4.
Proof.
  split; [reflexivity|]. split; [reflexivity|]. vm_compute. discriminate.
Qed.

(** *** Reframing *)

Lemma fold_left_sum (l : list ReframeKeyframe) (a : Q) :
  fold_left (fun avgX kf => avgX + kf_x kf) l a
  == a + fold_right Qplus 0 (map kf_x l).
Proof.
  revert a. induction l as [|kf l IH]; intros a; cbn.
  - ring.
  - rewrite IH. ring.
Qed.

(** [avgX] is the arithmetic mean of the keyframes' [x]. *)
Lemma average_x_mean (kfs : list ReframeKeyframe) :
  average_x kfs == mean (map kf_x kfs).
Proof.
  unfold average_x, mean. rewrite fold_left_sum, length_map.
  apply Qdiv_comp; [ring | reflexivity].
Qed.

(** [avgX] reads nothing but the [x] of the keyframes. *)
Lemma average_x_only_x (kfs kfs' : list ReframeKeyframe) :
  map kf_x kfs' = map kf_x kfs -> average_x kfs' = average_x kfs.
Proof.
  intros H. unfold average_x.
  assert (Hl : length kfs' = length kfs)
    by (rewrite <- (length_map kf_x kfs'), H; apply length_map).
  rewrite Hl. f_equal.
  assert (G : forall l a, fold_left (fun avgX kf => avgX + kf_x kf) l a
                          = fold_left Qplus (map kf_x l) a).
  { induction l as [|kf l IH]; intros a; cbn; [reflexivity | apply IH]. }
  now rewrite !G, H.
Qed.

Lemma eval_cropXExpr (iw ih avgX : Q) :
  eval iw ih (cropXExpr 1080 avgX)
  = Qmax 0 (Qmin (iw - 1080) (avgX * iw - 1080 / 2)).
Proof. reflexivity. Qed.

Lemma eval_cropYExpr (iw ih : Q) : eval iw ih (cropYExpr 1920) = (ih - 1920) / 2.
Proof. reflexivity. Qed.

Lemma clamp_range (lo hi x : Q) :
  lo <= hi -> lo <= Qmax lo (Qmin hi x) /\ Qmax lo (Qmin hi x) <= hi.
Proof.
  intros H. split; [apply Q.le_max_l|].
  apply Q.max_lub; [exact H | apply Q.le_min_l].
Qed.

Lemma clamp_inside (lo hi x : Q) :
  lo <= x -> x <= hi -> Qmax lo (Qmin hi x) == x.
Proof.
  intros Hl Hh. rewrite (Q.min_r hi x Hh). now apply Q.max_r.
Qed.

(** The frame after the scale step covers the target width. *)
Lemma scaled_width_covers (w h : Q) :
  0 < w -> 0 < h -> 1080 <= fst (scaled_to_cover 1080 1920 w h).
Proof.
  intros Hw Hh. unfold scaled_to_cover. cbn [fst].
  change (inject_Z (Z.of_nat 1080)) with 1080.
  assert (E : 1080 == w * (1080 / w)) by (field; lra).
  rewrite E at 1. apply Qmult_le_l; [exact Hw | apply Q.le_max_l].
Qed.

Lemma reframe_ops_keyframes (clip : Clip) (kfs : list ReframeKeyframe) :
  reframeKeyframes clip = Some kfs -> kfs <> [] ->
  reframe_ops clip
  = [ScaleCover 1080 1920;
     Crop 1080 1920 (cropXExpr 1080 (average_x kfs)) (cropYExpr 1920)].
Proof.
  intros E Hne. unfold reframe_ops. rewrite E.
  destruct kfs as [|kf kfs]; [congruence | reflexivity].
Qed.

(** C7 (amended): for a clip with keyframes, the video chain trims,
    scales the source to cover 1080x1920 and then crops a 1080x1920
    window, whatever scale, [y] and time the keyframes carry.  The left
    edge of the window is [m * iw - 540] clamped to [[0, iw - 1080]],
    for [m] the arithmetic mean of the keyframes' [x]: the window is
    centred on [m * iw] whenever that keeps it inside the frame.
    Vertically it is centred on the middle of the frame. *)
Theorem reframe_crop_window (i : nat) (clip : Clip) (kfs : list ReframeKeyframe) :
  reframeKeyframes clip = Some kfs -> kfs <> [] ->
  let m := mean (map kf_x kfs) in
  exists X Y tail,
    ops (vFilter i clip)
    = Trim (sourceStart clip) (clip_duration clip) :: Setpts
      :: ScaleCover 1080 1920 :: Crop 1080 1920 X Y :: tail
    /\ (forall iw ih, eval iw ih X == Qmax 0 (Qmin (iw - 1080) (m * iw - 1080 / 2)))
    /\ (forall iw ih, 1080 / 2 <= m * iw -> m * iw <= iw - 1080 / 2 ->
                      eval iw ih X + 1080 / 2 == m * iw)
    /\ (forall iw ih, eval iw ih Y + 1920 / 2 == ih / 2)
    /\ (forall clip' kfs',
          reframeKeyframes clip' = Some kfs' -> map kf_x kfs' = map kf_x kfs ->
          reframe_ops clip' = reframe_ops clip).
Proof.
  intros E Hne m.
  exists (cropXExpr 1080 (average_x kfs)), (cropYExpr 1920),
         ([Setsar1; Fps30; FormatYuv420p] ++ color_ops clip).
  assert (Hx : forall iw ih, eval iw ih (cropXExpr 1080 (average_x kfs))
                             == Qmax 0 (Qmin (iw - 1080) (m * iw - 1080 / 2))).
  { intros iw ih. rewrite eval_cropXExpr. subst m.
    now rewrite (average_x_mean kfs). }
  split; [|split; [exact Hx|split; [|split]]].
  - cbn [vFilter ops]. now rewrite (reframe_ops_keyframes clip kfs E Hne).
  - intros iw ih Hlo Hhi. rewrite Hx.
    generalize dependent (m * iw). intros c Hlo Hhi.
    assert (E540 : 1080 / 2 == 540) by reflexivity.
    rewrite E540 in *. rewrite clamp_inside; lra.
  - intros iw ih. rewrite eval_cropYExpr. field.
  - intros clip' kfs' E' Hmap.
    assert (Hne' : kfs' <> []).
    { intros ->. destruct kfs; [congruence | discriminate]. }
    rewrite (reframe_ops_keyframes clip' kfs' E' Hne'),
            (reframe_ops_keyframes clip kfs E Hne).
    now rewrite (average_x_only_x kfs kfs' Hmap).
Qed.

(** Two keyframes at [x = 0.25] and [x = 0.75] with different scales, on
    a 16:9 source scaled to 3840x2160: the window is centred. *)
Lemma reframe_crop_window_witness :
  exists X Y tail,
    ops (vFilter 0 (Samples.reframed [Samples.keyframe 0 (1#4) (1#2) 1;
                                      Samples.keyframe 2 (3#4) (1#3) 2]))
    = Trim 0 (5 - 0) :: Setpts :: ScaleCover 1080 1920 :: Crop 1080 1920 X Y :: tail
    /\ eval 3840 2160 X + 1080 / 2 == (1#2) * 3840.
Proof.
  destruct (reframe_crop_window 0
              (Samples.reframed [Samples.keyframe 0 (1#4) (1#2) 1;
                                 Samples.keyframe 2 (3#4) (1#3) 2])
              [Samples.keyframe 0 (1#4) (1#2) 1; Samples.keyframe 2 (3#4) (1#3) 2])
    as (X & Y & tail & Hops & _ & Hc & _).
  - reflexivity.
  - discriminate.
  - exists X, Y, tail. split; [exact Hops|].
    rewrite (Hc 3840 2160); [reflexivity | vm_compute; discriminate | vm_compute; discriminate].
Defined.

(** C7, as stated, fails: a single keyframe at [x = 0] on a 1920x1080
    source asks for a window centred on the left border; the crop is
    clamped to the left edge and its centre lies 540 pixels in. *)
Lemma reframe_centre_counterexample :
  let kfs := [Samples.keyframe 0 0 (1#2) 1] in
  let iw := fst (scaled_to_cover 1080 1920 1920 1080) in
  let ih := snd (scaled_to_cover 1080 1920 1920 1080) in
  reframe_ops (Samples.reframed kfs)
  = [ScaleCover 1080 1920;
     Crop 1080 1920 (cropXExpr 1080 (average_x kfs)) (cropYExpr 1920)]
  /\ eval iw ih (cropXExpr 1080 (average_x kfs)) == 0
  /\ ~ eval iw ih (cropXExpr 1080 (average_x kfs)) + 1080 / 2
       == mean (map kf_x kfs) * iw.
Proof.
  split; [reflexivity|]. split; vm_compute; congruence.
Qed.

(** C9: for a reframed clip the crop follows the scale-to-cover step,
    and on the frame that step produces from any source the horizontal
    crop offset lies in [[0, iw - 1080]], whatever the keyframes' [x]:
    the 1080 pixel window stays inside the frame. *)
Theorem crop_offset_clamped (clip : Clip) (kfs : list ReframeKeyframe) (w h : Q) :
  reframeKeyframes clip = Some kfs -> kfs <> [] -> 0 < w -> 0 < h ->
  let X := cropXExpr 1080 (average_x kfs) in
  let iw := fst (scaled_to_cover 1080 1920 w h) in
  let ih := snd (scaled_to_cover 1080 1920 w h) in
  reframe_ops clip = [ScaleCover 1080 1920; Crop 1080 1920 X (cropYExpr 1920)]
  /\ eval iw ih X = Qmax 0 (Qmin (iw - 1080) (average_x kfs * iw - 1080 / 2))
  /\ 0 <= eval iw ih X
  /\ eval iw ih X <= iw - 1080
  /\ eval iw ih X + 1080 <= iw
  /\ (forall avgX, 0 <= eval iw ih (cropXExpr 1080 avgX)
                   /\ eval iw ih (cropXExpr 1080 avgX) <= iw - 1080).
Proof.
  intros E Hne Hw Hh X iw ih.
  split; [exact (reframe_ops_keyframes clip kfs E Hne)|].
  split; [reflexivity|].
  assert (Hiw : 0 <= iw - 1080).
  { pose proof (scaled_width_covers w h Hw Hh). fold iw in H. lra. }
  subst X. rewrite eval_cropXExpr.
  destruct (clamp_range 0 (iw - 1080) (average_x kfs * iw - 1080 / 2) Hiw) as [Hlo Hhi].
  split; [exact Hlo|]. split; [exact Hhi|]. split; [lra|].
  intros avgX. rewrite eval_cropXExpr. now apply clamp_range.
Qed.

(** Keyframes far outside [[0, 1]] on a 1920x1080 source: the offset is
    clamped to the right edge. *)
Lemma crop_offset_clamped_witness :
  let X := cropXExpr 1080 (average_x [Samples.keyframe 0 7 0 1]) in
  let iw := fst (scaled_to_cover 1080 1920 1920 1080) in
  let ih := snd (scaled_to_cover 1080 1920 1920 1080) in
  0 <= eval iw ih X /\ eval iw ih X <= iw - 1080.
Proof.
  intros X iw ih.
  destruct (crop_offset_clamped (Samples.reframed [Samples.keyframe 0 7 0 1])
              [Samples.keyframe 0 7 0 1] 1920 1080)
    as (_ & _ & Hlo & Hhi & _).
  - reflexivity.
  - discriminate.
  - reflexivity.
  - reflexivity.
  - split; [exact Hlo | exact Hhi].
Defined.

(** *** Determinism *)

Lemma prepare_inputs_ext (env1 env2 : Env) (v : Q) (cs : list Clip) (i : nat)
    (d : list InputData) (g : list entry) :
  (forall clip, clip ∈ cs -> getVideoPath env1 clip = getVideoPath env2 clip) ->
  prepare_inputs env1 v i cs d g = prepare_inputs env2 v i cs d g.
Proof.
  revert i d g. induction cs as [|clip cs IH]; intros i d g H; [reflexivity|].
  cbn [prepare_inputs]. rewrite (H clip) by apply list_elem_of_here.
  destruct (getVideoPath env2 clip) as [p|]; [|reflexivity].
  destruct (nonempty p); [|reflexivity].
  apply IH. intros c Hc. apply H. now apply list_elem_of_further.
Qed.

Lemma music_clip_ext (env1 env2 : Env) (track : Track) (st : mix_state) (clip : Clip) :
  find_upload env1 clip = find_upload env2 clip ->
  music_clip env1 track st clip = music_clip env2 track st clip.
Proof. intros H. unfold music_clip. now rewrite H. Qed.

Lemma music_clips_ext (env1 env2 : Env) (track : Track) (cs : list Clip) (st : mix_state) :
  (forall clip, clip ∈ cs -> find_upload env1 clip = find_upload env2 clip) ->
  fold_left (music_clip env1 track) cs st = fold_left (music_clip env2 track) cs st.
Proof.
  revert st. induction cs as [|clip cs IH]; intros st H; [reflexivity|].
  cbn [fold_left]. rewrite (music_clip_ext env1 env2) by (apply H, list_elem_of_here).
  apply IH. intros c Hc. apply H. now apply list_elem_of_further.
Qed.

Lemma music_tracks_ext (env1 env2 : Env) (tracks : list Track) (st : mix_state) :
  (forall track clip, track ∈ tracks -> clip ∈ clips track ->
     find_upload env1 clip = find_upload env2 clip) ->
  music_tracks env1 tracks st = music_tracks env2 tracks st.
Proof.
  unfold music_tracks. revert st.
  induction tracks as [|track tracks IH]; intros st H; [reflexivity|].
  cbn [fold_left]. rewrite (music_clips_ext env1 env2 track (clips track) st).
  - apply IH. intros t c Ht. apply H. now apply list_elem_of_further.
  - intros c Hc. apply (H track c); [apply list_elem_of_here | exact Hc].
Qed.

(** C8: the compiled result, and with it the list of filter strings for
    any printing of numbers, is a function of the timeline and of the
    media files its clips resolve to: two requests that resolve every
    clip alike compile to the same graph, whatever their export ids,
    registries and other uploads. *)
Theorem compile_deterministic (env1 env2 : Env) (tl : Timeline) :
  same_media env1 env2 tl ->
  compile env1 tl = compile env2 tl
  /\ forall num_to_string to_fixed,
       complexFilter num_to_string to_fixed env1 tl
       = complexFilter num_to_string to_fixed env2 tl.
Proof.
  intros [Hv Ha].
  assert (H : compile env1 tl = compile env2 tl).
  { unfold compile.
    destruct (negb (is_solo (layout tl)) || negb (length (videoTracks tl) =? 1)%nat);
      [reflexivity|].
    destruct (videoTracks tl) as [|track tracks] eqn:Ev; [reflexivity|].
    destruct (clips track) as [|clip0 rest] eqn:Ec; [reflexivity|].
    rewrite (prepare_inputs_ext env1 env2).
    - destruct (prepare_inputs env2 _ _ _ _ _) as [e|[inputData g1]]; [reflexivity|].
      now rewrite (music_tracks_ext env1 env2 _ _ Ha).
    - intros c Hc. apply (Hv track c); [apply list_elem_of_here|].
      now rewrite Ec. }
  split; [exact H|].
  intros nts tf. unfold complexFilter. now rewrite H.
Qed.

(** Two requests with different export ids, registries and uploads. *)
Lemma compile_deterministic_witness :
  complexFilter Samples.show Samples.fixed (Samples.request "1700000000001")
    (Samples.solo Samples.two_fives [Samples.music])
  = complexFilter Samples.show Samples.fixed (Samples.later_request "1700000000002")
      (Samples.solo Samples.two_fives [Samples.music])
  /\ jobTempDir (Samples.request "1700000000001")
     <> jobTempDir (Samples.later_request "1700000000002").
Proof.
  split; [|discriminate].
  refine (proj2 (compile_deterministic (Samples.request "1700000000001")
                   (Samples.later_request "1700000000002")
                   (Samples.solo Samples.two_fives [Samples.music]) _) _ _).
  split; intros track c Ht Hc.
  - apply list_elem_of_In in Ht. destruct Ht as [<-|[]].
    apply list_elem_of_In in Hc. destruct Hc as [<-|[<-|[]]]; reflexivity.
  - apply list_elem_of_In in Ht. destruct Ht as [<-|[]].
    apply list_elem_of_In in Hc. destruct Hc as [<-|[]]. reflexivity.
Defined.

(** *** The registry *)

Lemma process_video_init_untyped (jobId outputPath inputPath filename : string)
    (jobs : gmap string job) :
  untyped_at jobId (process_video_init jobId outputPath inputPath filename jobs).
Proof.
  unfold untyped_at, process_video_init. eexists. split; [apply lookup_insert_eq|].
  reflexivity.
Qed.

(** Writing a job of the same [type] back keeps an untyped job untyped. *)
Lemma insert_untyped (id id' : string) (j j' : job) (jobs : gmap string job) :
  jobs !! id' = Some j -> job_type j' = job_type j ->
  untyped_at id jobs -> untyped_at id (<[id' := j']> jobs).
Proof.
  intros Hj Ht (k & Hk & Hn). unfold untyped_at.
  destruct (decide (id' = id)) as [->|Hne].
  - exists j'. rewrite lookup_insert_eq. split; [reflexivity|].
    rewrite Ht. congruence.
  - exists k. rewrite lookup_insert_ne by exact Hne. auto.
Qed.

(** No handler adds a [type] field. *)
Lemma handle_untyped (id : string) (e : event) (jobs : gmap string job) :
  untyped_at id jobs -> untyped_at id (handle e jobs).
Proof.
  intros H. destruct e as [id' d tm|id'|id' msg|id' p|id'|id' msg]; cbn [handle].
  - unfold process_video_on_progress.
    destruct (jobs !! id') as [j|] eqn:E; [|exact H].
    destruct (negb _ && negb _); [|exact H].
    destruct tm as [t|]; [|exact H].
    now apply (insert_untyped id id' j).
  - unfold process_video_on_end.
    destruct (jobs !! id') as [j|] eqn:E; [|exact H].
    now apply (insert_untyped id id' j).
  - unfold process_video_on_error.
    destruct (jobs !! id') as [j|] eqn:E; [|exact H].
    now apply (insert_untyped id id' j).
  - unfold export_on_progress.
    destruct (jobs !! id') as [j|] eqn:E; [|exact H].
    now apply (insert_untyped id id' j).
  - unfold export_on_complete.
    destruct (jobs !! id') as [j|] eqn:E; [|exact H].
    now apply (insert_untyped id id' j).
  - unfold export_on_fail.
    destruct (jobs !! id') as [j|] eqn:E; [|exact H].
    now apply (insert_untyped id id' j).
Qed.

Lemma run_untyped (id : string) (es : list event) (jobs : gmap string job) :
  untyped_at id jobs -> untyped_at id (run es jobs).
Proof.
  unfold run. revert jobs. induction es as [|e es IH]; intros jobs H; [exact H|].
  cbn [fold_left]. apply IH. now apply handle_untyped.
Qed.

(** Once the stream is ended, later updates send nothing. *)
Lemma sendUpdate_ended (exportId : string) (jobs : gmap string job) (r : response) :
  ended r = true -> export_progress_sendUpdate exportId jobs r = r.
Proof.
  intros He. unfold export_progress_sendUpdate, res_write, res_end. rewrite He.
  destruct r as [w e]. cbn in He. subst e.
  destruct (not_export (jobs !! exportId)); [reflexivity|].
  destruct (jobs !! exportId) as [j|]; [|reflexivity].
  cbn. destruct (terminal j); reflexivity.
Qed.

Lemma ticks_ended (exportId : string) (ticks : list (gmap string job)) (r : response) :
  ended r = true ->
  fold_left (fun r jobs => export_progress_sendUpdate exportId jobs r) ticks r = r.
Proof.
  intros He. induction ticks as [|jobs ticks IH]; [reflexivity|].
  cbn [fold_left]. now rewrite sendUpdate_ended.
Qed.

(** C10: a job created by [POST /process-video] stays in the registry
    without a [type] field whatever the handlers do to it, and the
    export progress stream asked for its id writes the single event
    ['Export not found'] and ends, the later timer ticks adding
    nothing. *)
Theorem export_progress_rejects_process_video_job
    (jobs : gmap string job) (jobId outputPath inputPath filename : string)
    (es : list event) (ticks : list (gmap string job)) :
  let now := run es (process_video_init jobId outputPath inputPath filename jobs) in
  is_Some (now !! jobId)
  /\ export_progress_stream jobId now ticks
     = Response [SseError "Export not found"] true.
Proof.
  intros now.
  destruct (run_untyped jobId es _
              (process_video_init_untyped jobId outputPath inputPath filename jobs))
    as (j & Hj & Ht).
  fold now in Hj. split; [rewrite Hj; eauto|].
  unfold export_progress_stream.
  assert (H1 : export_progress_sendUpdate jobId now (Response [] false)
               = Response [SseError "Export not found"] true).
  { unfold export_progress_sendUpdate, not_export. rewrite Hj, Ht. reflexivity. }
  rewrite H1. now apply ticks_ended.
Qed.

(** The same id asked on [GET /progress/:jobId] is served. *)
Lemma progress_serves_process_video_job
    (jobs : gmap string job) (jobId outputPath inputPath filename : string) :
  progress_sendUpdate jobId
    (process_video_init jobId outputPath inputPath filename jobs) (Response [] false)
  = Response [SseStatus Processing 0] false.
Proof.
  unfold progress_sendUpdate, process_video_init. rewrite lookup_insert_eq. reflexivity.
Qed.

(** [Math.max(0, Math.min(99, p))] is [NaN] for [NaN] and a number
    between 0 and 99 for every other [p]. *)
Lemma clamp_percent (p : number) :
  (p = NaN /\ Math_max 0 (Math_min 99 p) = NaN)
  \/ exists q, Math_max 0 (Math_min 99 p) = Num q /\ 0 <= q /\ q <= 99.
Proof.
  destruct p as [q| | | |]; [| | | |left; auto]; right.
  - cbn [Math_min Math_max num_before].
    destruct (Qltb q 99) eqn:E1.
    + cbn [Math_max num_before]. destruct (Qltb 0 q) eqn:E2.
      * exists q. apply Qltb_lt in E1, E2. split; [reflexivity|]. split; lra.
      * exists 0. split; [reflexivity|]. split; lra.
    + exists 99. split; [reflexivity|]. split; lra.
  - exists 0. split; [reflexivity|]. split; lra.
  - exists 99. split; [reflexivity|]. split; lra.
  - exists 0. split; [reflexivity|]. split; lra.
Qed.

(** The clamp of the process-video progress handler. *)
Lemma process_video_percent_range (expectedDuration : number) (t : timemark) :
  process_video_percent expectedDuration t = NaN
  \/ exists q, process_video_percent expectedDuration t = Num q /\ 0 <= q /\ q <= 99.
Proof.
  unfold process_video_percent.
  destruct (clamp_percent
              (num_mul (num_div (timemark_seconds t) expectedDuration) 100))
    as [[_ H]|H]; [left; exact H | right; exact H].
Qed.

(** A progress event of the process-video encoder leaves a finished
    job as it is. *)
Lemma process_video_progress_terminal (jobId : string) (d : number)
    (tm : option timemark)
    (jobs : gmap string job) (j : job) :
  jobs !! jobId = Some j -> terminal j = true ->
  process_video_on_progress jobId d tm jobs = jobs.
Proof.
  intros Hj Ht. unfold process_video_on_progress. rewrite Hj.
  unfold terminal in Ht. destruct (job_status j); cbn in *; congruence.
Qed.

(** While a process-video job is processing, a progress event writes
    [NaN] or a value in [[0, 99]] and keeps the status. *)
Lemma process_video_progress_processing (jobId : string) (d : number) (t : timemark)
    (jobs : gmap string job) (j : job) :
  jobs !! jobId = Some j -> job_status j = Processing ->
  exists j', process_video_on_progress jobId d (Some t) jobs !! jobId = Some j'
             /\ job_status j' = Processing
             /\ (job_progress j' = NaN \/ between 0 99 (job_progress j')).
Proof.
  intros Hj Hs. unfold process_video_on_progress. rewrite Hj, Hs. cbn [negb andb status_eqb].
  eexists. split; [apply lookup_insert_eq|]. cbn [job_status job_progress set_progress].
  split; [exact Hs|].
  destruct (process_video_percent_range d t) as [->|(q & -> & H)]; [left|right]; auto.
Qed.

(** C3 fails on the export path: a progress event reporting 100 percent
    is stored as it is while the job is still processing. *)
Theorem export_progress_unclamped :
  let jobs := export_init "1700000000001" "exports/export.mp4" "export.mp4" ∅ in
  exists j,
    export_on_progress "1700000000001" (Some 100) jobs !! "1700000000001" = Some j
    /\ job_status j = Processing
    /\ job_progress j = 100
    /\ ~ between 0 99 (job_progress j).
Proof.
  eexists. split; [vm_compute; reflexivity|].
  split; [reflexivity|]. split; [reflexivity|]. vm_compute. intros [_ H]. congruence.
Qed.

(** A progress event keeps a processing job processing. *)
Lemma progress_keeps_processing (id : string) (e : event) (jobs : gmap string job)
    (j : job) :
  jobs !! id = Some j -> job_status j = Processing -> is_progress id e = true ->
  exists j', handle e jobs !! id = Some j' /\ job_status j' = Processing.
Proof.
  intros Hj Hs He.
  destruct e as [i d tm|i|i msg|i p|i|i msg]; cbn in He; try discriminate;
    apply String.eqb_eq in He; subst i; cbn [handle].
  - unfold process_video_on_progress. rewrite Hj, Hs. cbn.
    destruct tm as [t|]; [|eauto].
    eexists. split; [apply lookup_insert_eq | exact Hs].
  - unfold export_on_progress. rewrite Hj.
    eexists. split; [apply lookup_insert_eq | exact Hs].
Qed.

(** A completion or failure event writes its status, and 100 percent
    with ['done']. *)
Lemma outcome_written (id : string) (e : event) (s : status) (jobs : gmap string job)
    (j : job) :
  jobs !! id = Some j -> outcome id e = Some s ->
  exists j', handle e jobs !! id = Some j' /\ job_status j' = s
             /\ (s = Done -> job_progress j' = 100).
Proof.
  intros Hj Ho.
  destruct e as [i d tm|i|i msg|i p|i|i msg]; cbn in Ho; try discriminate;
    destruct (String.eqb_spec i id) as [->|]; try discriminate;
    injection Ho as <-; cbn [handle].
  - unfold process_video_on_end. rewrite Hj.
    eexists. split; [apply lookup_insert_eq|]. split; reflexivity.
  - unfold process_video_on_error. rewrite Hj.
    eexists. split; [apply lookup_insert_eq|]. split; [reflexivity | discriminate].
  - unfold export_on_complete. rewrite Hj.
    eexists. split; [apply lookup_insert_eq|]. split; reflexivity.
  - unfold export_on_fail. rewrite Hj.
    eexists. split; [apply lookup_insert_eq|]. split; [reflexivity | discriminate].
Qed.

(** No handler moves a job back to ['processing']. *)
Lemma handle_never_restarts (id : string) (e : event) (jobs : gmap string job)
    (j1 j2 : job) :
  jobs !! id = Some j1 -> handle e jobs !! id = Some j2 ->
  job_status j2 = Processing -> job_status j1 = Processing.
Proof.
  intros H1 H2 Hs.
  assert (G : forall i (j j' : job),
             jobs !! i = Some j -> <[i := j']> jobs !! id = Some j2 ->
             (job_status j' = Processing -> job_status j = Processing) ->
             job_status j1 = Processing).
  { intros i j j' Hi Hl Himp. destruct (decide (i = id)) as [->|Hne].
    - rewrite lookup_insert_eq in Hl. injection Hl as ->.
      rewrite H1 in Hi. injection Hi as ->. auto.
    - rewrite lookup_insert_ne in Hl by exact Hne. congruence. }
  destruct e as [i d tm|i|i msg|i p|i|i msg]; cbn [handle] in H2.
  - unfold process_video_on_progress in H2.
    destruct (jobs !! i) as [j|] eqn:E; [|congruence].
    destruct (negb _ && negb _); [|congruence].
    destruct tm as [t|]; [|congruence].
    apply (G i j _ E H2). auto.
  - unfold process_video_on_end in H2.
    destruct (jobs !! i) as [j|] eqn:E; [|congruence].
    apply (G i j _ E H2). discriminate.
  - unfold process_video_on_error in H2.
    destruct (jobs !! i) as [j|] eqn:E; [|congruence].
    apply (G i j _ E H2). discriminate.
  - unfold export_on_progress in H2.
    destruct (jobs !! i) as [j|] eqn:E; [|congruence].
    apply (G i j _ E H2). auto.
  - unfold export_on_complete in H2.
    destruct (jobs !! i) as [j|] eqn:E; [|congruence].
    apply (G i j _ E H2). discriminate.
  - unfold export_on_fail in H2.
    destruct (jobs !! i) as [j|] eqn:E; [|congruence].
    apply (G i j _ E H2). discriminate.
Qed.

Lemma status_trace_app (id : string) (es1 es2 : list event) (jobs : gmap string job) :
  status_trace id (es1 ++ es2) jobs
  = status_trace id es1 jobs ++ status_trace id es2 (run es1 jobs).
Proof.
  revert jobs. induction es1 as [|e es1 IH]; intros jobs; [reflexivity|].
  cbn [app status_trace]. rewrite IH. reflexivity.
Qed.

(** What holds of the status of one job on one encoder run: no handler
    moves a job back to ['processing']; a
    progress event of the process-video encoder leaves a job in
    ['done'] or ['error'] as it is; and over the events of one encoder
    run, progress events followed by one completion or failure, the
    status of a processing job stays ['processing'] until that last
    event and then makes its single transition, to ['done'] with
    progress 100 or to ['error']. *)
Lemma single_terminal_transition (id : string) (jobs : gmap string job) (j : job)
    (ps : list event) :
  jobs !! id = Some j -> job_status j = Processing ->
  Forall (fun e => is_progress id e = true) ps ->
  status_trace id ps jobs = replicate (length ps) (Some Processing)
  /\ (forall t s, outcome id t = Some s ->
        status_trace id (ps ++ [t]) jobs
        = replicate (length ps) (Some Processing) ++ [Some s]
        /\ exists j', run (ps ++ [t]) jobs !! id = Some j' /\ job_status j' = s
                      /\ (s = Done -> job_progress j' = 100))
  /\ (forall jobs' j' d tm,
        jobs' !! id = Some j' -> terminal j' = true ->
        process_video_on_progress id d tm jobs' = jobs')
  /\ (forall e jobs' j1 j2,
        jobs' !! id = Some j1 -> handle e jobs' !! id = Some j2 ->
        job_status j2 = Processing -> job_status j1 = Processing).
Proof.
  intros Hj Hs Hps.
  assert (G : forall ps jobs j,
             jobs !! id = Some j -> job_status j = Processing ->
             Forall (fun e => is_progress id e = true) ps ->
             status_trace id ps jobs = replicate (length ps) (Some Processing)
             /\ exists j', run ps jobs !! id = Some j' /\ job_status j' = Processing).
  { clear. induction ps as [|e ps IH]; intros jobs j Hj Hs Hps.
    - split; [reflexivity|]. eauto.
    - inversion Hps as [|? ? He Hrest]; subst.
      destruct (progress_keeps_processing id e jobs j Hj Hs He) as (j1 & H1 & Hs1).
      destruct (IH (handle e jobs) j1 H1 Hs1 Hrest) as (Ht & j' & Hr & Hs').
      split.
      + cbn [status_trace length replicate]. rewrite H1, Ht. cbn. now rewrite Hs1.
      + exists j'. split; [exact Hr | exact Hs']. }
  destruct (G ps jobs j Hj Hs Hps) as (Ht & jp & Hr & Hsp).
  split; [exact Ht|]. split; [|split].
  - intros t s Ho.
    destruct (outcome_written id t s (run ps jobs) jp Hr Ho) as (j' & Hl & Hs' & Hp).
    split.
    + rewrite status_trace_app, Ht. cbn [status_trace]. rewrite Hl. cbn.
      now rewrite Hs'.
    + exists j'. unfold run in *. rewrite fold_left_app. cbn [fold_left]. auto.
  - intros jobs' j' d tm. apply process_video_progress_terminal.
  - intros e jobs' j1 j2. apply handle_never_restarts.
Qed.

(** An export job: two progress events, then completion. *)
Lemma single_terminal_transition_witness :
  let id := "1700000000001" in
  let jobs := export_init id "exports/export.mp4" "export.mp4" ∅ in
  status_trace id [ExProgress id (Some 10); ExProgress id None; ExComplete id] jobs
  = [Some Processing; Some Processing; Some Done].
Proof.
  intros id jobs.
  destruct (single_terminal_transition id jobs
              (Job Processing 0 "exports/export.mp4" None "export.mp4" (Some "export") None)
              [ExProgress id (Some 10); ExProgress id None])
    as (_ & H & _).
  - apply lookup_insert_eq.
  - reflexivity.
  - repeat constructor.
  - exact (proj1 (H (ExComplete id) Done eq_refl)).
Defined.

(** *** The rendered strings *)

Lemma append_assoc (s1 s2 s3 : string) : (s1 +:+ s2) +:+ s3 = s1 +:+ (s2 +:+ s3).
Proof.
  induction s1 as [|c s1 IH]; [reflexivity|].
  change (String c ((s1 +:+ s2) +:+ s3) = String c (s1 +:+ (s2 +:+ s3))).
  now rewrite IH.
Qed.

Ltac flatten_strings :=
  repeat first [rewrite append_assoc | progress cbn [String.append]].

(** The crop offset as the source writes it. *)
Lemma render_cropXExpr (num_to_string : Q -> string) (avgX : Q) :
  render_expr num_to_string (cropXExpr 1080 avgX)
  = "max(0\,min(iw-1080\,(" +:+ num_to_string avgX +:+ "*iw)-(1080/2)))".
Proof.
  cbn [render_expr cropXExpr].
  change (pretty 1080%nat) with "1080". change (pretty 0%nat) with "0".
  change (pretty 2%nat) with "2". flatten_strings. reflexivity.
Qed.

(** The cross-fade pair as the source writes it. *)
Lemma render_xfade_entries (num_to_string : Q -> string) (to_fixed : nat -> Q -> string)
    (i : nat) (t : xfade_transition) (d offset : Q) (st : chain_state) :
  render num_to_string to_fixed (xfade_entries i t d offset st)
  = ["[" +:+ lastV st +:+ "][v" +:+ pretty (i + 1)%nat +:+ "]xfade=transition="
     +:+ render_xfade t +:+ ":duration=" +:+ num_to_string d +:+ ":offset="
     +:+ num_to_string offset +:+ "[vm" +:+ pretty (i + 1)%nat +:+ "]";
     "[" +:+ lastA st +:+ "][a" +:+ pretty (i + 1)%nat +:+ "]acrossfade=d="
     +:+ num_to_string d +:+ ":c1=tri:c2=tri[am" +:+ pretty (i + 1)%nat +:+ "]"].
Proof.
  unfold render, xfade_entries, render_entry, render_chain.
  cbn [map ins ops out String.concat render_op]. flatten_strings. reflexivity.
Qed.

(** The hard-cut pair as the source writes it. *)
Lemma render_concat_entries (num_to_string : Q -> string) (to_fixed : nat -> Q -> string)
    (i : nat) (st : chain_state) :
  render num_to_string to_fixed (concat_entries i st)
  = ["[" +:+ lastV st +:+ "][v" +:+ pretty (i + 1)%nat +:+ "]concat=n=2:v=1:a=0[vm"
     +:+ pretty (i + 1)%nat +:+ "]";
     "[" +:+ lastA st +:+ "][a" +:+ pretty (i + 1)%nat +:+ "]concat=n=2:v=0:a=1[am"
     +:+ pretty (i + 1)%nat +:+ "]"].
Proof.
  unfold render, concat_entries, render_entry, render_chain.
  cbn [map ins ops out String.concat render_op]. flatten_strings. reflexivity.
Qed.

(** The filter strings of the two five-second clips with a two-second
    cross-dissolve and one music clip. *)
Example render_two_fives :
  complexFilter Samples.show Samples.fixed
    (Samples.request "1700000000001")
    (Samples.solo Samples.two_fives [Samples.music])
  = inr
    ["[0:v]trim=start=0:duration=5,setpts=PTS-STARTPTS,scale=1080:1920:force_original_aspect_ratio=increase,crop=1080:1920:(iw-1080)/2:(ih-1920)/2,setsar=1,fps=30,format=yuv420p[v0]";
     "[0:a]atrim=start=0:duration=5,asetpts=PTS-STARTPTS,aresample=48000,volume=1[a0]";
     "[1:v]trim=start=0:duration=5,setpts=PTS-STARTPTS,scale=1080:1920:force_original_aspect_ratio=increase,crop=1080:1920:(iw-1080)/2:(ih-1920)/2,setsar=1,fps=30,format=yuv420p[v1]";
     "[1:a]atrim=start=0:duration=5,asetpts=PTS-STARTPTS,aresample=48000,volume=1[a1]";
     "[v0][v1]xfade=transition=fade:duration=2:offset=3[vm1]";
     "[a0][a1]acrossfade=d=2:c1=tri:c2=tri[am1]";
     "[vm1]null[v_final]";
     "[am1]aresample=48000[a_final]";
     "[2:a]atrim=start=0:duration=3[a2_trim]";
     "[a2_trim]adelay=0|0[a2_delay]";
     "[a2_delay]volume=1[a2_vol]";
     "[a2_vol]aresample=48000[a2_out]";
     "[a_final][a2_out]amix=inputs=2:duration=first:dropout_transition=2[a_mixed]"].
Proof. vm_compute. reflexivity. Qed.

(** The ten-second clip with a one-second fade in and fade out: the
    fade-out starts at [10 - 1]. *)
Example render_faded :
  complexFilter Samples.show Samples.fixed
    (Samples.request "1700000000001") (Samples.solo Samples.faded [])
  = inr
    ["[0:v]trim=start=0:duration=10,setpts=PTS-STARTPTS,scale=1080:1920:force_original_aspect_ratio=increase,crop=1080:1920:(iw-1080)/2:(ih-1920)/2,setsar=1,fps=30,format=yuv420p[v0]";
     "[0:a]atrim=start=0:duration=10,asetpts=PTS-STARTPTS,aresample=48000,volume=1[a0]";
     "[v0]fade=t=in:st=0:d=1:color=black[v0_faded]";
     "[a0]afade=t=in:st=0:d=1[a0_faded]";
     "[v0_faded]fade=t=out:st=9:d=1:color=black[v_final_faded]";
     "[a0_faded]afade=t=out:st=9:d=1[a_final_faded]";
     "[v_final_faded]null[v_final]";
     "[a_final_faded]aresample=48000[a_final]";
     "[a_final]anull[a_mixed]"].
Proof. vm_compute. reflexivity. Qed.

(** In the fallback branch the running streams are not replaced: the
    streams of the hard cut stay unused by what follows. *)
Lemma fallback_keeps_streams (i : nat) (clip nextClip : Clip) (st : chain_state)
    (t : Transition) :
  boundary_transition clip nextClip t ->
  currentChainEnd st < t_duration t ->
  lastV (middle_step i clip nextClip st) = lastV st
  /\ lastA (middle_step i clip nextClip st) = lastA st.
Proof.
  intros Hb Hlt. rewrite (middle_step_fallback i clip nextClip st t Hb Hlt).
  split; reflexivity.
Qed.

(** The two one-second clips with a two-second cross-dissolve: the hard
    cut is pushed, and the final streams are still those of the first
    clip. *)
Example render_two_ones :
  complexFilter Samples.show Samples.fixed
    (Samples.request "1700000000001") (Samples.solo Samples.two_ones [])
  = inr
    ["[0:v]trim=start=0:duration=1,setpts=PTS-STARTPTS,scale=1080:1920:force_original_aspect_ratio=increase,crop=1080:1920:(iw-1080)/2:(ih-1920)/2,setsar=1,fps=30,format=yuv420p[v0]";
     "[0:a]atrim=start=0:duration=1,asetpts=PTS-STARTPTS,aresample=48000,volume=1[a0]";
     "[1:v]trim=start=0:duration=1,setpts=PTS-STARTPTS,scale=1080:1920:force_original_aspect_ratio=increase,crop=1080:1920:(iw-1080)/2:(ih-1920)/2,setsar=1,fps=30,format=yuv420p[v1]";
     "[1:a]atrim=start=0:duration=1,asetpts=PTS-STARTPTS,aresample=48000,volume=1[a1]";
     "[v0][v1]concat=n=2:v=1:a=0[vm1]";
     "[a0][a1]concat=n=2:v=0:a=1[am1]";
     "[v0]null[v_final]";
     "[a0]aresample=48000[a_final]";
     "[a_final]anull[a_mixed]"].
Proof. vm_compute. reflexivity. Qed.

(** ** Further properties of the export compiler *)

Import Endpoints Client Props.

(** A boundary without a transition of positive duration is a hard cut
    that advances the running streams. *)
Lemma middle_step_plain (i : nat) (clip nextClip : Clip) (st : chain_state) :
  with_duration (transitionEnd clip) = None ->
  with_duration (transitionStart nextClip) = None ->
  middle_step i clip nextClip st
  = ChainState ("vm" +:+ pretty (i + 1)%nat) ("am" +:+ pretty (i + 1)%nat)
      (currentChainEnd st + (sourceEnd nextClip - sourceStart nextClip))
      (filterComplex st ++ concat_entries i st).
Proof.
  intros He Hs. unfold middle_step, resolve_transition. rewrite He, Hs. reflexivity.
Qed.

Lemma no_transitions_tail (c : Clip) (cs : list Clip) :
  no_transitions (c :: cs) -> no_transitions cs.
Proof. intros H x Hx. apply H. now apply list_elem_of_further. Qed.

Lemma middle_transitions_plain (cs : list Clip) (k : nat) (st : chain_state) :
  no_transitions cs ->
  currentChainEnd (middle_transitions k cs st)
  == currentChainEnd st + total_duration (tail cs)
  /\ exists added,
       filterComplex (middle_transitions k cs st) = filterComplex st ++ added
       /\ length added = (2 * (length cs - 1))%nat
       /\ Forall (fun ch => ops ch = [ConcatV] \/ ops ch = [ConcatA]) (chains added).
Proof.
  revert k st. induction cs as [|c0 cs IH]; intros k st Hn.
  - cbn. split; [ring|]. exists []. rewrite app_nil_r. repeat split. constructor.
  - destruct cs as [|c1 cs].
    + cbn. split; [ring|]. exists []. rewrite app_nil_r. repeat split. constructor.
    + rewrite middle_transitions_cons.
      assert (H0 : with_duration (transitionEnd c0) = None)
        by (apply (Hn c0), list_elem_of_here).
      assert (H1 : with_duration (transitionStart c1) = None)
        by (apply (Hn c1), list_elem_of_further, list_elem_of_here).
      rewrite (middle_step_plain k c0 c1 st H0 H1).
      destruct (IH (S k) (ChainState ("vm" +:+ pretty (k + 1)%nat)
                            ("am" +:+ pretty (k + 1)%nat)
                            (currentChainEnd st + (sourceEnd c1 - sourceStart c1))
                            (filterComplex st ++ concat_entries k st))
                  (no_transitions_tail c0 _ Hn))
        as (He & added & Hf & Hl & Hc).
      split.
      * rewrite He. cbn [currentChainEnd tail total_duration fold_right].
        unfold clip_duration. fold (total_duration cs).
        destruct cs; cbn [tail total_duration fold_right]; ring.
      * exists (concat_entries k st ++ added). cbn [filterComplex] in Hf.
        rewrite Hf, <- app_assoc. split; [reflexivity|]. split.
        -- rewrite length_app, Hl. unfold concat_entries. cbn [length]. lia.
        -- unfold chains in *. rewrite concat_app. apply Forall_app. split; [|exact Hc].
           cbn. constructor; [left; reflexivity|].
           constructor; [right; reflexivity | constructor].
Qed.

Lemma start_transition_plain (clip0 : Clip) (st : chain_state) :
  with_duration (transitionStart clip0) = None -> start_transition clip0 st = st.
Proof. intros H. unfold start_transition. now rewrite H. Qed.

Lemma end_transition_plain (lastClip : Clip) (st : chain_state) :
  with_duration (transitionEnd lastClip) = None -> end_transition lastClip st = st.
Proof. intros H. unfold end_transition. now rewrite H. Qed.

Lemma last_elem_of (c0 : Clip) (rest : list Clip) : List.last rest c0 ∈ c0 :: rest.
Proof.
  revert c0. induction rest as [|c rest IH]; intros c0.
  - apply list_elem_of_here.
  - apply list_elem_of_further.
    change (List.last (c :: rest) c0) with
      (match rest with [] => c | _ => List.last rest c0 end).
    destruct rest as [|c' rest']; [apply list_elem_of_here|].
    specialize (IH c). cbn in *.
    replace (match rest' with [] => c' | _ :: _ => List.last rest' c0 end)
      with (match rest' with [] => c' | _ :: _ => List.last rest' c end);
      [exact IH|].
    clear. revert c'. induction rest' as [|x r IHr]; intros c'; [reflexivity|].
    destruct r; [reflexivity|]. apply (IHr x).
Qed.

(** X1: on a track none of whose clips carries a transition of positive
    duration, the chain builder pushes nothing but one pair of [concat]
    filters per boundary, and the chain end it arrives at is the sum of
    the trimmed lengths of the clips. *)
Theorem chain_end_without_transitions (clip0 : Clip) (rest : list Clip) (g : list entry) :
  no_transitions (clip0 :: rest) ->
  currentChainEnd (build_chain clip0 rest g) == total_duration (clip0 :: rest)
  /\ exists added,
       filterComplex (build_chain clip0 rest g) = g ++ added
       /\ length added = (2 * length rest)%nat
       /\ Forall (fun ch => ops ch = [ConcatV] \/ ops ch = [ConcatA]) (chains added).
Proof.
  intros Hn. unfold build_chain.
  rewrite start_transition_plain by (apply (Hn clip0), list_elem_of_here).
  rewrite end_transition_plain by (apply (Hn _), last_elem_of).
  destruct (middle_transitions_plain (clip0 :: rest) 0
              (ChainState "v0" "a0" (sourceEnd clip0 - sourceStart clip0) g) Hn)
    as (He & added & Hf & Hl & Hc).
  split.
  - rewrite He. cbn. unfold clip_duration. reflexivity.
  - exists added. cbn [filterComplex] in Hf. split; [exact Hf|]. split; [|exact Hc].
    rewrite Hl. cbn [length]. lia.
Qed.

Ltac elem_cases H :=
  repeat (apply elem_of_cons in H as [->|H]); [..|apply elem_of_nil in H; destruct H].

(** Clips of 5, 4 and 3 seconds: chain end 12, four filters pushed. *)
Lemma chain_end_without_transitions_witness :
  currentChainEnd
    (build_chain (Samples.clip "c1" 0 5 None None)
       [Samples.clip "c2" 2 6 None None; Samples.clip "c3" 1 4 None None] [])
  == 12.
Proof.
  destruct (chain_end_without_transitions (Samples.clip "c1" 0 5 None None)
              [Samples.clip "c2" 2 6 None None; Samples.clip "c3" 1 4 None None] [])
    as [He _].
  - intros c Hc. elem_cases Hc; split; reflexivity.
  - rewrite He. reflexivity.
Defined.

(** One boundary keeps the chain end between the length of the clip it
    joins and the old chain end plus that length. *)
Lemma middle_step_bounds (i : nat) (clip nextClip : Clip) (st : chain_state) :
  0 <= currentChainEnd st ->
  clip_duration nextClip <= currentChainEnd (middle_step i clip nextClip st)
  /\ currentChainEnd (middle_step i clip nextClip st)
     <= currentChainEnd st + clip_duration nextClip.
Proof.
  intros H0. unfold middle_step, clip_duration.
  destruct (resolve_transition clip nextClip) as [ty d] eqn:Er.
  destruct (Qgtb d 0 && not_none ty) eqn:Eb.
  - apply andb_true_iff in Eb as [Hd _]. apply Qgtb_gt in Hd.
    destruct (Qltb (currentChainEnd st - d) 0) eqn:Eo; cbn [currentChainEnd].
    + split; lra.
    + apply Qltb_ge in Eo. split; lra.
  - cbn [currentChainEnd]. split; lra.
Qed.

Lemma middle_transitions_bounds (cs : list Clip) (k : nat) (st : chain_state) :
  (forall c, c ∈ cs -> 0 <= clip_duration c) ->
  clip_duration (List.hd (Samples.clip "" 0 0 None None) cs) <= currentChainEnd st ->
  0 <= currentChainEnd st ->
  clip_duration (List.last cs (Samples.clip "" 0 0 None None))
  <= currentChainEnd (middle_transitions k cs st)
  /\ currentChainEnd (middle_transitions k cs st)
     <= currentChainEnd st + total_duration (tail cs).
Proof.
  revert k st. induction cs as [|c0 cs IH]; intros k st Hd Hh H0.
  - split.
    + change (0 - 0 <= currentChainEnd st). lra.
    + change (currentChainEnd st <= currentChainEnd st + 0). lra.
  - destruct cs as [|c1 cs].
    + split.
      * exact Hh.
      * change (currentChainEnd st <= currentChainEnd st + 0). lra.
    + rewrite middle_transitions_cons.
      destruct (middle_step_bounds k c0 c1 st H0) as [Hlo Hhi].
      assert (Hd1 : 0 <= clip_duration c1)
        by (apply Hd, list_elem_of_further, list_elem_of_here).
      destruct (IH (S k) (middle_step k c0 c1 st)) as [Hl Hu].
      * intros c Hc. apply Hd. now apply list_elem_of_further.
      * exact Hlo.
      * lra.
      * split.
        -- exact Hl.
        -- cbn [tail total_duration fold_right] in *.
           destruct cs; cbn [tail total_duration fold_right] in *; lra.
Qed.

Lemma start_transition_chain_end (clip0 : Clip) (st : chain_state) :
  currentChainEnd (start_transition clip0 st) = currentChainEnd st.
Proof. unfold start_transition. destruct (with_duration _); reflexivity. Qed.

Lemma end_transition_chain_end (lastClip : Clip) (st : chain_state) :
  currentChainEnd (end_transition lastClip st) = currentChainEnd st.
Proof.
  unfold end_transition. destruct (with_duration _); [|reflexivity].
  destruct (Qgtb _ 0); reflexivity.
Qed.

Lemma last_default (c d d' : Clip) (cs : list Clip) :
  List.last (c :: cs) d = List.last (c :: cs) d'.
Proof.
  revert c. induction cs as [|x cs IH]; intros c; [reflexivity|].
  change (List.last (c :: x :: cs) d) with (List.last (x :: cs) d).
  change (List.last (c :: x :: cs) d') with (List.last (x :: cs) d').
  apply IH.
Qed.

(** X2: when no clip of the track has a negative trimmed length, the
    chain end the builder arrives at (fades included) is at least the
    length of the last clip and at most the sum of the lengths of all
    clips: transitions only ever shorten the chain. *)
Theorem chain_end_bounds (clip0 : Clip) (rest : list Clip) (g : list entry) :
  (forall c, c ∈ clip0 :: rest -> sourceStart c <= sourceEnd c) ->
  clip_duration (List.last rest clip0) <= currentChainEnd (build_chain clip0 rest g)
  /\ currentChainEnd (build_chain clip0 rest g) <= total_duration (clip0 :: rest).
Proof.
  intros Hd. unfold build_chain.
  rewrite end_transition_chain_end.
  assert (Hd' : forall c, c ∈ clip0 :: rest -> 0 <= clip_duration c).
  { intros c Hc. specialize (Hd c Hc). unfold clip_duration. lra. }
  pose proof (Hd' clip0 (list_elem_of_here _ _)) as H0.
  destruct (middle_transitions_bounds (clip0 :: rest) 0
              (start_transition clip0
                 (ChainState "v0" "a0" (sourceEnd clip0 - sourceStart clip0) g)) Hd')
    as [Hl Hu].
  - rewrite start_transition_chain_end. cbn. unfold clip_duration. lra.
  - rewrite start_transition_chain_end. cbn. unfold clip_duration in H0. exact H0.
  - rewrite start_transition_chain_end in Hu. cbn [currentChainEnd tail] in Hu.
    split.
    + destruct rest as [|c1 rest'].
      * cbn in *. exact Hl.
      * change (List.last (clip0 :: c1 :: rest') (Samples.clip "" 0 0 None None))
          with (List.last (c1 :: rest') (Samples.clip "" 0 0 None None)) in Hl.
        now rewrite (last_default c1 clip0 (Samples.clip "" 0 0 None None) rest').
    + cbn [total_duration fold_right]. fold (total_duration rest).
      unfold clip_duration at 1. lra.
Qed.

(** Dissolves of two and one second between clips of 5, 4 and 3
    seconds: the chain end lies between 3 and 12. *)
Lemma chain_end_bounds_witness :
  let st := build_chain (Samples.clip "c1" 0 5 None (Some (Samples.dissolve 2)))
              [Samples.clip "c2" 2 6 None None;
               Samples.clip "c3" 1 4 (Some (Samples.dissolve 1)) None] [] in
  4 - 1 <= currentChainEnd st /\ currentChainEnd st <= 12.
Proof.
  intros st.
  destruct (chain_end_bounds (Samples.clip "c1" 0 5 None (Some (Samples.dissolve 2)))
              [Samples.clip "c2" 2 6 None None;
               Samples.clip "c3" 1 4 (Some (Samples.dissolve 1)) None] [])
    as [Hl Hu].
  - intros c Hc. elem_cases Hc; discriminate.
  - split; [exact Hl|]. fold st in Hu. revert Hu. generalize (currentChainEnd st).
    intros q Hq. apply (Qle_trans _ _ _ Hq). vm_compute. discriminate.
Defined.

(** *** Step 1, clip by clip *)

(** A successful run of the loop of step 1 resolved every clip, and
    pushed for the clip at position [j] its input and its two filters,
    numbered [i + j]. *)
Lemma prepare_inputs_inr (env : Env) (v : Q) (cs : list Clip) (i : nat)
    (d : list InputData) (g : list entry) (d' : list InputData) (g' : list entry) :
  prepare_inputs env v i cs d g = inr (d', g') ->
  length d' = (length d + length cs)%nat
  /\ length g' = (length g + 2 * length cs)%nat
  /\ (forall j x, d !! j = Some x -> d' !! j = Some x)
  /\ (forall j x, g !! j = Some x -> g' !! j = Some x)
  /\ forall j clip, cs !! j = Some clip ->
       exists path,
         getVideoPath env clip = Some path /\ nonempty path = true
         /\ d' !! (length d + j)%nat = Some (input_data path clip)
         /\ g' !! (length g + 2 * j)%nat = Some [vFilter (i + j) clip]
         /\ g' !! (length g + 2 * j + 1)%nat
            = Some (aFilter (i + j) (isImagePath path) v clip).
Proof.
  revert i d g. induction cs as [|c cs IH]; intros i d g H.
  - cbn in H. injection H as <- <-. cbn [length]. rewrite !Nat.add_0_r.
    repeat split; auto. intros j clip Hj. discriminate.
  - cbn [prepare_inputs] in H.
    destruct (getVideoPath env c) as [p|] eqn:Ep; [|discriminate].
    destruct (nonempty p) eqn:En; [|discriminate].
    apply IH in H as (Hld & Hlg & Hd & Hg & Hall).
    rewrite length_app in Hld, Hlg. cbn [length] in Hld, Hlg.
    split; [cbn [length]; lia|]. split; [cbn [length]; lia|].
    split; [|split].
    + intros j x Hj. apply Hd. rewrite lookup_app_l; [exact Hj|].
      now apply lookup_lt_Some in Hj.
    + intros j x Hj. apply Hg. rewrite lookup_app_l; [exact Hj|].
      now apply lookup_lt_Some in Hj.
    + intros [|j] clip Hj.
      * cbn in Hj. injection Hj as <-. exists p. split; [exact Ep|]. split; [exact En|].
        replace (i + 0)%nat with i by lia.
        replace (length d + 0)%nat with (length d) by lia.
        replace (length g + 2 * 0 + 1)%nat with (length g + 1)%nat by lia.
        replace (length g + 2 * 0)%nat with (length g) by lia.
        split; [|split].
        -- apply Hd. rewrite lookup_app_r by lia. now rewrite Nat.sub_diag.
        -- apply Hg. rewrite lookup_app_r by lia. now rewrite Nat.sub_diag.
        -- apply Hg. rewrite lookup_app_r by lia.
           now replace (length g + 1 - length g)%nat with 1%nat by lia.
      * cbn in Hj. destruct (Hall j clip Hj) as (path & Hp & Hn & H1 & H2 & H3).
        exists path. split; [exact Hp|]. split; [exact Hn|].
        rewrite length_app in H1, H2, H3. cbn [length] in H1, H2, H3.
        replace (i + S j)%nat with (S i + j)%nat by lia.
        replace (length d + S j)%nat with (length d + 1 + j)%nat by lia.
        replace (length g + 2 * S j)%nat with (length g + 2 + 2 * j)%nat by lia.
        auto.
Qed.

(** The loop of step 1 stops at the first clip without a media file. *)
Lemma prepare_inputs_find (env : Env) (v : Q) (cs : list Clip) (i : nat)
    (d : list InputData) (g : list entry) :
  match List.find (unresolved env) cs with
  | Some x =>
      prepare_inputs env v i cs d g
      = inl ("Video file not found for clip " +:+ clip_id x)
  | None => exists d' g', prepare_inputs env v i cs d g = inr (d', g')
  end.
Proof.
  revert i d g. induction cs as [|c cs IH]; intros i d g.
  - cbn. eauto.
  - cbn [List.find prepare_inputs]. unfold unresolved at 1.
    destruct (getVideoPath env c) as [p|]; [|reflexivity].
    destruct (nonempty p); cbn [negb]; [apply IH | reflexivity].
Qed.

(** X3: an export compiles exactly when the layout is solo, there is
    one video track, it has a clip, and every one of its clips has a
    media file; otherwise the thrown message names the layout, the
    empty track, or the first clip (in track order) whose file is
    missing.  The audio tracks play no part in it. *)
Theorem compile_outcome (env : Env) (tl : Timeline) :
  match videoTracks tl with
  | [track] =>
      if is_solo (layout tl) then
        match clips track with
        | [] => compile env tl = inl "No clips to export"
        | _ :: _ =>
            match List.find (unresolved env) (clips track) with
            | Some x =>
                compile env tl
                = inl ("Video file not found for clip " +:+ clip_id x)
            | None => exists c, compile env tl = inr c
            end
        end
      else compile env tl
           = inl "Phase 1 only supports solo layout with one video track"
  | _ => compile env tl
         = inl "Phase 1 only supports solo layout with one video track"
  end.
Proof.
  unfold compile.
  destruct (videoTracks tl) as [|track [|t2 ts]]; cbn [length Nat.eqb negb orb].
  - now rewrite orb_true_r.
  - rewrite orb_false_r. destruct (is_solo (layout tl)); [|reflexivity]. cbn [negb].
    destruct (clips track) as [|clip0 rest] eqn:Ec; [reflexivity|].
    pose proof (prepare_inputs_find env (or_1 (track_volume track)) (clip0 :: rest) 0 [] [])
      as H.
    destruct (List.find (unresolved env) (clip0 :: rest)) as [x|].
    + now rewrite H.
    + destruct H as (d' & g' & ->). eauto.
  - now rewrite orb_true_r.
Qed.

Lemma build_chain_extends (clip0 : Clip) (rest : list Clip) (g : list entry) :
  exists added, filterComplex (build_chain clip0 rest g) = g ++ added.
Proof.
  unfold build_chain.
  set (st0 := ChainState "v0" "a0" _ g).
  assert (H1 : exists a, filterComplex (start_transition clip0 st0) = g ++ a).
  { unfold start_transition. destruct (with_duration _); cbn [filterComplex st0]; [eauto|].
    exists []. now rewrite app_nil_r. }
  destruct H1 as [a1 H1].
  destruct (middle_transitions_extends (clip0 :: rest) 0 (start_transition clip0 st0))
    as [a2 H2].
  unfold end_transition. destruct (with_duration _).
  - destruct (Qgtb _ 0); cbn [filterComplex]; rewrite H2, H1.
    + eexists. rewrite <- !app_assoc. reflexivity.
    + eexists. rewrite <- app_assoc. reflexivity.
  - rewrite H2, H1. eexists. rewrite <- app_assoc. reflexivity.
Qed.

Lemma music_clips_paths (env : Env) (track : Track) (cs : list Clip) (st : mix_state) :
  inputs (fold_left (music_clip env track) cs st)
  = inputs st ++ omap (find_upload env) cs.
Proof.
  revert st. induction cs as [|clip cs IH]; intros st.
  - cbn. now rewrite app_nil_r.
  - cbn [fold_left]. rewrite IH.
    change (omap (find_upload env) (clip :: cs))
      with (match find_upload env clip with
            | Some p => p :: omap (find_upload env) cs
            | None => omap (find_upload env) cs
            end).
    unfold music_clip.
    destruct (find_upload env clip) as [p|]; cbn [inputs]; [|reflexivity].
    now rewrite <- app_assoc.
Qed.

Lemma music_tracks_paths (env : Env) (tracks : list Track) (st : mix_state) :
  inputs (music_tracks env tracks st)
  = inputs st ++ omap (find_upload env) (concat (map clips tracks)).
Proof.
  unfold music_tracks. revert st. induction tracks as [|track tracks IH]; intros st.
  - cbn. now rewrite app_nil_r.
  - cbn [fold_left map concat]. rewrite IH, music_clips_paths, omap_app.
    now rewrite app_assoc.
Qed.

(** X4: in a compiled export the encoder's inputs follow the clips: the
    input at position [j] is the media file of the clip at position [j]
    of the video track (looped for [duration + 0.5] seconds when it is
    a still image), the filters at positions [2j] and [2j + 1] are that
    clip's video and audio chains, which read pad [j]; after the video
    inputs come the files of the resolved music clips, in track
    order. *)
Theorem inputs_follow_clips (env : Env) (tl : Timeline) (c : compiled) (track : Track) :
  compile env tl = inr c -> videoTracks tl = [track] ->
  (forall j clip, clips track !! j = Some clip ->
     exists path,
       getVideoPath env clip = Some path
       /\ command_inputs c !! j
          = Some (path, if isImagePath path
                        then [Loop1; Seconds (clip_duration clip + (1#2))] else [])
       /\ c_filterComplex c !! (2 * j)%nat = Some [vFilter j clip]
       /\ c_filterComplex c !! (2 * j + 1)%nat
          = Some (aFilter j (isImagePath path) (or_1 (track_volume track)) clip)
       /\ ins (vFilter j clip) = [pretty j +:+ ":v"])
  /\ command_inputs c
     = map (fun data =>
              (in_path data,
               if in_isImage data then [Loop1; Seconds (in_duration data + (1#2))]
               else [])) (c_inputData c)
       ++ map (fun p => (p, [])) (omap (find_upload env)
                                       (concat (map clips (audioTracks tl))))
  /\ length (c_inputData c) = length (clips track).
Proof.
  intros H Ev. apply compile_inr in H
    as (track' & clip0 & rest & inputData & g1 & _ & Ev' & Ec & Hp & ->).
  rewrite Ev in Ev'. injection Ev' as <-.
  apply prepare_inputs_inr in Hp as (Hld & Hlg & _ & _ & Hall).
  cbn [length] in Hld, Hlg.
  destruct (build_chain_extends clip0 rest g1) as [a1 H1].
  destruct (music_tracks_extends env (audioTracks tl)
              (MixState [] ["a_final"] (length (clips track))
                 (filterComplex (build_chain clip0 rest g1)
                  ++ final_entries (build_chain clip0 rest g1)))) as [a2 H2].
  cbn [mix_filters] in H2.
  assert (Hg : forall k x, g1 !! k = Some x ->
               (mix_filters
                  (music_tracks env (audioTracks tl)
                     (MixState [] ["a_final"] (length (clips track))
                        (filterComplex (build_chain clip0 rest g1)
                         ++ final_entries (build_chain clip0 rest g1))))
                ++ [mix_stage
                      (audioInputs
                         (music_tracks env (audioTracks tl)
                            (MixState [] ["a_final"] (length (clips track))
                               (filterComplex (build_chain clip0 rest g1)
                                ++ final_entries (build_chain clip0 rest g1)))))])
               !! k = Some x).
  { intros k x Hk. rewrite H2, H1, <- !app_assoc.
    rewrite lookup_app_l; [exact Hk|]. now apply lookup_lt_Some in Hk. }
  split; [|split].
  - intros j clip Hj. destruct (Hall j clip Hj) as (path & Hpath & _ & Hd & Hv & Ha).
    exists path. split; [exact Hpath|]. cbn [c_filterComplex c_inputData c_inputs].
    split; [|split; [|split]].
    + unfold command_inputs. cbn [c_inputData c_inputs].
      rewrite lookup_app_l.
      * rewrite list_lookup_fmap. cbn [length] in Hd.
        replace (0 + j)%nat with j in Hd by lia. rewrite Hd. reflexivity.
      * rewrite length_map, Hld. apply lookup_lt_Some in Hj. lia.
    + apply Hg. cbn [length] in Hv. replace (0 + 2 * j)%nat with (2 * j)%nat in Hv by lia.
      replace (0 + j)%nat with j in Hv by lia. exact Hv.
    + apply Hg. cbn [length] in Ha.
      replace (0 + 2 * j + 1)%nat with (2 * j + 1)%nat in Ha by lia.
      replace (0 + j)%nat with j in Ha by lia. exact Ha.
    + reflexivity.
  - unfold command_inputs. cbn [c_inputData c_inputs].
    now rewrite music_tracks_paths.
  - cbn [c_inputData]. rewrite Hld. lia.
Qed.

(** A request with a still image on the video track. *)
Lemma inputs_follow_clips_witness :
  exists c,
    compile (Samples.request "1700000000001")
            (Samples.solo Samples.two_fives [Samples.music]) = inr c
    /\ command_inputs c !! 1%nat
       = Some ("uploads/1700000000000-c2_clip.mp4", [])
    /\ length (c_inputData c) = 2%nat.
Proof.
  destruct (compile (Samples.request "1700000000001")
                    (Samples.solo Samples.two_fives [Samples.music])) as [e|c] eqn:Hc;
    [vm_compute in Hc; discriminate|].
  exists c. split; [reflexivity|].
  destruct (inputs_follow_clips _ _ c
              {| clips := Samples.two_fives; track_volume := Some 1 |} Hc eq_refl)
    as (Hall & _ & Hlen).
  split; [|exact Hlen].
  destruct (Hall 1%nat (Samples.clip "c2" 0 5 None None) eq_refl)
    as (path & Hp & Hi & _).
  vm_compute in Hp. injection Hp as <-. exact Hi.
Defined.

(** *** Every stream is produced before it is read *)

Lemma chains_app (a b : list entry) : chains (a ++ b) = chains a ++ chains b.
Proof. unfold chains. apply concat_app. Qed.

Lemma outs_app (a b : list chain) : outs (a ++ b) = outs a ++ outs b.
Proof. unfold outs. apply map_app. Qed.

Lemma is_pad_mono (n n' : nat) (l : string) : (n <= n')%nat -> is_pad n l -> is_pad n' l.
Proof. intros Hn (k & Hk & H). exists k. split; [lia | exact H]. Qed.

Lemma reads_defined_weaken (n n' : nat) (D D' : list string) (g : list chain) :
  (n <= n')%nat -> (forall l, l ∈ D -> l ∈ D') ->
  reads_defined n D g -> reads_defined n' D' g.
Proof.
  intros Hn. revert D D'. induction g as [|c g IH]; intros D D' HD; [auto|].
  cbn [reads_defined]. intros [Hc Hg]. split.
  - eapply Forall_impl; [exact Hc|]. intros l [Hl|Hl]; [left; auto|right].
    now apply (is_pad_mono n n').
  - apply (IH (out c :: D)); [|exact Hg].
    intros l Hl. apply elem_of_cons in Hl as [->|Hl];
      [apply list_elem_of_here | apply list_elem_of_further; auto].
Qed.

Lemma reads_defined_app (n : nat) (D : list string) (a b : list chain) :
  reads_defined n D a -> reads_defined n (outs a ++ D) b ->
  reads_defined n D (a ++ b).
Proof.
  revert D. induction a as [|c a IH]; intros D Ha Hb; [exact Hb|].
  cbn [reads_defined app] in *. destruct Ha as [Hc Ha]. split; [exact Hc|].
  apply IH; [exact Ha|].
  apply (reads_defined_weaken n n (outs (c :: a) ++ D)); [lia| |exact Hb].
  intros l Hl. cbn [outs map app] in Hl. fold (outs a) in Hl.
  apply elem_of_cons in Hl as [->|Hl].
  - apply elem_of_app. right. apply list_elem_of_here.
  - apply elem_of_app in Hl as [Hl|Hl]; apply elem_of_app; [left; exact Hl|right].
    now apply list_elem_of_further.
Qed.

(** Pushing entries that read only what the graph already produces. *)
Lemma reads_defined_push (n : nat) (g : list entry) (new : list entry) :
  reads_defined n [] (chains g) ->
  reads_defined n (outs (chains g)) (chains new) ->
  reads_defined n [] (chains (g ++ new)).
Proof.
  intros Hg Hn. rewrite chains_app. apply reads_defined_app; [exact Hg|].
  now rewrite app_nil_r.
Qed.

Lemma outs_push (g new : list entry) (l : string) :
  l ∈ outs (chains g) -> l ∈ outs (chains (g ++ new)).
Proof. intros H. rewrite chains_app, outs_app. apply elem_of_app. now left. Qed.

Lemma outs_new (g new : list entry) (l : string) :
  l ∈ outs (chains new) -> l ∈ outs (chains (g ++ new)).
Proof. intros H. rewrite chains_app, outs_app. apply elem_of_app. now right. Qed.

Ltac label_here :=
  apply list_elem_of_In; unfold outs, chains;
  cbn [In map concat app out vFilter aFilter]; auto 10.

(** The streams of the clips of step 1. *)
Lemma prepare_inputs_reads (n : nat) (env : Env) (v : Q) (cs : list Clip) (i : nat)
    (d : list InputData) (g : list entry) (d' : list InputData) (g' : list entry) :
  prepare_inputs env v i cs d g = inr (d', g') ->
  (i + length cs <= n)%nat ->
  reads_defined n [] (chains g) ->
  reads_defined n [] (chains g')
  /\ (forall l, l ∈ outs (chains g) -> l ∈ outs (chains g'))
  /\ forall j, (i <= j < i + length cs)%nat ->
       "v" +:+ pretty j ∈ outs (chains g') /\ "a" +:+ pretty j ∈ outs (chains g').
Proof.
  revert i d g. induction cs as [|clip cs IH]; intros i d g H Hn Hg.
  - cbn in H. injection H as <- <-. split; [exact Hg|]. split; [auto|].
    intros j Hj. cbn in Hj. lia.
  - cbn [prepare_inputs] in H.
    destruct (getVideoPath env clip) as [p|]; [|discriminate].
    destruct (nonempty p); [|discriminate].
    cbn [length] in Hn.
    set (new := [[vFilter i clip]; aFilter i (isImagePath p) v clip]) in *.
    assert (Hpad : is_pad n (pretty i +:+ ":v") /\ is_pad n (pretty i +:+ ":a")).
    { split; exists i; (split; [lia|]); auto. }
    assert (Hnew : reads_defined n (outs (chains g)) (chains new)).
    { subst new. unfold aFilter, chains.
      destruct (isImagePath p); cbn [concat app reads_defined ins out vFilter].
      - split; [constructor; [right; apply Hpad | constructor]|].
        split; [constructor|].
        split; [|exact I]. constructor; [|constructor]. left. apply list_elem_of_here.
      - split; [constructor; [right; apply Hpad | constructor]|].
        split; [|exact I]. constructor; [right; apply Hpad | constructor]. }
    assert (Hv : "v" +:+ pretty i ∈ outs (chains new)
                 /\ "a" +:+ pretty i ∈ outs (chains new)).
    { subst new. unfold aFilter. destruct (isImagePath p); split; label_here. }
    destruct (IH (S i) _ (g ++ new) H ltac:(lia)
                (reads_defined_push n g new Hg Hnew)) as (Hr & Hk & Hall).
    split; [exact Hr|]. split.
    + intros l Hl. apply Hk. now apply outs_push.
    + intros j Hj. destruct (decide (j = i)) as [->|Hne].
      * split; apply Hk, outs_new; apply Hv.
      * apply Hall. cbn [length] in Hj. lia.
Qed.

(** What the chain builder keeps true of its state: the filters pushed
    so far read only streams produced before them, the running streams
    are produced, and so are the streams of all clips. *)
Lemma chain_inv_push (n total : nat) (st : chain_state) (lv la : string)
    (e : Q) (c1 c2 : chain) :
  chain_inv n total st ->
  Forall (fun l => l ∈ outs (chains (filterComplex st))) (ins c1) ->
  Forall (fun l => l ∈ outs (chains (filterComplex st))) (ins c2) ->
  lv ∈ out c1 :: outs (chains (filterComplex st)) ->
  la ∈ out c2 :: outs (chains (filterComplex st)) ->
  chain_inv n total (ChainState lv la e (filterComplex st ++ [[c1]; [c2]])).
Proof.
  intros (Hr & HV & HA & Hall) H1 H2 Hlv Hla. unfold chain_inv. cbn [filterComplex lastV lastA].
  assert (Hin : forall l, l ∈ outs (chains (filterComplex st)) ->
                          l ∈ outs (chains (filterComplex st ++ [[c1]; [c2]])))
    by (intros l; apply outs_push).
  split; [|split; [|split]].
  - apply reads_defined_push; [exact Hr|]. cbn. split; [|split; [|exact I]].
    + eapply Forall_impl; [exact H1|]. intros l Hl. now left.
    + eapply Forall_impl; [exact H2|]. intros l Hl. left. now apply list_elem_of_further.
  - apply elem_of_cons in Hlv as [->|Hlv]; [apply outs_new; label_here | auto].
  - apply elem_of_cons in Hla as [->|Hla]; [apply outs_new; label_here | auto].
  - intros j Hj. destruct (Hall j Hj). split; auto.
Qed.

Lemma start_transition_inv (n total : nat) (clip0 : Clip) (st : chain_state) :
  chain_inv n total st -> chain_inv n total (start_transition clip0 st).
Proof.
  intros H. unfold start_transition. destruct (with_duration _); [|exact H].
  pose proof H as (_ & HV & HA & _).
  apply chain_inv_push; auto; try (repeat constructor; assumption);
    apply list_elem_of_here.
Qed.

Lemma end_transition_inv (n total : nat) (lastClip : Clip) (st : chain_state) :
  chain_inv n total st -> chain_inv n total (end_transition lastClip st).
Proof.
  intros H. unfold end_transition. destruct (with_duration _); [|exact H].
  destruct (Qgtb _ 0); [|exact H].
  pose proof H as (_ & HV & HA & _).
  apply chain_inv_push; auto; try (repeat constructor; assumption);
    apply list_elem_of_here.
Qed.

Lemma middle_step_inv (n total i : nat) (clip nextClip : Clip) (st : chain_state) :
  (i + 1 < total)%nat ->
  chain_inv n total st -> chain_inv n total (middle_step i clip nextClip st).
Proof.
  intros Hi H. pose proof H as (_ & HV & HA & Hall).
  destruct (Hall (i + 1)%nat Hi) as [Hv Ha].
  unfold middle_step. destruct (resolve_transition clip nextClip) as [ty d].
  destruct (Qgtb d 0 && not_none ty); [destruct (Qltb _ 0)|];
    unfold concat_entries, xfade_entries;
    apply chain_inv_push; auto;
    try (repeat constructor; assumption);
    try apply list_elem_of_here;
    now apply list_elem_of_further.
Qed.

Lemma middle_transitions_inv (n total : nat) (cs : list Clip) (k : nat)
    (st : chain_state) :
  (k + length cs <= total)%nat ->
  chain_inv n total st -> chain_inv n total (middle_transitions k cs st).
Proof.
  revert k st. induction cs as [|c0 cs IH]; intros k st Hk H; [exact H|].
  destruct cs as [|c1 cs]; [exact H|].
  rewrite middle_transitions_cons. cbn [length] in *.
  apply IH; [cbn [length]; lia|]. apply middle_step_inv; [lia | exact H].
Qed.

(** What step 3 keeps true of its state. *)
Lemma music_clip_inv (env : Env) (track : Track) (st : mix_state) (clip : Clip) :
  mix_inv st -> mix_inv (music_clip env track st clip).
Proof.
  intros [Hr Ha]. unfold music_clip. destruct (find_upload env clip); [|split; auto].
  unfold mix_inv. cbn [inputIndex mix_filters audioInputs]. split.
  - apply reads_defined_push.
    + apply (reads_defined_weaken (inputIndex st) _ [] []); [lia|auto|exact Hr].
    + unfold chains. cbn [concat app reads_defined ins out].
      split; [constructor; [|constructor]|].
      { right. exists (inputIndex st). split; [lia|]. now right. }
      split; [constructor; [left; apply list_elem_of_here | constructor]|].
      split; [constructor; [left; apply list_elem_of_here | constructor]|].
      split; [constructor; [left; apply list_elem_of_here | constructor]|exact I].
  - apply Forall_app. split.
    + eapply Forall_impl; [exact Ha|]. intros l Hl. now apply outs_push.
    + constructor; [|constructor]. apply outs_new. label_here.
Qed.

Lemma music_tracks_inv (env : Env) (tracks : list Track) (st : mix_state) :
  mix_inv st -> mix_inv (music_tracks env tracks st).
Proof.
  unfold music_tracks. revert st. induction tracks as [|track tracks IH]; intros st H;
    [exact H|].
  cbn [fold_left]. apply IH. generalize dependent st.
  induction (clips track) as [|clip cs IHc]; intros st H; [exact H|].
  cbn [fold_left]. apply IHc. now apply music_clip_inv.
Qed.

Lemma prepare_inputs_length (env : Env) (v : Q) (cs : list Clip) (i : nat)
    (d : list InputData) (g : list entry) (d' : list InputData) (g' : list entry) :
  prepare_inputs env v i cs d g = inr (d', g') ->
  length d' = (length d + length cs)%nat.
Proof. intros H. now apply prepare_inputs_inr in H as (H & _). Qed.

(** X5: in every compiled graph each chain reads only input pads of
    the encoder command and streams that an earlier chain has produced,
    and the two streams the command maps to its output, [v_final] and
    [a_mixed], are produced. *)
Theorem graph_reads_defined (env : Env) (tl : Timeline) (c : compiled) :
  compile env tl = inr c ->
  reads_defined (length (command_inputs c)) [] (chains (c_filterComplex c))
  /\ "v_final" ∈ outs (chains (c_filterComplex c))
  /\ "a_mixed" ∈ outs (chains (c_filterComplex c)).
Proof.
  intros H. apply compile_inr in H
    as (track & clip0 & rest & inputData & g1 & _ & Ev & Ec & Hp & ->).
  set (total := length (clips track)).
  pose proof (prepare_inputs_length _ _ _ _ _ _ _ _ Hp) as Hld. cbn [length] in Hld.
  fold total in Hld.
  destruct (prepare_inputs_reads total _ _ _ _ _ _ _ _ Hp ltac:(subst total; lia) I)
    as (Hr1 & _ & Hall1).
  set (st := build_chain clip0 rest g1).
  assert (Hst : chain_inv total total st).
  { subst st. unfold build_chain.
    apply end_transition_inv, middle_transitions_inv, start_transition_inv.
    - subst total. rewrite Ec. cbn [length]. lia.
    - assert (H0 : (0 < total)%nat) by (subst total; rewrite Ec; cbn; lia).
      unfold chain_inv. cbn [filterComplex lastV lastA].
      split; [exact Hr1|].
      split; [apply (Hall1 0%nat); lia|]. split; [apply (Hall1 0%nat); lia|].
      intros j Hj. apply Hall1. lia. }
  destruct Hst as (Hr & HV & HA & _).
  set (ms0 := MixState [] ["a_final"] total (filterComplex st ++ final_entries st)).
  assert (Hms0 : mix_inv ms0).
  { unfold mix_inv. subst ms0. cbn [inputIndex mix_filters audioInputs]. split.
    - apply reads_defined_push; [exact Hr|]. unfold final_entries, chains.
      cbn [concat app reads_defined ins out].
      split; [constructor; [left; exact HV | constructor]|].
      split; [|exact I]. constructor; [|constructor].
      left. now apply list_elem_of_further.
    - constructor; [|constructor]. apply outs_new. unfold final_entries. label_here. }
  pose proof (music_tracks_inv env (audioTracks tl) ms0 Hms0) as [Hrm Ham].
  destruct (music_tracks_inputs env (audioTracks tl) ms0) as (_ & Hidx & Hlen).
  cbn zeta in Hidx, Hlen. set (ms := music_tracks env (audioTracks tl) ms0) in *.
  assert (Hn : length (command_inputs (Compiled inputData (inputs ms)
                          (mix_filters ms ++ [mix_stage (audioInputs ms)])))
               = inputIndex ms).
  { unfold command_inputs. cbn [c_inputData c_inputs].
    rewrite length_app, !length_map, Hld, Hlen, Hidx. subst ms0. cbn. lia. }
  rewrite Hn. cbn [c_filterComplex].
  destruct (music_tracks_extends env (audioTracks tl) ms0) as [added Hadd].
  fold ms in Hadd. subst ms0. cbn [mix_filters] in Hadd.
  split; [|split].
  - apply reads_defined_push; [exact Hrm|]. unfold mix_stage.
    destruct (1 <? length (audioInputs ms))%nat; unfold chains;
      cbn [concat app reads_defined ins out].
    + split; [|exact I]. eapply Forall_impl; [exact Ham|]. intros l Hl. now left.
    + split; [|exact I]. constructor; [|constructor]. left.
      rewrite Hadd. apply outs_push, outs_new. unfold final_entries. label_here.
  - apply outs_push. rewrite Hadd. apply outs_push, outs_new.
    unfold final_entries. label_here.
  - apply outs_new. unfold mix_stage.
    destruct (1 <? length (audioInputs ms))%nat; label_here.
Qed.

(** Two five-second clips and a music clip: three inputs. *)
Lemma graph_reads_defined_witness :
  exists c,
    compile (Samples.request "1700000000001")
            (Samples.solo Samples.two_fives [Samples.music]) = inr c
    /\ reads_defined 3 [] (chains (c_filterComplex c))
    /\ "v_final" ∈ outs (chains (c_filterComplex c)).
Proof.
  destruct (compile (Samples.request "1700000000001")
                    (Samples.solo Samples.two_fives [Samples.music])) as [e|c] eqn:Hc;
    [vm_compute in Hc; discriminate|].
  exists c. split; [reflexivity|].
  destruct (graph_reads_defined _ _ c Hc) as (Hr & Hv & _).
  split; [|exact Hv].
  replace 3%nat with (length (command_inputs c)); [exact Hr|].
  vm_compute in Hc. injection Hc as <-. reflexivity.
Defined.

(** *** The printed numbers start with a digit *)







(** *** The streams of a fallback hard cut are never read *)

Section Unread.

Variable x : string.












End Unread.

















Ltac unread_here :=
  unfold unread, chains; cbn [concat app];
  repeat (constructor;
          [cbn [ins]; repeat (constructor; [split; discriminate|]); constructor|]);
  constructor.

(** C2 fails on the code.  Two clips of one second with a two-second
    cross-dissolve between them: the loop takes the fallback branch and
    pushes the hard cut [[v0][v1]concat...[vm1]], but it does not make
    [vm1] and [am1] the running streams, so the output streams are
    built on [v0] and [a0] alone and no filter reads the hard cut: the
    second clip is not in the exported video.  The branch for a
    boundary without a transition, on the same two clips, pushes the
    same hard cut and builds the output on it. *)
Theorem fallback_drops_next_clip :
  let request := Samples.request "1700000000001" in
  exists c plain,
    compile request (Samples.solo Samples.two_ones []) = inr c
    /\ compile request (Samples.solo MoreSamples.plain_ones []) = inr plain
    /\ [Chain ["v0"; "v1"] [ConcatV] "vm1"] ∈ c_filterComplex c
    /\ [Chain ["a0"; "a1"] [ConcatA] "am1"] ∈ c_filterComplex c
    /\ [Chain ["v0"] [Null] "v_final"] ∈ c_filterComplex c
    /\ [Chain ["a0"] [Aresample] "a_final"] ∈ c_filterComplex c
    /\ unread "vm1" "am1" (chains (c_filterComplex c))
    /\ [Chain ["v0"; "v1"] [ConcatV] "vm1"] ∈ c_filterComplex plain
    /\ [Chain ["a0"; "a1"] [ConcatA] "am1"] ∈ c_filterComplex plain
    /\ [Chain ["vm1"] [Null] "v_final"] ∈ c_filterComplex plain
    /\ [Chain ["am1"] [Aresample] "a_final"] ∈ c_filterComplex plain.
Proof.
  intros request.
  destruct (compile request (Samples.solo Samples.two_ones [])) as [e|c] eqn:Hc;
    [vm_compute in Hc; discriminate|].
  destruct (compile request (Samples.solo MoreSamples.plain_ones [])) as [e|plain] eqn:Hp;
    [vm_compute in Hp; discriminate|].
  exists c, plain. split; [reflexivity|]. split; [reflexivity|].
  vm_compute in Hc, Hp. injection Hc as <-. injection Hp as <-.
  cbn [c_filterComplex].
  repeat split; try (apply list_elem_of_In; cbn [In]; auto 12).
  unread_here.
Qed.

(** ** Further properties of the registry and its endpoints *)

(** C4 fails on the code.  The id of a job is the millisecond in which
    its request is handled, so two requests handled in the same
    millisecond share one registry entry, and the handlers of both
    encoders write to it.  Two [POST /process-video] requests: the end
    of the first encoder makes the entry ['done'] at 100; a progress
    event of the second encoder is then ignored, as the claim wants, by
    the status test of the progress handler; but the error of the
    second encoder, whose handler has no such test, turns ['done'] into
    ['error'].  Two [POST /export] requests: after the completion of
    the first, a progress event of the second, whose handler has no
    such test either, rewrites the progress of the ['done'] job. *)
Theorem terminal_state_overwritten :
  let now := "1700000000001" in
  let '(idA, jobs1) := post_process_video "outputs" now "uploads/1700000000000-a.mp4" ∅ in
  let '(idB, jobs2) := post_process_video "outputs" now "uploads/1700000000000-b.mp4"
                         jobs1 in
  let ended := handle (PvEnd idA) jobs2 in
  let '(idX, jobs3) := post_export "exports" now (Some "reel") None ∅ in
  let '(idY, jobs4) := post_export "exports" now (Some "reel") None jobs3 in
  let completed := handle (ExComplete idX) jobs4 in
  idA = idB /\ idX = idY
  /\ (exists j, ended !! idA = Some j /\ job_status j = Done /\ job_progress j = 100)
  /\ handle (PvProgress idB 60 (Some (Timemark 0 0 30))) ended = ended
  /\ (exists j, handle (PvError idB "ffmpeg exited with code 1") ended !! idA = Some j
                /\ job_status j = Error)
  /\ (exists j, completed !! idX = Some j /\ job_status j = Done /\ job_progress j = 100)
  /\ (exists j, handle (ExProgress idY (Some 40)) completed !! idX = Some j
                /\ job_status j = Done /\ job_progress j = 40).
Proof.
  cbn zeta. unfold post_process_video, post_export. cbn zeta.
  split; [reflexivity|]. split; [reflexivity|].
  split; [eexists; split; [vm_compute; reflexivity|]; split; reflexivity|].
  split; [apply (process_video_progress_terminal _ _ _ _
                   (Job Done 100 "outputs/processed-1700000000001.mp4"
                        (Some "uploads/1700000000000-b.mp4")
                        "processed-1700000000001.mp4" None None));
          [vm_compute; reflexivity | reflexivity]|].
  split; [eexists; split; [vm_compute; reflexivity|]; reflexivity|].
  split; [eexists; split; [vm_compute; reflexivity|]; split; reflexivity|].
  eexists; split; [vm_compute; reflexivity|]; split; reflexivity.
Qed.

(** X7: a handler changes no entry but that of the job it is addressed
    to, and it neither adds nor removes an entry: an event for an id
    that is not in the registry changes nothing at all. *)
Theorem handlers_touch_own_job (e : event) (jobs : gmap string job) :
  (forall id, id <> event_id e -> handle e jobs !! id = jobs !! id)
  /\ (forall id, is_Some (handle e jobs !! id) <-> is_Some (jobs !! id))
  /\ (jobs !! event_id e = None -> handle e jobs = jobs).
Proof.
  assert (G : forall i (f : job -> job),
             (forall id, id <> i ->
                match jobs !! i with Some j => <[i := f j]> jobs | None => jobs end !! id
                = jobs !! id)
             /\ (forall id,
                   is_Some (match jobs !! i with Some j => <[i := f j]> jobs
                                               | None => jobs end !! id)
                   <-> is_Some (jobs !! id))).
  { intros i f. split; intros id.
    - intros Hne. destruct (jobs !! i); [|reflexivity].
      now rewrite lookup_insert_ne by congruence.
    - destruct (jobs !! i) as [j|] eqn:E; [|reflexivity].
      destruct (decide (i = id)) as [->|Hne].
      + rewrite lookup_insert_eq, E. split; eauto.
      + now rewrite lookup_insert_ne by exact Hne. }
  destruct e as [i d tm|i|i msg|i p|i|i msg]; cbn [handle event_id].
  - unfold process_video_on_progress. split; [|split].
    + intros id Hne. destruct (jobs !! i) as [j|] eqn:E; [|reflexivity].
      destruct (negb _ && negb _); [|reflexivity]. destruct tm; [|reflexivity].
      now rewrite lookup_insert_ne by congruence.
    + intros id. destruct (jobs !! i) as [j|] eqn:E; [|reflexivity].
      destruct (negb _ && negb _); [|reflexivity]. destruct tm; [|reflexivity].
      destruct (decide (i = id)) as [->|Hne].
      * rewrite lookup_insert_eq, E. split; eauto.
      * now rewrite lookup_insert_ne by exact Hne.
    + now intros ->.
  - unfold process_video_on_end. split; [apply G|split; [apply G|now intros ->]].
  - unfold process_video_on_error. split; [apply G|split; [apply G|now intros ->]].
  - unfold export_on_progress. split; [apply G|split; [apply G|now intros ->]].
  - unfold export_on_complete. split; [apply G|split; [apply G|now intros ->]].
  - unfold export_on_fail. split; [apply G|split; [apply G|now intros ->]].
Qed.

Lemma same_file_refl (j : job) : same_file j j.
Proof. unfold same_file. auto. Qed.

Lemma same_file_trans (j1 j2 j3 : job) :
  same_file j1 j2 -> same_file j2 j3 -> same_file j1 j3.
Proof. unfold same_file. intros (?&?&?&?) (?&?&?&?). repeat split; congruence. Qed.

(** Every handler keeps the job and its file fields. *)
Lemma handle_same_file (id : string) (e : event) (jobs : gmap string job) (j : job) :
  jobs !! id = Some j ->
  exists j', handle e jobs !! id = Some j' /\ same_file j j'.
Proof.
  intros Hj.
  assert (G : forall i (f : job -> job),
             (forall x, same_file x (f x)) ->
             exists j', match jobs !! i with Some x => <[i := f x]> jobs | None => jobs end
                        !! id = Some j' /\ same_file j j').
  { intros i f Hf. destruct (jobs !! i) as [x|] eqn:E.
    - destruct (decide (i = id)) as [->|Hne].
      + rewrite lookup_insert_eq. rewrite Hj in E. injection E as <-. eauto.
      + rewrite lookup_insert_ne by exact Hne. eauto using same_file_refl.
    - eauto using same_file_refl. }
  destruct e as [i d tm|i|i msg|i p|i|i msg]; cbn [handle].
  - unfold process_video_on_progress.
    destruct (jobs !! i) as [x|] eqn:E; [|eauto using same_file_refl].
    destruct (negb _ && negb _); [|eauto using same_file_refl].
    destruct tm as [t|]; [|eauto using same_file_refl].
    destruct (decide (i = id)) as [->|Hne].
    + rewrite lookup_insert_eq. rewrite Hj in E. injection E as <-.
      eexists. split; [reflexivity|]. unfold same_file. cbn. auto.
    + rewrite lookup_insert_ne by exact Hne. eauto using same_file_refl.
  - apply G. intros x. unfold same_file. cbn. auto.
  - apply G. intros x. unfold same_file. cbn. auto.
  - apply G. intros x. unfold same_file. cbn. auto.
  - apply G. intros x. unfold same_file. cbn. auto.
  - apply G. intros x. unfold same_file. cbn. auto.
Qed.

Lemma run_same_file (id : string) (es : list event) (jobs : gmap string job) (j : job) :
  jobs !! id = Some j ->
  exists j', run es jobs !! id = Some j' /\ same_file j j'.
Proof.
  unfold run. revert jobs j. induction es as [|e es IH]; intros jobs j Hj.
  - eauto using same_file_refl.
  - cbn [fold_left].
    destruct (handle_same_file id e jobs j Hj) as (j1 & H1 & S1).
    destruct (IH _ _ H1) as (j2 & H2 & S2).
    eauto using same_file_trans.
Qed.

Lemma event_id_other (id : string) (e : event) (jobs : gmap string job) :
  String.eqb (event_id e) id = false -> handle e jobs !! id = jobs !! id.
Proof.
  intros H. apply String.eqb_neq in H.
  destruct e as [i d tm|i|i msg|i p|i|i msg]; cbn [handle event_id] in *.
  - unfold process_video_on_progress. destruct (jobs !! i) as [j|]; [|reflexivity].
    destruct (negb _ && negb _); [|reflexivity]. destruct tm; [|reflexivity].
    now rewrite lookup_insert_ne by exact H.
  - unfold process_video_on_end. destruct (jobs !! i); [|reflexivity].
    now rewrite lookup_insert_ne by exact H.
  - unfold process_video_on_error. destruct (jobs !! i); [|reflexivity].
    now rewrite lookup_insert_ne by exact H.
  - unfold export_on_progress. destruct (jobs !! i); [|reflexivity].
    now rewrite lookup_insert_ne by exact H.
  - unfold export_on_complete. destruct (jobs !! i); [|reflexivity].
    now rewrite lookup_insert_ne by exact H.
  - unfold export_on_fail. destruct (jobs !! i); [|reflexivity].
    now rewrite lookup_insert_ne by exact H.
Qed.

Ltac num_cases :=
  cbn; unfold num_signed, signed_zero, signed_inf;
  repeat match goal with
         | |- context [if ?b then _ else _] => destruct b
         end;
  try reflexivity; try discriminate.

Lemma num_mul_finite (x y : number) :
  num_finite x = true -> num_finite y = true -> num_finite (num_mul x y) = true.
Proof. destruct x, y; intros; try discriminate; num_cases. Qed.

Lemma num_add_finite (x y : number) :
  num_finite x = true -> num_finite y = true -> num_finite (num_add x y) = true.
Proof. destruct x, y; intros; try discriminate; num_cases. Qed.

Lemma num_div_finite (x : number) (d : Q) :
  num_finite x = true -> ~ d == 0 -> num_finite (num_div x d) = true.
Proof.
  intros Hx Hd.
  assert (Hb : Qeq_bool d 0 = false).
  { destruct (Qeq_bool d 0) eqn:E; [|reflexivity].
    apply Qeq_bool_iff in E. contradiction. }
  destruct x; try discriminate; cbn; rewrite Hb; num_cases.
Qed.

(** With a time mark of three numbers and an expected duration that is
    a number other than zero, the percentage is a number. *)
Lemma process_video_percent_numeric (d : Q) (t : timemark) :
  ~ d == 0 ->
  num_finite (tm_hours t) = true -> num_finite (tm_minutes t) = true ->
  num_finite (tm_seconds t) = true ->
  exists q, process_video_percent d t = Num q /\ 0 <= q /\ q <= 99.
Proof.
  intros Hd Hh Hm Hs. unfold process_video_percent.
  set (p := num_mul (num_div (timemark_seconds t) d) 100).
  assert (Hp : num_finite p = true).
  { subst p. apply num_mul_finite; [|reflexivity].
    apply num_div_finite; [|exact Hd]. unfold timemark_seconds.
    repeat first [apply num_add_finite | apply num_mul_finite]; auto. }
  destruct (clamp_percent p) as [[E _]|H]; [|exact H].
  rewrite E in Hp. discriminate.
Qed.

Lemma process_video_step_consistent (id : string) (e : event) (jobs : gmap string job)
    (j : job) :
  process_video_or_other id e = true ->
  jobs !! id = Some j -> progress_consistent j ->
  exists j', handle e jobs !! id = Some j' /\ progress_consistent j'
             /\ (numeric e -> job_progress j <> NaN -> job_progress j' <> NaN).
Proof.
  intros He Hj Hc. unfold process_video_or_other in He.
  destruct (String.eqb (event_id e) id) eqn:Eid.
  2:{ rewrite event_id_other by exact Eid. eauto. }
  rewrite orb_false_r in He. apply String.eqb_eq in Eid.
  destruct e as [i d tm|i|i msg|i p|i|i msg]; cbn in He, Eid; try discriminate;
    subst i; cbn [handle].
  - unfold process_video_on_progress. rewrite Hj.
    destruct (negb _ && negb _) eqn:Et; [|eauto].
    destruct tm as [t|]; [|eauto].
    rewrite lookup_insert_eq. eexists. split; [reflexivity|].
    unfold progress_consistent. cbn [job_progress job_status set_progress].
    split; [split; [|split]|].
    + destruct (process_video_percent_range d t) as [->|(q & -> & H0 & H99)];
        [left; reflexivity|right]. cbn. split; lra.
    + intros _. destruct (process_video_percent_range d t) as [->|(q & -> & H)];
        [left; reflexivity | right; exact H].
    + intros Hd. rewrite Hd in Et. discriminate.
    + intros ((dq & -> & Hdq) & Hh & Hm & Hs) _.
      destruct (process_video_percent_numeric dq t Hdq Hh Hm Hs) as (q & -> & _).
      discriminate.
  - unfold process_video_on_end. rewrite Hj, lookup_insert_eq.
    eexists. split; [reflexivity|].
    unfold progress_consistent. cbn [job_progress job_status set_progress set_status].
    split; [split; [|split]|].
    + right. cbn. split; lra.
    + discriminate.
    + reflexivity.
    + discriminate.
  - unfold process_video_on_error. rewrite Hj, lookup_insert_eq.
    eexists. split; [reflexivity|].
    destruct Hc as (H100 & _ & _).
    unfold progress_consistent. cbn [job_progress job_status set_error set_status].
    split; [split; [exact H100|split; discriminate]|]. auto.
Qed.

(** X8: a job created by [POST /process-video] keeps a progress that
    agrees with its status under every sequence of events of its encoder
    (progress, end, error, in any order and number) and of other jobs:
    the progress is [NaN] or a number between 0 and 100, [NaN] or at
    most 99 while the status is ['processing'], and exactly 100 when
    the status is ['done'].  It is never [NaN] when every time mark of
    the encoder has three numbers as fields and the expected duration
    is a number other than zero.  Output path and file name stay those
    of the request. *)
Theorem process_video_progress_consistent
    (jobId outputPath inputPath filename : string) (jobs : gmap string job)
    (es : list event) :
  Forall (fun e => process_video_or_other jobId e = true) es ->
  exists j,
    run es (process_video_init jobId outputPath inputPath filename jobs) !! jobId = Some j
    /\ progress_consistent j
    /\ (Forall numeric es -> job_progress j <> NaN)
    /\ job_outputPath j = outputPath /\ job_filename j = filename.
Proof.
  intros Hes.
  pose (j0 := Job Processing 0 outputPath (Some inputPath) filename None None).
  assert (H0 : process_video_init jobId outputPath inputPath filename jobs !! jobId
               = Some j0) by apply lookup_insert_eq.
  assert (C0 : progress_consistent j0).
  { unfold progress_consistent, j0. cbn. split; [right; split; lra|].
    split; [intros _; right; split; lra|discriminate]. }
  assert (G : forall es jobs j,
             Forall (fun e => process_video_or_other jobId e = true) es ->
             jobs !! jobId = Some j -> progress_consistent j ->
             exists j', run es jobs !! jobId = Some j' /\ progress_consistent j'
                        /\ (Forall numeric es -> job_progress j <> NaN ->
                            job_progress j' <> NaN)).
  { clear. unfold run. induction es as [|e es IH]; intros jobs j Hes Hj Hc.
    - eauto.
    - inversion Hes as [|? ? He Hrest]; subst. cbn [fold_left].
      destruct (process_video_step_consistent jobId e jobs j He Hj Hc)
        as (j1 & H1 & C1 & N1).
      destruct (IH _ _ Hrest H1 C1) as (j2 & H2 & C2 & N2).
      exists j2. split; [exact H2|]. split; [exact C2|].
      intros Hn Hj0. inversion Hn; subst. auto. }
  destruct (G es _ _ Hes H0 C0) as (j & Hj & Hc & Hn).
  exists j. split; [exact Hj|]. split; [exact Hc|].
  split; [intros Hnum; apply Hn; [exact Hnum | discriminate]|].
  destruct (run_same_file jobId es _ _ H0) as (j2 & Hj2 & Ho & _ & Hf & _).
  rewrite Hj in Hj2. injection Hj2 as <-. split; [exact Ho | exact Hf].
Qed.

(** A time mark far past the expected duration, an error, then the end
    event: the job ends ['done'] at 100. *)
Lemma process_video_progress_consistent_witness :
  exists j,
    run [PvProgress "1700000000001" 60 (Some (Timemark 1 30 0));
         ExProgress "1700000000002" (Some 250);
         PvError "1700000000001" "Conversion failed";
         PvEnd "1700000000001"]
        (process_video_init "1700000000001" "outputs/p.mp4" "uploads/in.mp4" "p.mp4" ∅)
      !! "1700000000001" = Some j
    /\ progress_consistent j
    /\ job_progress j <> NaN
    /\ job_outputPath j = "outputs/p.mp4" /\ job_filename j = "p.mp4".
Proof.
  destruct (process_video_progress_consistent "1700000000001" "outputs/p.mp4"
              "uploads/in.mp4" "p.mp4" ∅
              [PvProgress "1700000000001" 60 (Some (Timemark 1 30 0));
               ExProgress "1700000000002" (Some 250);
               PvError "1700000000001" "Conversion failed";
               PvEnd "1700000000001"])
    as (j & Hj & Hc & Hn & Hp).
  - repeat (constructor; [reflexivity|]). constructor.
  - exists j. split; [exact Hj|]. split; [exact Hc|]. split; [|exact Hp].
    apply Hn. constructor.
    + cbn. split; [exists 60; split; [reflexivity | discriminate]|]. auto.
    + repeat (constructor; [exact I|]). constructor.
Defined.

(** The time mark ['N/A'] while the job is processing: the stored
    progress is [NaN]; an expected duration of zero: it is 99. *)
Example progress_not_a_number :
  let jobs := process_video_init "1700000000001" "outputs/p.mp4" "uploads/in.mp4"
                "p.mp4" ∅ in
  (job_progress <$>
     handle (PvProgress "1700000000001" 60 (Some (Timemark NaN NaN NaN))) jobs
       !! "1700000000001") = Some NaN
  /\ (job_progress <$>
        handle (PvProgress "1700000000001" 0 (Some (Timemark 0 0 30))) jobs
          !! "1700000000001") = Some (Num 99).
Proof. split; reflexivity. Qed.

(** *** The progress streams *)

Lemma progress_sendUpdate_ended (jobId : string) (jobs : gmap string job) (r : response) :
  ended r = true -> progress_sendUpdate jobId jobs r = r.
Proof.
  intros He. unfold progress_sendUpdate, res_write, res_end. rewrite He.
  destruct r as [w e]. cbn in He. subst e.
  destruct (jobs !! jobId) as [j|]; [|reflexivity].
  cbn. destruct (terminal j); reflexivity.
Qed.

Lemma progress_ticks_ended (jobId : string) (ticks : list (gmap string job)) (r : response) :
  ended r = true ->
  fold_left (fun r jobs => progress_sendUpdate jobId jobs r) ticks r = r.
Proof.
  intros He. induction ticks as [|jobs ticks IH]; [reflexivity|].
  cbn [fold_left]. now rewrite progress_sendUpdate_ended.
Qed.

Lemma progress_ticks (jobId : string) (pre : list (gmap string job))
    (last : gmap string job) (post : list (gmap string job)) (w : list sse) :
  Forall (processing_at jobId) pre -> ~ processing_at jobId last ->
  fold_left (fun r jobs => progress_sendUpdate jobId jobs r)
            (pre ++ last :: post) (Response w false)
  = Response (w ++ concat (map (status_event jobId) pre) ++ [closing_event jobId last]) true.
Proof.
  intros Hpre Hlast. revert w. induction Hpre as [|jobs pre (j & Hj & Hs) _ IH]; intros w.
  - cbn [app fold_left map concat]. rewrite progress_ticks_ended.
    + unfold progress_sendUpdate, closing_event.
      destruct (last !! jobId) as [j|] eqn:E; [|reflexivity].
      unfold res_write, res_end, terminal. cbn.
      destruct (job_status j) eqn:Es; cbn; try reflexivity.
      exfalso. apply Hlast. exists j. auto.
    + unfold progress_sendUpdate.
      destruct (last !! jobId) as [j|] eqn:E; [|reflexivity].
      unfold res_write, res_end, terminal. cbn.
      destruct (job_status j) eqn:Es; cbn; try reflexivity.
      exfalso. apply Hlast. exists j. auto.
  - cbn [app fold_left map concat].
    assert (E : progress_sendUpdate jobId jobs (Response w false)
                = Response (w ++ [SseStatus Processing (job_progress j)]) false).
    { unfold progress_sendUpdate, res_write, terminal. rewrite Hj, Hs. reflexivity. }
    rewrite E, IH. unfold status_event. rewrite Hj, Hs. cbn [app].
    now rewrite <- app_assoc.
Qed.

(** X9: the stream of [GET /progress/:jobId] writes one status event
    for every reading (the first one and one per timer tick) at which
    the job is processing, then one closing event at the first reading
    at which it is finished or gone (its final status, or ['Job not
    found']), ends there, and writes nothing afterwards. *)
Theorem progress_stream_closes (jobId : string) (now : gmap string job)
    (ticks pre post : list (gmap string job)) (last : gmap string job) :
  now :: ticks = pre ++ last :: post ->
  Forall (processing_at jobId) pre -> ~ processing_at jobId last ->
  progress_stream jobId now ticks
  = Response (concat (map (status_event jobId) pre) ++ [closing_event jobId last]) true.
Proof.
  intros E Hpre Hlast.
  change (progress_stream jobId now ticks)
    with (fold_left (fun r jobs => progress_sendUpdate jobId jobs r)
                    (now :: ticks) (Response [] false)).
  rewrite E. now rewrite (progress_ticks jobId pre last post []).
Qed.

(** Two readings while the job is processing, then the reading after
    its end event closes the stream; the fourth reading is not sent. *)
Lemma progress_stream_closes_witness :
  let jobs0 := process_video_init "1700000000001" "outputs/p.mp4" "uploads/in.mp4"
                 "p.mp4" ∅ in
  let jobs1 := handle (PvProgress "1700000000001" 60 (Some (Timemark 0 0 30))) jobs0 in
  let jobs2 := handle (PvEnd "1700000000001") jobs1 in
  progress_stream "1700000000001" jobs0 [jobs1; jobs2; jobs2]
  = Response (concat (map (status_event "1700000000001") [jobs0; jobs1])
                ++ [closing_event "1700000000001" jobs2]) true.
Proof.
  intros jobs0 jobs1 jobs2.
  apply (progress_stream_closes "1700000000001" jobs0 [jobs1; jobs2; jobs2]
           [jobs0; jobs1] [jobs2] jobs2).
  - reflexivity.
  - constructor; [|constructor; [|constructor]];
      (eexists; split; [vm_compute; reflexivity | reflexivity]).
  - intros (j & Hj & Hs). vm_compute in Hj. injection Hj as <-. discriminate.
Defined.

Lemma export_ticks (exportId : string) (pre : list (gmap string job))
    (last : gmap string job) (post : list (gmap string job)) (w : list sse) :
  Forall (exporting_at exportId) pre -> ~ exporting_at exportId last ->
  fold_left (fun r jobs => export_progress_sendUpdate exportId jobs r)
            (pre ++ last :: post) (Response w false)
  = Response (w ++ concat (map (status_event exportId) pre)
                ++ [export_closing_event exportId last]) true.
Proof.
  intros Hpre Hlast. revert w.
  induction Hpre as [|jobs pre (j & Hj & Ht & Hs) _ IH]; intros w.
  - cbn [app fold_left map concat].
    assert (E : export_progress_sendUpdate exportId last (Response w false)
                = Response (w ++ [export_closing_event exportId last]) true).
    { unfold export_progress_sendUpdate, export_closing_event.
      destruct (not_export (last !! exportId)) eqn:En; [reflexivity|].
      destruct (last !! exportId) as [j|] eqn:E; [|discriminate].
      unfold res_write, res_end, terminal. cbn.
      destruct (job_status j) eqn:Es; cbn; try reflexivity.
      exfalso. apply Hlast. exists j. split; [exact E|].
      split; [|exact Es].
      cbn in En. destruct (job_type j) as [ty|]; [|discriminate].
      apply negb_false_iff, String.eqb_eq in En. now subst ty. }
    rewrite E. now rewrite ticks_ended.
  - cbn [app fold_left map concat].
    assert (E : export_progress_sendUpdate exportId jobs (Response w false)
                = Response (w ++ [SseStatus Processing (job_progress j)]) false).
    { unfold export_progress_sendUpdate, not_export, res_write, terminal.
      rewrite Hj, Ht, Hs. reflexivity. }
    rewrite E, IH. unfold status_event. rewrite Hj, Hs. cbn [app].
    now rewrite <- app_assoc.
Qed.

(** X10: the stream of [GET /export-progress/:exportId] writes one
    status event for every reading at which the id names an export job
    that is processing, then one closing event at the first reading at
    which it does not (the final status of the export, or ['Export not
    found'] when the id names no export job), ends there, and writes
    nothing afterwards. *)
Theorem export_progress_stream_closes (exportId : string) (now : gmap string job)
    (ticks pre post : list (gmap string job)) (last : gmap string job) :
  now :: ticks = pre ++ last :: post ->
  Forall (exporting_at exportId) pre -> ~ exporting_at exportId last ->
  export_progress_stream exportId now ticks
  = Response (concat (map (status_event exportId) pre)
                ++ [export_closing_event exportId last]) true.
Proof.
  intros E Hpre Hlast.
  change (export_progress_stream exportId now ticks)
    with (fold_left (fun r jobs => export_progress_sendUpdate exportId jobs r)
                    (now :: ticks) (Response [] false)).
  rewrite E. now rewrite (export_ticks exportId pre last post []).
Qed.

(** An export that reports 40 percent and then completes. *)
Lemma export_progress_stream_closes_witness :
  let jobs0 := export_init "1700000000001" "exports/export.mp4" "export.mp4" ∅ in
  let jobs1 := handle (ExProgress "1700000000001" (Some 40)) jobs0 in
  let jobs2 := handle (ExComplete "1700000000001") jobs1 in
  export_progress_stream "1700000000001" jobs0 [jobs1; jobs2; jobs2]
  = Response (concat (map (status_event "1700000000001") [jobs0; jobs1])
                ++ [export_closing_event "1700000000001" jobs2]) true.
Proof.
  intros jobs0 jobs1 jobs2.
  apply (export_progress_stream_closes "1700000000001" jobs0 [jobs1; jobs2; jobs2]
           [jobs0; jobs1] [jobs2] jobs2).
  - reflexivity.
  - constructor; [|constructor; [|constructor]];
      (eexists; split; [vm_compute; reflexivity | split; reflexivity]).
  - intros (j & Hj & _ & Hs). vm_compute in Hj. injection Hj as <-. discriminate.
Defined.

(** *** The download endpoints *)

Lemma keeps_running_step (id : string) (e : event) (jobs : gmap string job) (j : job) :
  keeps_running id e = true -> jobs !! id = Some j -> job_status j = Processing ->
  exists j', handle e jobs !! id = Some j' /\ job_status j' = Processing.
Proof.
  intros He Hj Hs. unfold keeps_running in He.
  destruct (Spec.is_progress id e) eqn:Ep.
  - exact (progress_keeps_processing id e jobs j Hj Hs Ep).
  - cbn in He. apply negb_true_iff in He.
    rewrite event_id_other by exact He. eauto.
Qed.

Lemma keeps_running_run (id : string) (es : list event) (jobs : gmap string job)
    (j : job) :
  Forall (fun e => keeps_running id e = true) es ->
  jobs !! id = Some j -> job_status j = Processing ->
  exists j', run es jobs !! id = Some j' /\ job_status j' = Processing
             /\ same_file j j'.
Proof.
  intros Hes Hj Hs.
  destruct (run_same_file id es jobs j Hj) as (j' & Hj' & Sf).
  exists j'. split; [exact Hj'|]. split; [|exact Sf].
  clear Sf. revert jobs j j' Hj Hs Hj'. unfold run.
  induction Hes as [|e es He _ IH]; intros jobs j j' Hj Hs Hj'.
  - cbn in Hj'. congruence.
  - cbn [fold_left] in Hj'.
    destruct (keeps_running_step id e jobs j He Hj Hs) as (j1 & H1 & Hs1).
    exact (IH _ _ _ H1 Hs1 Hj').
Qed.

(** X11: [GET /download/:jobId] answers 404 for a process-video job for
    as long as only progress events of the job (and events of other
    jobs) have been handled, and after its error event; after its end
    event it sends the output file of the request inline under the
    request's file name if that file exists, and 404 otherwise.
    [GET /download-export] answers 404 for the job after any events. *)
Theorem download_after_end (existsSync : string -> bool)
    (jobId outputPath inputPath filename : string) (jobs0 : gmap string job)
    (ps : list event) :
  Forall (fun e => keeps_running jobId e = true) ps ->
  let jobs := run ps (process_video_init jobId outputPath inputPath filename jobs0) in
  download existsSync jobId jobs = NotFound "File not ready or not found"
  /\ (forall msg, download existsSync jobId (handle (PvError jobId msg) jobs)
                  = NotFound "File not ready or not found")
  /\ download existsSync jobId (handle (PvEnd jobId) jobs)
     = (if existsSync outputPath then SendFile (Inline filename) outputPath
        else NotFound "File not ready or not found")
  /\ (forall es, download_export existsSync jobId (run es jobs)
                 = NotFound "Export not ready or not found").
Proof.
  intros Hps jobs.
  pose (j0 := Job Processing 0 outputPath (Some inputPath) filename None None).
  assert (H0 : process_video_init jobId outputPath inputPath filename jobs0 !! jobId
               = Some j0) by apply lookup_insert_eq.
  destruct (keeps_running_run jobId ps _ j0 Hps H0 eq_refl)
    as (j & Hj & Hs & Ho & _ & Hf & Ht).
  fold jobs in Hj. cbn in Ho, Hf, Ht.
  split; [|split; [|split]].
  - unfold download. rewrite Hj, Hs. reflexivity.
  - intros msg. unfold download. cbn [handle]. unfold process_video_on_error.
    rewrite Hj, lookup_insert_eq. reflexivity.
  - unfold download. cbn [handle]. unfold process_video_on_end.
    rewrite Hj, lookup_insert_eq. cbn. rewrite Ho, Hf.
    destruct (existsSync outputPath); reflexivity.
  - intros es. destruct (run_same_file jobId es jobs j Hj) as (j' & Hj' & _ & _ & _ & Ht').
    unfold download_export, not_export. rewrite Hj', Ht', Ht. reflexivity.
Qed.

Lemma download_after_end_witness :
  let jobs := run [PvProgress "1700000000001" 60 (Some (Timemark 0 0 30));
                   ExProgress "1700000000002" (Some 40)]
                  (process_video_init "1700000000001" "outputs/p.mp4" "uploads/in.mp4"
                     "p.mp4" ∅) in
  download (fun _ => true) "1700000000001" jobs = NotFound "File not ready or not found"
  /\ download (fun _ => true) "1700000000001" (handle (PvEnd "1700000000001") jobs)
     = SendFile (Inline "p.mp4") "outputs/p.mp4".
Proof.
  intros jobs.
  assert (H : Forall (fun e => keeps_running "1700000000001" e = true)
                [PvProgress "1700000000001" 60 (Some (Timemark 0 0 30));
                 ExProgress "1700000000002" (Some 40)]).
  { constructor; [reflexivity|]. constructor; [reflexivity|]. constructor. }
  split.
  - exact (proj1 (download_after_end (fun _ => true) "1700000000001" "outputs/p.mp4"
                    "uploads/in.mp4" "p.mp4" ∅ _ H)).
  - exact (proj1 (proj2 (proj2 (download_after_end (fun _ => true) "1700000000001"
                    "outputs/p.mp4" "uploads/in.mp4" "p.mp4" ∅ _ H)))).
Defined.

(** X12: [GET /download-export/:exportId] answers 404 for an export job
    for as long as only progress events of the job (and events of other
    jobs) have been handled, and after its failure; after its completion
    it sends the export file as an attachment if that file exists.
    [GET /download/:jobId] has no test of the job type: it sends the
    same finished export inline. *)
Theorem download_export_after_completion (existsSync : string -> bool)
    (exportId outputPath filename : string) (jobs0 : gmap string job)
    (ps : list event) :
  Forall (fun e => keeps_running exportId e = true) ps ->
  let jobs := run ps (export_init exportId outputPath filename jobs0) in
  download_export existsSync exportId jobs = NotFound "Export not ready or not found"
  /\ (forall msg, download_export existsSync exportId (handle (ExFail exportId msg) jobs)
                  = NotFound "Export not ready or not found")
  /\ download_export existsSync exportId (handle (ExComplete exportId) jobs)
     = (if existsSync outputPath then SendFile (Attachment filename) outputPath
        else NotFound "Export not ready or not found")
  /\ download existsSync exportId (handle (ExComplete exportId) jobs)
     = (if existsSync outputPath then SendFile (Inline filename) outputPath
        else NotFound "File not ready or not found").
Proof.
  intros Hps jobs.
  pose (j0 := Job Processing 0 outputPath None filename (Some "export") None).
  assert (H0 : export_init exportId outputPath filename jobs0 !! exportId = Some j0)
    by apply lookup_insert_eq.
  destruct (keeps_running_run exportId ps _ j0 Hps H0 eq_refl)
    as (j & Hj & Hs & Ho & _ & Hf & Ht).
  fold jobs in Hj. cbn in Ho, Hf, Ht.
  split; [|split; [|split]].
  - unfold download_export, not_export. rewrite Hj, Ht, Hs. reflexivity.
  - intros msg. unfold download_export, not_export. cbn [handle]. unfold export_on_fail.
    rewrite Hj, lookup_insert_eq. cbn. rewrite Ht. reflexivity.
  - unfold download_export, not_export. cbn [handle]. unfold export_on_complete.
    rewrite Hj, lookup_insert_eq. cbn. rewrite Ht, Ho, Hf. cbn.
    destruct (existsSync outputPath); reflexivity.
  - unfold download. cbn [handle]. unfold export_on_complete.
    rewrite Hj, lookup_insert_eq. cbn. rewrite Ho, Hf.
    destruct (existsSync outputPath); reflexivity.
Qed.

Lemma download_export_after_completion_witness :
  let jobs := run [ExProgress "1700000000001" (Some 40)]
                  (export_init "1700000000001" "exports/export.mp4" "export.mp4" ∅) in
  download_export (fun _ => true) "1700000000001" jobs
  = NotFound "Export not ready or not found"
  /\ download_export (fun _ => true) "1700000000001"
       (handle (ExComplete "1700000000001") jobs)
     = SendFile (Attachment "export.mp4") "exports/export.mp4".
Proof.
  intros jobs.
  assert (H : Forall (fun e => keeps_running "1700000000001" e = true)
                [ExProgress "1700000000001" (Some 40)]).
  { constructor; [reflexivity|]. constructor. }
  split.
  - exact (proj1 (download_export_after_completion (fun _ => true) "1700000000001"
                    "exports/export.mp4" "export.mp4" ∅ _ H)).
  - exact (proj1 (proj2 (proj2 (download_export_after_completion (fun _ => true)
                    "1700000000001" "exports/export.mp4" "export.mp4" ∅ _ H)))).
Defined.

(** X13: after [jobs.clear()] of [POST /clear-cache] the events of the
    encoders that were still running create no entry: the registry stays
    empty, so every progress stream closes at once with ['Job not
    found'] or ['Export not found'] and every download answers 404. *)
Theorem cleared_registry_stays_empty (existsSync : string -> bool)
    (jobs : gmap string job) (es : list event) (id : string)
    (ticks : list (gmap string job)) :
  run es (clear_cache jobs) = ∅
  /\ progress_stream id (run es (clear_cache jobs)) ticks
     = Response [SseError "Job not found"] true
  /\ export_progress_stream id (run es (clear_cache jobs)) ticks
     = Response [SseError "Export not found"] true
  /\ download existsSync id (run es (clear_cache jobs))
     = NotFound "File not ready or not found"
  /\ download_export existsSync id (run es (clear_cache jobs))
     = NotFound "Export not ready or not found".
Proof.
  assert (E : run es (clear_cache jobs) = ∅).
  { unfold clear_cache, run. induction es as [|e es IH]; [reflexivity|].
    cbn [fold_left].
    replace (handle e ∅) with (∅ : gmap string job); [exact IH|].
    destruct e; cbn [handle];
      unfold process_video_on_progress, process_video_on_end, process_video_on_error,
        export_on_progress, export_on_complete, export_on_fail;
      now rewrite lookup_empty. }
  rewrite E. split; [reflexivity|]. split; [|split; [|split]].
  - unfold progress_stream. rewrite progress_ticks_ended; reflexivity.
  - unfold export_progress_stream. rewrite ticks_ended; reflexivity.
  - reflexivity.
  - reflexivity.
Qed.

(** ** What the browser sends and how the export resolves it *)

Lemma prefix_append (s b : string) : String.prefix s (s +:+ b) = true.
Proof.
  induction s as [|c s IH]; [now destruct b|].
  change (String c s +:+ b) with (String c (s +:+ b)). cbn [String.prefix].
  destruct (ascii_dec c c) as [_|Hne]; [exact IH | congruence].
Qed.

Lemma index_after (a sub rest : string) :
  String.prefix sub rest = true -> exists n, index 0 sub (a +:+ rest) = Some n.
Proof.
  intros Hp. induction a as [|c a [n IH]].
  - change ("" +:+ rest) with rest. destruct rest as [|c rest].
    + destruct sub; [cbn; eauto | discriminate].
    + cbn [index]. rewrite Hp. eauto.
  - change (String c a +:+ rest) with (String c (a +:+ rest)). cbn [index].
    destruct (String.prefix sub (String c (a +:+ rest))); [eauto|].
    rewrite IH. eauto.
Qed.

Lemma includes_infix (a sub b : string) : includes sub (a +:+ sub +:+ b) = true.
Proof.
  unfold includes.
  destruct (index_after a sub (sub +:+ b) (prefix_append sub b)) as [n ->].
  reflexivity.
Qed.

Lemma find_after_rejected {A} (p : A -> bool) (pre post : list A) (f : A) :
  Forall (fun g => p g = false) pre -> p f = true ->
  List.find p (pre ++ f :: post) = Some f.
Proof.
  intros Hpre Hf. induction Hpre as [|g pre Hg _ IH]; cbn [app List.find].
  - now rewrite Hf.
  - now rewrite Hg.
Qed.

Lemma append_nil (s : string) : s +:+ "" = s.
Proof.
  induction s as [|c s IH]; [reflexivity|].
  change (String c (s +:+ "") = String c s). now rewrite IH.
Qed.

(** X14: a media file that the browser uploads under the name
    [<media id>_<file name>] ([handleExport]) or under the bare media id
    ([backendExportService.startExport]) and the server stores under
    [<time>-<that name>] is the file the export resolves a clip of that
    media id to, unless an earlier upload of the request has a stored
    name that contains the media id too, or the clip has a processed
    output. *)
Theorem uploaded_media_resolves (env : Env) (clip : Clip) (now name : string)
    (pre post : list UploadedFile) (f : UploadedFile) :
  env_videos env = pre ++ f :: post ->
  file_filename f = stored_name now (upload_name (mediaFileId clip) name)
  \/ file_filename f = stored_name now (mediaFileId clip) ->
  Forall (fun g => includes (mediaFileId clip) (file_filename g) = false) pre ->
  find_upload env clip = Some (file_path f)
  /\ (processedVideoUrl clip = None -> getVideoPath env clip = Some (file_path f)).
Proof.
  intros Hv Hf Hpre.
  assert (E : find_upload env clip = Some (file_path f)).
  { unfold find_upload. rewrite Hv.
    rewrite (find_after_rejected _ pre post f); [reflexivity| |].
    - eapply Forall_impl; [exact Hpre|]. cbn. intros g ->. apply andb_false_r.
    - apply andb_true_intro. destruct Hf as [-> | ->]; unfold stored_name, upload_name.
      + split; [destruct now; reflexivity|].
        rewrite <- (append_assoc now "-").
        apply (includes_infix (now +:+ "-") (mediaFileId clip) ("_" +:+ name)).
      + split; [destruct now; reflexivity|].
        rewrite <- (append_assoc now "-").
        replace (mediaFileId clip) with (mediaFileId clip +:+ "") at 2
          by apply append_nil.
        apply (includes_infix (now +:+ "-") (mediaFileId clip) ""). }
  split; [exact E|].
  intros Hp. unfold getVideoPath, processed_path. rewrite Hp. exact E.
Qed.

Lemma uploaded_media_resolves_witness :
  getVideoPath (Samples.request "1700000000001") (Samples.clip "c2" 0 5 None None)
  = Some "uploads/1700000000000-c2_clip.mp4".
Proof.
  refine (proj2 (uploaded_media_resolves (Samples.request "1700000000001")
                   (Samples.clip "c2" 0 5 None None) "1700000000000" "clip.mp4"
                   [Samples.upload "c1"] [Samples.upload "m1"] (Samples.upload "c2")
                   _ _ _) _).
  - reflexivity.
  - left. reflexivity.
  - constructor; [reflexivity | constructor].
  - reflexivity.
Defined.

Lemma substring_all (s : string) : substring 0 (String.length s) s = s.
Proof. induction s as [|c s IH]; cbn; [reflexivity | now rewrite IH]. Qed.

Lemma index_no_slash (n : nat) (s : string) :
  no_slash s -> index n "/download/" s = None.
Proof.
  revert n. induction s as [|c s IH]; intros n Hs.
  - destruct n; reflexivity.
  - destruct Hs as [Hc Hs]. destruct n as [|n]; cbn [index].
    + cbn [String.prefix]. destruct (ascii_dec "/" c) as [E|_].
      * exfalso. apply Hc. now rewrite <- E.
      * now rewrite IH.
    + now rewrite IH.
Qed.

Lemma prefix_nil (s : string) : String.prefix "" s = true.
Proof. now destruct s. Qed.

Lemma index_here (sub : string) (c : ascii) (s : string) :
  String.prefix sub (String c s) = true -> index 0 sub (String c s) = Some 0%nat.
Proof. intros H. cbn [index]. now rewrite H. Qed.

Lemma index_skip (sub : string) (c : ascii) (s : string) :
  String.prefix sub (String c s) = false ->
  index 0 sub (String c s) = option_map S (index 0 sub s).
Proof. intros H. cbn [index]. rewrite H. now destruct (index 0 sub s). Qed.

(** The id that [getVideoPath] reads back from the URL [convertFps]
    returns is the id of the job. *)
Lemma split_processed_url (jobId : string) :
  no_slash jobId -> split_second "/download/" (processed_url jobId) = Some jobId.
Proof.
  intros Hs. unfold split_second, processed_url. cbv [String.append].
  repeat rewrite index_skip by reflexivity.
  rewrite index_here by (cbn; apply prefix_nil).
  cbn [option_map Nat.add String.length Nat.sub substring].
  rewrite Nat.sub_0_r, substring_all. now rewrite index_no_slash.
Qed.

(** X15: for a clip whose [processedVideoUrl] is the URL [convertFps]
    returns for job [jobId] (an id without ['/']), the export uses the
    output file of that registry entry when the entry exists and its
    file exists, and otherwise falls back to the uploaded file as for a
    clip without a processed URL. *)
Theorem processed_clip_resolves (env : Env) (clip : Clip) (jobId : string) :
  no_slash jobId -> processedVideoUrl clip = Some (processed_url jobId) ->
  getVideoPath env clip
  = match env_jobs env !! jobId with
    | Some processJob =>
        if env_existsSync env (job_outputPath processJob)
        then Some (job_outputPath processJob)
        else find_upload env clip
    | None => find_upload env clip
    end.
Proof.
  intros Hs Hu. unfold getVideoPath, processed_path. rewrite Hu.
  rewrite split_processed_url by exact Hs.
  change (nonempty (processed_url jobId)) with true. cbn match.
  destruct (env_jobs env !! jobId) as [j|]; [|reflexivity].
  destruct (env_existsSync env (job_outputPath j)); reflexivity.
Qed.

Lemma processed_clip_resolves_witness :
  getVideoPath MoreSamples.processed_request MoreSamples.processed_clip
  = Some "outputs/processed_c1.mp4".
Proof.
  rewrite (processed_clip_resolves MoreSamples.processed_request
             MoreSamples.processed_clip "1700000000001").
  - reflexivity.
  - cbn. repeat split; discriminate.
  - reflexivity.
Defined.

Lemma listen_processing (jobId : string) (pre : list (gmap string job))
    (rest : list sse) :
  Forall (processing_at jobId) pre ->
  listen jobId (concat (map (status_event jobId) pre) ++ rest)
  = concat (map (reported jobId) pre) ++ listen jobId rest.
Proof.
  induction 1 as [|jobs pre (j & Hj & Hs) _ IH]; [reflexivity|].
  cbn [map concat]. unfold status_event at 1, reported at 1. rewrite Hj, Hs.
  cbn [app listen onmessage]. now rewrite IH.
Qed.

(** X16: what [convertFps] does with the stream of [GET /progress] of
    its job: it reports [min(progress / 100, 0.99)] for every reading at
    which the job is processing; at the reading that closes the stream
    it reports 1 and resolves to the download URL of the job if the job
    is done, and rejects otherwise, with ['Job not found'] if the job is
    gone and with ['Unknown processing error'] if the job failed: the
    error text the server stored with the job is not in the stream. *)
Theorem convert_fps_outcome (jobId : string) (now : gmap string job)
    (ticks pre post : list (gmap string job)) (last : gmap string job) :
  now :: ticks = pre ++ last :: post ->
  Forall (processing_at jobId) pre -> ~ processing_at jobId last ->
  listen jobId (written (progress_stream jobId now ticks))
  = concat (map (reported jobId) pre) ++ settles jobId last.
Proof.
  intros E Hpre Hlast.
  change (progress_stream jobId now ticks)
    with (fold_left (fun r jobs => progress_sendUpdate jobId jobs r)
                    (now :: ticks) (Response [] false)).
  rewrite E, (progress_ticks jobId pre last post []) by assumption.
  cbn [written app]. rewrite listen_processing by exact Hpre. f_equal.
  unfold closing_event, settles. destruct (last !! jobId) as [j|] eqn:El; [|reflexivity].
  destruct (job_status j) eqn:Es; try reflexivity.
  exfalso. apply Hlast. exists j. auto.
Qed.

(** A job that fails with a message after one progress report. *)
Lemma convert_fps_outcome_witness :
  let jobs0 := process_video_init "1700000000001" "outputs/p.mp4" "uploads/in.mp4"
                 "p.mp4" ∅ in
  let jobs1 := handle (PvProgress "1700000000001" 60 (Some (Timemark 0 0 30))) jobs0 in
  let jobs2 := handle (PvError "1700000000001" "Conversion failed") jobs1 in
  listen "1700000000001" (written (progress_stream "1700000000001" jobs0 [jobs1; jobs2]))
  = concat (map (reported "1700000000001") [jobs0; jobs1])
    ++ [Reject "Unknown processing error"].
Proof.
  intros jobs0 jobs1 jobs2.
  apply (convert_fps_outcome "1700000000001" jobs0 [jobs1; jobs2]
           [jobs0; jobs1] [] jobs2).
  - reflexivity.
  - constructor; [|constructor; [|constructor]];
      (eexists; split; [vm_compute; reflexivity | reflexivity]).
  - intros (j & Hj & Hs). vm_compute in Hj. injection Hj as <-. discriminate.
Defined.



(** ** Clips in the editor *)

Section EditorFacts.

Import Editor.


Lemma Qltb_abs_zero (x : Q) : x == 0 -> Qltb (Qabs x) (1#1000) = true.
Proof. intros E. apply Qltb_lt. rewrite E. reflexivity. Qed.






(** X20: [areClipsAdjacent] does not depend on the order of its two
    clips, and neither does [mergeTwoClips] when one of them starts
    before the other; the merged clip starts where the earlier of the
    two starts and takes its source range from the start of the earlier
    to the end of the later. *)
Theorem merge_order_independent (newId : string) (clipA clipB : Clip) :
  areClipsAdjacent clipA clipB = areClipsAdjacent clipB clipA
  /\ (timelineStart clipA < timelineStart clipB ->
      mergeTwoClips newId clipA clipB = mergeTwoClips newId clipB clipA
      /\ timelineStart (mergeTwoClips newId clipA clipB) = timelineStart clipA
      /\ sourceStart (mergeTwoClips newId clipA clipB) = sourceStart clipA
      /\ sourceEnd (mergeTwoClips newId clipA clipB) = sourceEnd clipB).
Proof.
  split.
  - unfold areClipsAdjacent.
    destruct (Qltb (Qabs (timelineStart clipA + getClipDuration clipA
                          - timelineStart clipB)) (1 # 1000));
      destruct (Qltb (Qabs (timelineStart clipB + getClipDuration clipB
                            - timelineStart clipA)) (1 # 1000)); reflexivity.
  - intros H.
    assert (L : Qle_bool (timelineStart clipA) (timelineStart clipB) = true).
    { apply Qle_bool_iff. lra. }
    assert (G : Qle_bool (timelineStart clipB) (timelineStart clipA) = false).
    { apply Qltb_lt in H. unfold Qltb in H. now apply negb_true_iff in H. }
    split.
    + unfold mergeTwoClips. rewrite L, G. reflexivity.
    + unfold mergeTwoClips. rewrite L. cbn. auto.
Qed.

Lemma merge_order_independent_witness :
  mergeTwoClips "c10" MoreSamples.graded MoreSamples.trailing
  = mergeTwoClips "c10" MoreSamples.trailing MoreSamples.graded.
Proof.
  exact (proj1 (proj2 (merge_order_independent "c10" MoreSamples.graded
                         MoreSamples.trailing) eq_refl)).
Defined.

Lemma compact_from_lookup (cs : list Clip) :
  forall (time : Q) (i : nat) (a b : Clip),
    compact_from time cs !! i = Some a -> compact_from time cs !! S i = Some b ->
    timelineStart b = clip_end a.
Proof.
  induction cs as [|c cs IH]; intros time i a b Ha Hb; [discriminate|].
  cbn [compact_from] in *. destruct i as [|i].
  - cbn in Ha. injection Ha as <-.
    change ((with_timelineStart time c :: compact_from (time + getClipDuration c) cs)
              !! 1%nat) with (compact_from (time + getClipDuration c) cs !! 0%nat) in Hb.
    destruct cs as [|c' cs]; [discriminate|].
    cbn in Hb. injection Hb as <-. reflexivity.
  - exact (IH _ i a b Ha Hb).
Qed.

Lemma insert_by_start_perm (c : Clip) (cs : list Clip) :
  insert_by_start c cs ≡ₚ c :: cs.
Proof.
  induction cs as [|c' cs IH]; [reflexivity|]. cbn [insert_by_start].
  destruct (Qle_bool _ _); [reflexivity|].
  rewrite IH. apply Permutation_swap.
Qed.

Lemma sort_by_start_perm (cs : list Clip) : sort_by_start cs ≡ₚ cs.
Proof.
  induction cs as [|c cs IH]; [reflexivity|].
  cbn [sort_by_start fold_right]. fold (sort_by_start cs).
  rewrite insert_by_start_perm. now rewrite IH.
Qed.

Lemma insert_by_start_sorted (c : Clip) (cs : list Clip) :
  StronglySorted starts_before cs -> StronglySorted starts_before (insert_by_start c cs).
Proof.
  induction 1 as [|c' cs Hs IH Hall]; cbn [insert_by_start].
  - constructor; constructor.
  - destruct (Qle_bool _ _) eqn:E.
    + apply Qle_bool_iff in E. constructor; [constructor; assumption|].
      constructor; [exact E|].
      eapply Forall_impl; [exact Hall|]. intros x Hx. unfold starts_before in *. lra.
    + constructor; [exact IH|].
      rewrite insert_by_start_perm. constructor; [|exact Hall].
      unfold starts_before. apply Qlt_le_weak, Qltb_lt. unfold Qltb. now rewrite E.
Qed.

Lemma sort_by_start_sorted (cs : list Clip) :
  StronglySorted starts_before (sort_by_start cs).
Proof.
  induction cs as [|c cs IH]; [constructor|].
  cbn [sort_by_start fold_right]. now apply insert_by_start_sorted.
Qed.

(** Sorting changes nothing on clips that are in order already. *)
Lemma sort_by_start_sorted_id (cs : list Clip) :
  StronglySorted starts_before cs -> sort_by_start cs = cs.
Proof.
  induction 1 as [|c cs Hs IH Hall]; [reflexivity|].
  cbn [sort_by_start fold_right]. fold (sort_by_start cs). rewrite IH.
  destruct Hall as [|c' cs Hc _]; [reflexivity|]. cbn [insert_by_start].
  apply Qle_bool_iff in Hc. now rewrite Hc.
Qed.

(** The sort is stable: clips with the same start keep their order. *)
Lemma insert_by_start_stable (k : Q) (c : Clip) (cs : list Clip) :
  starting_at k (insert_by_start c cs) = starting_at k (c :: cs).
Proof.
  unfold starting_at. induction cs as [|c' cs IH]; [reflexivity|].
  cbn [insert_by_start]. destruct (Qle_bool _ _) eqn:E; [reflexivity|].
  cbn [List.filter] in *. rewrite IH.
  destruct (Qeq_bool (timelineStart c) k) eqn:Ec; [|reflexivity].
  destruct (Qeq_bool (timelineStart c') k) eqn:Ec'; [|reflexivity].
  apply Qeq_bool_iff in Ec, Ec'.
  assert (H : timelineStart c <= timelineStart c') by (rewrite Ec, Ec'; apply Qle_refl).
  apply Qle_bool_iff in H. congruence.
Qed.

Lemma sort_by_start_stable (k : Q) (cs : list Clip) :
  starting_at k (sort_by_start cs) = starting_at k cs.
Proof.
  induction cs as [|c cs IH]; [reflexivity|].
  cbn [sort_by_start fold_right]. fold (sort_by_start cs).
  rewrite insert_by_start_stable. unfold starting_at in *. cbn [List.filter].
  now rewrite IH.
Qed.

(** X21: the clips stored for a modified track are the new clips in the
    order of their timeline starts, clips with the same start in the
    order they had, and in the order they had altogether when that was
    the order of their starts.  In magnet mode the compaction then
    changes nothing but the timeline starts: the first clip starts at 0
    and every other clip starts exactly where the one before it ends,
    so neighbours are adjacent and the clips lie back to back. *)
Theorem compact_contiguous (cs : list Clip) :
  arrange false cs ≡ₚ cs
  /\ StronglySorted starts_before (arrange false cs)
  /\ (forall k, starting_at k (arrange false cs) = starting_at k cs)
  /\ (StronglySorted starts_before cs -> arrange false cs = cs)
  /\ map (with_timelineStart 0) (arrange true cs)
     = map (with_timelineStart 0) (arrange false cs)
  /\ (forall a, arrange true cs !! 0%nat = Some a -> timelineStart a = 0)
  /\ (forall i a b,
        arrange true cs !! i = Some a -> arrange true cs !! S i = Some b ->
        timelineStart b = clip_end a /\ areClipsAdjacent a b = true).
Proof.
  unfold arrange. cbn zeta.
  split; [apply sort_by_start_perm|].
  split; [apply sort_by_start_sorted|].
  split; [intros k; apply sort_by_start_stable|].
  split; [apply sort_by_start_sorted_id|].
  generalize (sort_by_start cs) as sorted. intros sorted.
  split; [|split].
  - generalize 0 at 2. induction sorted as [|c l IH]; intros time; [reflexivity|].
    cbn [compact_from map]. now rewrite IH.
  - intros a Ha. destruct sorted as [|c l]; [discriminate|].
    cbn in Ha. injection Ha as <-. reflexivity.
  - intros i a b Ha Hb.
    pose proof (compact_from_lookup sorted 0 i a b Ha Hb) as E.
    split; [exact E|].
    unfold areClipsAdjacent. rewrite Qltb_abs_zero; [reflexivity|].
    rewrite E. unfold clip_end. ring.
Qed.

(** The two sample clips, the later one first: the sort puts the graded
    clip in front, and the compaction moves it to 0 and the other clip
    to its end. *)
Lemma compact_contiguous_witness :
  exists a b,
    arrange true [MoreSamples.trailing; MoreSamples.graded] = [a; b]
    /\ id a = "c1" /\ id b = "c2"
    /\ timelineStart a = 0
    /\ timelineStart b = clip_end a /\ areClipsAdjacent a b = true.
Proof.
  eexists _, _. split; [reflexivity|]. split; [reflexivity|]. split; [reflexivity|].
  split.
  - exact (proj1 (proj2 (proj2 (proj2 (proj2 (proj2 (compact_contiguous
             [MoreSamples.trailing; MoreSamples.graded]))))))
             _ eq_refl).
  - exact (proj2 (proj2 (proj2 (proj2 (proj2 (proj2 (compact_contiguous
             [MoreSamples.trailing; MoreSamples.graded]))))))
             0%nat _ _ eq_refl eq_refl).
Defined.

Lemma max_end_track (track : list Clip) :
  forall m : Q,
    let step := fun maxEnd clip =>
                  let clipEnd := timelineStart clip + getClipDuration clip in
                  if Qgtb clipEnd maxEnd then clipEnd else maxEnd in
    m <= fold_left step track m
    /\ forall c, c ∈ track -> clip_end c <= fold_left step track m.
Proof.
  induction track as [|c track IH]; intros m step.
  - split; [apply Qle_refl|]. intros c Hc. inversion Hc.
  - cbn [fold_left]. destruct (IH (step m c)) as [H1 H2]. fold step in H1, H2.
    assert (Hm : m <= step m c /\ clip_end c <= step m c).
    { unfold step, clip_end.
      destruct (Qgtb (timelineStart c + getClipDuration c) m) eqn:E.
      - apply Qgtb_gt in E. split; [lra | apply Qle_refl].
      - apply Qgtb_le in E. split; [apply Qle_refl | exact E]. }
    split; [lra|]. intros c' Hc'. inversion Hc'; subst; [lra | auto].
Qed.

Lemma max_end_tracks (tracks : list (list Clip)) :
  forall m : Q,
    let step := fun maxEnd clip =>
                  let clipEnd := timelineStart clip + getClipDuration clip in
                  if Qgtb clipEnd maxEnd then clipEnd else maxEnd in
    let outer := fun maxEnd track => fold_left step track maxEnd in
    m <= fold_left outer tracks m
    /\ forall track c, track ∈ tracks -> c ∈ track ->
         clip_end c <= fold_left outer tracks m.
Proof.
  induction tracks as [|tr tracks IH]; intros m step outer.
  - split; [apply Qle_refl|]. intros track c Ht. inversion Ht.
  - cbn [fold_left]. destruct (IH (outer m tr)) as [H1 H2]. fold step outer in H1, H2.
    destruct (max_end_track tr m) as [H3 H4]. fold step in H3, H4.
    fold (outer m tr) in H3, H4.
    split; [lra|]. intros track c Ht Hc. inversion Ht; subst.
    + specialize (H4 c Hc). lra.
    + exact (H2 track c ltac:(assumption) Hc).
Qed.

Lemma max_end_lower (tracks : list (list Clip)) :
  0 <= max_end tracks
  /\ forall track c, track ∈ tracks -> c ∈ track -> clip_end c <= max_end tracks.
Proof. exact (max_end_tracks tracks 0). Qed.

Lemma max_end_track_upper (track : list Clip) (u : Q) :
  forall m : Q,
    m <= u -> (forall c, c ∈ track -> clip_end c <= u) ->
    fold_left (fun maxEnd clip =>
                 let clipEnd := timelineStart clip + getClipDuration clip in
                 if Qgtb clipEnd maxEnd then clipEnd else maxEnd) track m <= u.
Proof.
  induction track as [|c track IH]; intros m Hm Hall; [exact Hm|].
  cbn [fold_left]. apply IH.
  - cbn zeta. destruct (Qgtb _ m); [|exact Hm].
    apply (Hall c). apply list_elem_of_here.
  - intros c' Hc'. apply Hall. now apply list_elem_of_further.
Qed.

Lemma max_end_upper (tracks : list (list Clip)) (u : Q) :
  0 <= u -> (forall track c, track ∈ tracks -> c ∈ track -> clip_end c <= u) ->
  max_end tracks <= u.
Proof.
  unfold max_end. generalize 0 at 1 2. 
  induction tracks as [|tr tracks IH]; intros m Hm Hall; [exact Hm|].
  cbn [fold_left]. apply IH.
  - apply max_end_track_upper; [exact Hm|].
    intros c Hc. apply (Hall tr c); [apply list_elem_of_here | exact Hc].
  - intros track c Ht Hc. apply (Hall track c); [now apply list_elem_of_further | exact Hc].
Qed.

(** X22: the timeline duration that [App.tsx] computes is positive and
    lies strictly after the end of every clip of every track (a tenth of
    a second after the latest end); it is one second when no clip ends
    after time 0. *)
Theorem timeline_duration_covers (tracks : list (list Clip)) :
  0 < timeline_duration tracks
  /\ (forall track c, track ∈ tracks -> c ∈ track ->
        clip_end c < timeline_duration tracks)
  /\ ((forall track c, track ∈ tracks -> c ∈ track -> clip_end c <= 0) ->
      timeline_duration tracks = 1).
Proof.
  destruct (max_end_lower tracks) as [H0 Hc].
  unfold timeline_duration. cbn zeta. split; [|split].
  - destruct (Qgtb (max_end tracks) 0) eqn:E; [|reflexivity].
    apply Qgtb_gt in E. lra.
  - intros track c Ht Hin. specialize (Hc track c Ht Hin).
    destruct (Qgtb (max_end tracks) 0) eqn:E.
    + lra.
    + apply Qgtb_le in E. lra.
  - intros Hall.
    assert (G : max_end tracks <= 0) by (apply max_end_upper; [apply Qle_refl | exact Hall]).
    apply Qgtb_le in G. now rewrite G.
Qed.

(** The timeline of the two sample clips ends after both of them. *)
Lemma timeline_duration_covers_witness :
  clip_end MoreSamples.trailing
  < timeline_duration [[MoreSamples.graded; MoreSamples.trailing]].
Proof.
  apply (proj1 (proj2 (timeline_duration_covers
                         [[MoreSamples.graded; MoreSamples.trailing]]))
           [MoreSamples.graded; MoreSamples.trailing] MoreSamples.trailing).
  - apply list_elem_of_here.
  - apply list_elem_of_further, list_elem_of_here.
Defined.

(** X23: when [handleConvertFps] finishes for a clip with a valid
    source range and a positive speed, its last update passes the test
    of [handleClipUpdate] whatever the media file, and the clip it
    leaves has speed 1, the same source start and timeline start, and
    the same length on the timeline as the clip had while it was
    previewed at that speed: the source length divided by the speed. *)
Theorem baked_speed_keeps_duration (speed' : Q) (jobId : string) (clip : Clip)
    (isImage : bool) (mediaDuration : Q) :
  0 < speed' -> sourceStart clip < sourceEnd clip -> 0 <= timelineStart clip ->
  let preview := processing_started speed' clip in
  let baked := processing_done speed' (Client.processed_url jobId) clip preview in
  update_rejected isImage mediaDuration baked = false
  /\ getClipDuration baked == getClipDuration preview
  /\ getClipDuration baked == (sourceEnd clip - sourceStart clip) / speed'
  /\ sourceStart baked = sourceStart clip
  /\ timelineStart baked = timelineStart clip
  /\ speed_or_1 baked = 1.
Proof.
  intros Hs Hr Ht preview baked.
  assert (Hn : ~ speed' == 0) by (intros E; rewrite E in Hs; exact (Qlt_irrefl 0 Hs)).
  assert (Hsp : speed_or_1 preview = speed').
  { unfold speed_or_1, preview. cbn [speed processing_started].
    destruct (Qeq_bool speed' 0) eqn:E; [|reflexivity].
    apply Qeq_bool_iff in E. contradiction. }
  assert (Hd : 0 < (sourceEnd clip - sourceStart clip) / speed').
  { apply Qlt_shift_div_l; [exact Hs | lra]. }
  split; [|split; [|split; [|split; [|split]]]].
  - unfold update_rejected, baked.
    cbn [processedVideoUrl sourceStart sourceEnd timelineStart processing_done
           processing_started preview].
    change (nonempty (Client.processed_url jobId)) with true. cbn [negb andb orb].
    replace (Qle_bool _ (sourceStart clip)) with false.
    + cbn [orb]. apply Qltb_ge. exact Ht.
    + symmetry. apply negb_true_iff. apply Qltb_lt. lra.
  - unfold getClipDuration at 2. rewrite Hsp.
    unfold getClipDuration, speed_or_1, baked, preview.
    cbn [speed sourceStart sourceEnd processing_done processing_started].
    change (Qeq_bool 1 0) with false. cbn match. field. exact Hn.
  - unfold getClipDuration, speed_or_1, baked, preview.
    cbn [speed sourceStart sourceEnd processing_done processing_started].
    change (Qeq_bool 1 0) with false. cbn match. field. exact Hn.
  - reflexivity.
  - reflexivity.
  - reflexivity.
Qed.

(** The graded clip slowed to half speed: ten seconds of source become
    twenty seconds on the timeline, before and after baking. *)
Lemma baked_speed_keeps_duration_witness :
  getClipDuration
    (processing_done (1#2) (Client.processed_url "1700000000001") MoreSamples.graded
       (processing_started (1#2) MoreSamples.graded))
  == getClipDuration (processing_started (1#2) MoreSamples.graded).
Proof.
  exact (proj1 (proj2 (baked_speed_keeps_duration (1#2) "1700000000001"
                         MoreSamples.graded false 10 eq_refl eq_refl
                         ltac:(discriminate)))).
Defined.

End EditorFacts.
